(** * richie.py : the interactive automation runner (class [AutomationUI])

    A shallow embedding of [src/richie.py].  The object's fields and the
    world it acts on (terminal, keyboard, prompts, file system, clock,
    signals) are one explicit state; every method is a function in a small
    state/exception monad.  What the environment answers is read from an
    oracle [Env]; the unbounded [while True] loops take fuel. *)

From Stdlib Require Import List String Ascii NArith ZArith Bool Arith Lia.
From Stdlib Require Import Strings.Byte Decimal DecimalPos DecimalN DecimalFacts.
Import ListNotations.

Set Implicit Arguments.
Set Warnings "-register-all".

(* ===================================================================== *)
(** ** Python strings *)
(* ===================================================================== *)

(** A Python [str] is a sequence of code points. *)
Definition pystr := list N.

(** An ASCII literal of the source. *)
Definition u (s : string) : pystr :=
  map N_of_ascii (list_ascii_of_string s).

Arguments u : simpl never.

Fixpoint pystr_eqb (a b : pystr) : bool :=
  match a, b with
  | [], [] => true
  | x :: a', y :: b' => N.eqb x y && pystr_eqb a' b'
  | _, _ => false
  end.

(** [sep.join(parts)] *)
Fixpoint join (sep : pystr) (parts : list pystr) : pystr :=
  match parts with
  | [] => []
  | [p] => p
  | p :: rest => p ++ sep ++ join sep rest
  end.

(** Decimal digits, as [str(n)] prints them. *)
Fixpoint uint_chars (d : Decimal.uint) : pystr :=
  match d with
  | Nil => []
  | D0 d => 48%N :: uint_chars d
  | D1 d => 49%N :: uint_chars d
  | D2 d => 50%N :: uint_chars d
  | D3 d => 51%N :: uint_chars d
  | D4 d => 52%N :: uint_chars d
  | D5 d => 53%N :: uint_chars d
  | D6 d => 54%N :: uint_chars d
  | D7 d => 55%N :: uint_chars d
  | D8 d => 56%N :: uint_chars d
  | D9 d => 57%N :: uint_chars d
  end.

Definition str_N (n : N) : pystr := uint_chars (N.to_uint n).

Definition str_Z (z : Z) : pystr :=
  match z with
  | Zneg p => 45%N :: str_N (Npos p)
  | _ => str_N (Z.to_N z)
  end.

(** [f"{n:0{w}d}"] for a non-negative [n]. *)
Definition zfill (w : nat) (n : N) : pystr :=
  let s := str_N n in
  repeat 48%N (w - List.length s) ++ s.

(* ===================================================================== *)
(** ** datetime *)
(* ===================================================================== *)

Record datetime := mkDatetime {
  year : N; month : N; day : N;
  hour : N; minute : N; second : N; microsecond : N
}.

Definition date_part (sep : pystr) (t : datetime) : pystr :=
  zfill 4 (year t) ++ sep ++ zfill 2 (month t) ++ sep ++ zfill 2 (day t).

Definition time_part (sep : pystr) (t : datetime) : pystr :=
  zfill 2 (hour t) ++ sep ++ zfill 2 (minute t) ++ sep ++ zfill 2 (second t).

Definition fraction (t : datetime) : pystr :=
  if N.eqb (microsecond t) 0 then [] else u "." ++ zfill 6 (microsecond t).

(** [t.isoformat()] *)
Definition isoformat (t : datetime) : pystr :=
  date_part (u "-") t ++ u "T" ++ time_part (u ":") t ++ fraction t.

(** [str(t)], which is [t.isoformat(sep=' ')] *)
Definition str_datetime (t : datetime) : pystr :=
  date_part (u "-") t ++ u " " ++ time_part (u ":") t ++ fraction t.

(** [t.strftime("%Y%m%d_%H%M%S")] *)
Definition strftime_file (t : datetime) : pystr :=
  date_part [] t ++ u "_" ++ time_part [] t.

(** [t.strftime("%Y-%m-%d %H:%M:%S")] *)
Definition strftime_line (t : datetime) : pystr :=
  date_part (u "-") t ++ u " " ++ time_part (u ":") t.

(* ===================================================================== *)
(** ** Data model *)
(* ===================================================================== *)

(** The values the class puts in a log entry's [details]: strings
    everywhere, and one integer ([total_steps]). *)
Inductive dval :=
| DStr (s : pystr)
| DInt (z : Z).

(** A Python dict, in insertion order. *)
Definition dict := list (pystr * dval).

(** [str(value)] as the text renderer's f-string prints it. *)
Definition str_dval (v : dval) : pystr :=
  match v with
  | DStr s => s
  | DInt z => str_Z z
  end.

(** One element of [session_logs].  The source keeps
    [datetime.now().isoformat()] under ["timestamp"]; the entry holds the
    instant itself and [isoformat] is applied where the string is read. *)
Record LogEntry := mkEntry {
  timestamp : datetime;
  event : pystr;
  step : nat;
  details : dict
}.

(** A step definition: the keys the class reads from the step dict. *)
Record Step := mkStep {
  title : pystr;
  description : pystr;
  status : pystr;
  status_level : pystr;
  help_text : pystr;
  common_issues : pystr
}.

(** What [console.print] and [console.clear] put on the terminal. *)
Inductive rendered :=
| Cleared
| Markup (text : pystr)
| ShortcutsPanel
| HeaderPanel
| StepPanel (step : Step) (number : nat)
| HelpPanel (step : Step) (number : nat)
| ActionTable
| ExportTable
| SummaryPanel (total : nat)
| Asked (prompt : pystr).

(** Exceptions the modelled code can raise. *)
Inductive exn :=
| UnicodeDecodeError (b : byte)
| OSError (msg : pystr)
| IndexError.

(** The fields of [self], and the world [self] acts on: the terminal
    output so far, the files written, and how much of each environment
    oracle has been consumed. *)
Record AutomationUI := mkUI {
  current_step : nat;
  session_logs : list LogEntry;
  session_start_time : datetime;
  is_running : bool;
  step_history : list pystr;
  console : list rendered;
  files : list (pystr * pystr);
  polls : nat;
  sleeps : nat;
  confirms : nat;
  prompts : nat;
  writes : nat;
  ticks : nat
}.

(** The environment of one process run.  Prompts always get an answer,
    and a signal is delivered while the process sleeps, which is where it
    spends its time between keystrokes. *)
Record Env := mkEnv {
  (** the i-th keyboard poll: [None] when [msvcrt.kbhit()] is false,
      [Some b] when [msvcrt.getch()] returns the byte [b] *)
  keyboard : nat -> option byte;
  (** whether SIGINT or SIGTERM is delivered during the i-th
      [time.sleep] *)
  signal_at : nat -> bool;
  (** the answer to the i-th [Confirm.ask] *)
  confirm_ask : nat -> bool;
  (** the answer to the i-th [Prompt.ask(choices=["text","json"])]:
      [true] for "json", [false] for "text" *)
  prompt_json : nat -> bool;
  (** the i-th attempt to create the directory and write the file:
      [None] when it succeeds, [Some msg] when it raises an error whose
      [str] is [msg] *)
  file_system : nat -> option pystr;
  (** the i-th reading of [datetime.datetime.now()] *)
  now : nat -> datetime
}.

(* ===================================================================== *)
(** ** JSON values and [json.dumps(..., indent=2)] *)
(* ===================================================================== *)

(** The values of Python's [json] module that the log uses (no floats). *)
Inductive jvalue :=
| JNull
| JBool (b : bool)
| JInt (z : Z)
| JStr (s : pystr)
| JList (items : list jvalue)
| JObj (members : list (pystr * jvalue)).

(** One lowercase hexadecimal digit. *)
Definition hex_digit (d : N) : N :=
  if N.ltb d 10 then (48 + d)%N else (87 + d)%N.

(** ['{0:04x}'.format(c)] for [c < 0x10000]. *)
Definition hex4 (c : N) : pystr :=
  [hex_digit (N.modulo (N.div c 4096) 16); hex_digit (N.modulo (N.div c 256) 16);
   hex_digit (N.modulo (N.div c 16) 16); hex_digit (N.modulo c 16)].

(** [json.encoder.py_encode_basestring_ascii], one code point: the short
    escapes, printable ASCII as it is, [\uXXXX] for the rest of the basic
    plane and a surrogate pair above it. *)
Definition escape_char (c : N) : pystr :=
  if N.eqb c 34 then [92; 34]%N
  else if N.eqb c 92 then [92; 92]%N
  else if N.eqb c 10 then [92; 110]%N
  else if N.eqb c 13 then [92; 114]%N
  else if N.eqb c 9 then [92; 116]%N
  else if N.eqb c 8 then [92; 98]%N
  else if N.eqb c 12 then [92; 102]%N
  else if N.leb 32 c && N.leb c 126 then [c]
  else if N.ltb c 65536 then 92%N :: 117%N :: hex4 c
  else
    let n := (c - 65536)%N in
    let s1 := N.lor 55296 (N.land (N.shiftr n 10) 1023) in
    let s2 := N.lor 56320 (N.land n 1023) in
    (92%N :: 117%N :: hex4 s1) ++ (92%N :: 117%N :: hex4 s2).

Definition encode_str (s : pystr) : pystr :=
  34%N :: flat_map escape_char s ++ [34%N].

(** A line break followed by the indentation of nesting level [lvl]. *)
Definition newline_indent (lvl : nat) : pystr :=
  10%N :: repeat 32%N (2 * lvl).

(** [json.encoder._make_iterencode] with [indent=2], item separator [","]
    and key separator [": "]; [lvl] is the current indent level. *)
Fixpoint encode (lvl : nat) (v : jvalue) : pystr :=
  match v with
  | JNull => u "null"
  | JBool true => u "true"
  | JBool false => u "false"
  | JInt z => str_Z z
  | JStr s => encode_str s
  | JList [] => u "[]"
  | JList (x :: xs) =>
      u "[" ++ newline_indent (S lvl) ++ encode (S lvl) x
      ++ (fix items (l : list jvalue) : pystr :=
            match l with
            | [] => []
            | y :: l' => u "," ++ newline_indent (S lvl) ++ encode (S lvl) y ++ items l'
            end) xs
      ++ newline_indent lvl ++ u "]"
  | JObj [] => u "{}"
  | JObj ((k, x) :: ms) =>
      u "{" ++ newline_indent (S lvl) ++ encode_str k ++ u ": " ++ encode (S lvl) x
      ++ (fix members (l : list (pystr * jvalue)) : pystr :=
            match l with
            | [] => []
            | (k', y) :: l' =>
                u "," ++ newline_indent (S lvl) ++ encode_str k' ++ u ": "
                ++ encode (S lvl) y ++ members l'
            end) ms
      ++ newline_indent lvl ++ u "}"
  end.

Definition json_dumps (v : jvalue) : pystr := encode 0 v.

Definition dval_json (v : dval) : jvalue :=
  match v with
  | DStr s => JStr s
  | DInt z => JInt z
  end.

Definition dict_json (d : dict) : jvalue :=
  JObj (map (fun kv => (fst kv, dval_json (snd kv))) d).

(** A log entry as the dict [log_event] builds. *)
Definition entry_json (e : LogEntry) : jvalue :=
  JObj [(u "timestamp", JStr (isoformat (timestamp e)));
        (u "event", JStr (event e));
        (u "step", JInt (Z.of_nat (step e)));
        (u "details", dict_json (details e))].

(* ===================================================================== *)
(** ** The monad of methods *)
(* ===================================================================== *)

(** How a call ends: it returns, it raises, or the fuel of a loop ran out
    while it was still running.  The state reached comes with each. *)
Inductive outcome (A : Type) :=
| Done (a : A) (s : AutomationUI)
| Raised (e : exn) (s : AutomationUI)
| Timeout (s : AutomationUI).

Arguments Raised {A} e s.
Arguments Timeout {A} s.

Definition state_of {A} (o : outcome A) : AutomationUI :=
  match o with
  | Done _ s => s
  | Raised _ s => s
  | Timeout s => s
  end.

Definition M (A : Type) := AutomationUI -> outcome A.

Definition ret {A} (a : A) : M A := fun s => Done a s.

Definition bind {A B} (m : M A) (k : A -> M B) : M B :=
  fun s =>
    match m s with
    | Done a s' => k a s'
    | Raised e s' => Raised e s'
    | Timeout s' => Timeout s'
    end.

Definition raise {A} (e : exn) : M A := fun s => Raised e s.
Definition out_of_fuel {A} : M A := fun s => Timeout s.
Definition get : M AutomationUI := fun s => Done s s.
Definition modify (f : AutomationUI -> AutomationUI) : M unit :=
  fun s => Done tt (f s).

Declare Scope py_scope.
Delimit Scope py_scope with py.
Notation "x <- m ;; k" := (bind m (fun x => k))
  (at level 61, m at next level, right associativity) : py_scope.
Notation "m ;; k" := (bind m (fun _ => k))
  (at level 61, right associativity) : py_scope.
Open Scope py_scope.

(** [try: body  except Exception as e: handler e] *)
Definition try_except {A} (body : M A) (handler : exn -> M A) : M A :=
  fun s =>
    match body s with
    | Raised e s' => handler e s'
    | r => r
    end.

(** [try: body  finally: fin] *)
Definition try_finally {A} (body : M A) (fin : M unit) : M A :=
  fun s =>
    match body s with
    | Done a s' => (fin ;; ret a) s'
    | Raised e s' => (fin ;; raise e) s'
    | Timeout s' => Timeout s'
    end.

(** Field updates. *)
Definition set_current_step (n : nat) (s : AutomationUI) : AutomationUI :=
  mkUI n (session_logs s) (session_start_time s) (is_running s)
       (step_history s) (console s) (files s) (polls s) (sleeps s)
       (confirms s) (prompts s) (writes s) (ticks s).

Definition set_session_logs (l : list LogEntry) (s : AutomationUI) : AutomationUI :=
  mkUI (current_step s) l (session_start_time s) (is_running s)
       (step_history s) (console s) (files s) (polls s) (sleeps s)
       (confirms s) (prompts s) (writes s) (ticks s).

Definition set_session_start_time (t : datetime) (s : AutomationUI) : AutomationUI :=
  mkUI (current_step s) (session_logs s) t (is_running s)
       (step_history s) (console s) (files s) (polls s) (sleeps s)
       (confirms s) (prompts s) (writes s) (ticks s).

Definition set_is_running (b : bool) (s : AutomationUI) : AutomationUI :=
  mkUI (current_step s) (session_logs s) (session_start_time s) b
       (step_history s) (console s) (files s) (polls s) (sleeps s)
       (confirms s) (prompts s) (writes s) (ticks s).

Definition set_step_history (h : list pystr) (s : AutomationUI) : AutomationUI :=
  mkUI (current_step s) (session_logs s) (session_start_time s) (is_running s)
       h (console s) (files s) (polls s) (sleeps s)
       (confirms s) (prompts s) (writes s) (ticks s).

Definition set_console (c : list rendered) (s : AutomationUI) : AutomationUI :=
  mkUI (current_step s) (session_logs s) (session_start_time s) (is_running s)
       (step_history s) c (files s) (polls s) (sleeps s)
       (confirms s) (prompts s) (writes s) (ticks s).

Definition set_files (f : list (pystr * pystr)) (s : AutomationUI) : AutomationUI :=
  mkUI (current_step s) (session_logs s) (session_start_time s) (is_running s)
       (step_history s) (console s) f (polls s) (sleeps s)
       (confirms s) (prompts s) (writes s) (ticks s).

Definition set_polls (n : nat) (s : AutomationUI) : AutomationUI :=
  mkUI (current_step s) (session_logs s) (session_start_time s) (is_running s)
       (step_history s) (console s) (files s) n (sleeps s)
       (confirms s) (prompts s) (writes s) (ticks s).

Definition set_sleeps (n : nat) (s : AutomationUI) : AutomationUI :=
  mkUI (current_step s) (session_logs s) (session_start_time s) (is_running s)
       (step_history s) (console s) (files s) (polls s) n
       (confirms s) (prompts s) (writes s) (ticks s).

Definition set_confirms (n : nat) (s : AutomationUI) : AutomationUI :=
  mkUI (current_step s) (session_logs s) (session_start_time s) (is_running s)
       (step_history s) (console s) (files s) (polls s) (sleeps s)
       n (prompts s) (writes s) (ticks s).

Definition set_prompts (n : nat) (s : AutomationUI) : AutomationUI :=
  mkUI (current_step s) (session_logs s) (session_start_time s) (is_running s)
       (step_history s) (console s) (files s) (polls s) (sleeps s)
       (confirms s) n (writes s) (ticks s).

Definition set_writes (n : nat) (s : AutomationUI) : AutomationUI :=
  mkUI (current_step s) (session_logs s) (session_start_time s) (is_running s)
       (step_history s) (console s) (files s) (polls s) (sleeps s)
       (confirms s) (prompts s) n (ticks s).

Definition set_ticks (n : nat) (s : AutomationUI) : AutomationUI :=
  mkUI (current_step s) (session_logs s) (session_start_time s) (is_running s)
       (step_history s) (console s) (files s) (polls s) (sleeps s)
       (confirms s) (prompts s) (writes s) n.

(** [d.get(key)] on a dict with string values. *)
Fixpoint dict_get {V} (key : pystr) (d : list (pystr * V)) : option V :=
  match d with
  | [] => None
  | (k, v) :: d' => if pystr_eqb key k then Some v else dict_get key d'
  end.

(** [details or {}] *)
Definition or_empty (details : option dict) : dict :=
  match details with
  | Some (kv :: d) => kv :: d
  | _ => []
  end.

(** Truthiness of an [Optional[str]]. *)
Definition truthy (a : option pystr) : bool :=
  match a with
  | Some (_ :: _) => true
  | _ => false
  end.

(** [bytes.decode('utf-8')] on the single byte [getch] returns: ASCII
    decodes to its code point, every other byte is not a complete UTF-8
    sequence. *)
Definition decode_utf8 (b : byte) : option N :=
  if N.ltb (Byte.to_N b) 128 then Some (Byte.to_N b) else None.

(** [str.lower] on ASCII. *)
Definition lower_char (c : N) : N :=
  if N.leb 65 c && N.leb c 90 then (c + 32)%N else c.

Definition lower (s : pystr) : pystr := map lower_char s.

(** [str(e)] *)
Definition str_exn (e : exn) : pystr :=
  match e with
  | UnicodeDecodeError b =>
      let n := Byte.to_N b in
      u "'utf-8' codec can't decode byte 0x"
      ++ [hex_digit (N.div n 16); hex_digit (N.modulo n 16)]
      ++ u " in position 0: "
      ++ (if N.leb 194 n && N.leb n 244 then u "unexpected end of data"
          else u "invalid start byte")
  | OSError msg => msg
  | IndexError => u "list index out of range"
  end.

(* ===================================================================== *)
(** ** The methods of [AutomationUI] *)
(* ===================================================================== *)

Section Methods.

Variable env : Env.

(** [datetime.datetime.now()] *)
Definition datetime_now : M datetime :=
  fun s => Done (now env (ticks s)) (set_ticks (S (ticks s)) s).

(** [self.console.print(...)], [self.console.clear()].  Rendering belongs
    to the presentation surface: the call is taken to return, and what
    was handed to it is recorded. *)
Definition console_print (r : rendered) : M unit :=
  modify (fun s => set_console (console s ++ [r]) s).

(** [Confirm.ask(prompt)] *)
Definition Confirm_ask (prompt : pystr) : M bool :=
  fun s =>
    Done (confirm_ask env (confirms s))
         (set_confirms (S (confirms s)) (set_console (console s ++ [Asked prompt]) s)).

(** [Prompt.ask(prompt, choices=["text", "json"], default="text")] *)
Definition Prompt_ask (prompt : pystr) : M pystr :=
  fun s =>
    Done (if prompt_json env (prompts s) then u "json" else u "text")
         (set_prompts (S (prompts s)) (set_console (console s ++ [Asked prompt]) s)).

(** [log_dir.mkdir(exist_ok=True)] and [open(log_path, 'w')], [f.write] *)
Definition write_file (path content : pystr) : M unit :=
  fun s =>
    let s' := set_writes (S (writes s)) s in
    match file_system env (writes s) with
    | None => Done tt (set_files (files s' ++ [(path, content)]) s')
    | Some msg => Raised (OSError msg) s'
    end.

Definition log_event (event : pystr) (details : option dict) : M unit :=
  t <- datetime_now ;;
  modify (fun s =>
    let log_entry := mkEntry t event (current_step s + 1) (or_empty details) in
    set_session_logs (session_logs s ++ [log_entry]) s).

Definition show_keyboard_shortcuts : M unit :=
  console_print ShortcutsPanel.

Definition actions : list (pystr * pystr) :=
  [([13%N], u "proceed");
   (u "h", u "help");
   (u "q", u "exit");
   (u "l", u "logs");
   (u "r", u "retry");
   (u "s", u "summary")].

Definition check_keyboard_input : M (option pystr) :=
  fun s =>
    let s' := set_polls (S (polls s)) s in
    match keyboard env (polls s) with
    | Some b =>
        match decode_utf8 b with
        | Some c => let key := lower [c] in Done (dict_get key actions) s'
        | None => Raised (UnicodeDecodeError b) s'
        end
    | None => Done None s'
    end.

(** The text before and after [{}] in each style template. *)
Definition styles : list (pystr * (pystr * pystr)) :=
  [(u "success", (u "[bold green]" ++ [10003%N] ++ u "[/] [green]", u "[/]"));
   (u "error", (u "[bold red]" ++ [10007%N] ++ u "[/] [red]", u "[/]"));
   (u "warning", (u "[bold yellow]![/] [yellow]", u "[/]"));
   (u "info", (u "[bold blue]i[/] [blue]", u "[/]"))].

Definition print_message (message level : pystr) : M unit :=
  let template :=
    match dict_get level styles with Some t => t | None => ([], []) end in
  let formatted_message := fst template ++ message ++ snd template in
  console_print (Markup formatted_message) ;;
  log_event (u "Message displayed")
            (Some [(u "message", DStr message); (u "level", DStr level)]).

Definition _format_logs_as_text (s : AutomationUI) : pystr :=
  let lines :=
    [u "Automation Session Log - Started at " ++ str_datetime (session_start_time s);
     repeat 61%N 80]
    ++ flat_map (fun entry =>
         let formatted_time := strftime_line (timestamp entry) in
         ([10%N] ++ u "[" ++ formatted_time ++ u "] Step "
            ++ str_N (N.of_nat (step entry)) ++ u ": " ++ event entry)
         :: map (fun kv => u "  " ++ fst kv ++ u ": " ++ str_dval (snd kv))
                (details entry))
       (session_logs s) in
  join [10%N] lines.

Definition _format_logs_as_json (s : AutomationUI) : pystr :=
  let log_data :=
    JObj [(u "session_start", JStr (isoformat (session_start_time s)));
          (u "logs", JList (map entry_json (session_logs s)))] in
  json_dumps log_data.

Definition export_logs (format : pystr) : M bool :=
  try_except
    (t <- datetime_now ;;
     let timestamp := strftime_file t in
     s <- get ;;
     let filename :=
       if pystr_eqb format (u "text")
       then u "automation_logs_" ++ timestamp ++ u ".txt"
       else u "automation_logs_" ++ timestamp ++ u ".json" in
     let content :=
       if pystr_eqb format (u "text")
       then _format_logs_as_text s
       else _format_logs_as_json s in
     let log_path := u "logs" ++ [92%N] ++ filename in
     write_file log_path content ;;
     print_message (u "Logs exported successfully to " ++ log_path) (u "success") ;;
     log_event (u "Logs exported") (Some [(u "filename", DStr log_path)]) ;;
     ret true)
    (fun e =>
       print_message (u "Error exporting logs: " ++ str_exn e) (u "error") ;;
       log_event (u "Log export failed") (Some [(u "error", DStr (str_exn e))]) ;;
       ret false).

Definition show_export_options : M unit :=
  console_print ExportTable ;;
  format_choice <- Prompt_ask (u "[bold cyan]Choose export format") ;;
  _ <- export_logs format_choice ;;
  ret tt.

Definition cleanup : M unit :=
  s <- get ;;
  (match session_logs s with
   | [] => ret tt
   | _ :: _ =>
       yes <- Confirm_ask (u "[cyan]Would you like to save the session logs before exiting?") ;;
       if yes then show_export_options else ret tt
   end) ;;
  print_message (u "Cleanup completed") (u "info").

Definition handle_interrupt : M unit :=
  modify (set_is_running false) ;;
  print_message ([10%N] ++ u "Gracefully shutting down...") (u "warning") ;;
  cleanup.

(** [time.sleep(...)].  The handlers installed by
    [setup_signal_handlers] run in the main thread; a signal that arrives
    while the process sleeps runs [handle_interrupt] there, and the sleep
    then returns to its caller. *)
Definition time_sleep : M unit :=
  s <- get ;;
  modify (set_sleeps (S (sleeps s))) ;;
  if signal_at env (sleeps s) then handle_interrupt else ret tt.

Definition display_header : M unit :=
  console_print HeaderPanel ;;
  log_event (u "Header displayed") None.

Definition create_step_panel (step : Step) : M rendered :=
  s <- get ;;
  ret (StepPanel step (current_step s + 1)).

Definition display_progress (description : pystr) : M unit :=
  log_event (u "Progress started") (Some [(u "description", DStr description)]) ;;
  time_sleep ;;
  log_event (u "Progress completed") (Some [(u "description", DStr description)]).

Definition display_help (step : Step) : M unit :=
  log_event (u "Help displayed") (Some [(u "step_title", DStr (title step))]) ;;
  s <- get ;;
  console_print (HelpPanel step (current_step s + 1)).

(** The [while True] of [show_action_menu]: one unit of fuel per poll. *)
Fixpoint wait_for_action (fuel : nat) : M pystr :=
  match fuel with
  | O => out_of_fuel
  | S fuel' =>
      action <- check_keyboard_input ;;
      if truthy action then
        let a := match action with Some a => a | None => [] end in
        log_event (u "Action selected") (Some [(u "action", DStr a)]) ;;
        ret a
      else
        time_sleep ;;
        wait_for_action fuel'
  end.

Definition show_action_menu (fuel : nat) : M pystr :=
  console_print ActionTable ;;
  wait_for_action fuel.

(** What [run_step] does with one selected action: [Some b] when it
    returns [b], [None] when its [while True] goes round again. *)
Definition dispatch (step : Step) (action : pystr) : M (option bool) :=
  if pystr_eqb action (u "proceed") then
    print_message (u "Step '" ++ title step ++ u "' completed") (u "success") ;;
    log_event (u "Step completed") (Some [(u "step_title", DStr (title step))]) ;;
    ret (Some true)
  else if pystr_eqb action (u "retry") then
    print_message (u "Retrying step...") (u "warning") ;;
    log_event (u "Step retry") (Some [(u "step_title", DStr (title step))]) ;;
    display_progress (u "Retrying operation...") ;;
    ret None
  else if pystr_eqb action (u "help") then
    display_help step ;;
    ret None
  else if pystr_eqb action (u "logs") then
    show_export_options ;;
    ret None
  else if pystr_eqb action (u "exit") then
    yes <- Confirm_ask (u "[bold red]Are you sure you want to exit?") ;;
    if yes then
      print_message (u "Session terminated by user") (u "warning") ;;
      log_event (u "Session terminated by user") None ;;
      ret (Some false)
    else ret None
  else ret None.

(** The [while True] of [run_step]. *)
Fixpoint action_loop (fuel : nat) (step : Step) : M bool :=
  match fuel with
  | O => out_of_fuel
  | S fuel' =>
      action <- show_action_menu fuel' ;;
      r <- dispatch step action ;;
      match r with
      | Some b => ret b
      | None => action_loop fuel' step
      end
  end.

Definition run_step (fuel : nat) (step : Step) : M bool :=
  console_print Cleared ;;
  display_header ;;
  log_event (u "Step started")
            (Some [(u "step_title", DStr (title step));
                   (u "step_status", DStr (status step))]) ;;
  panel <- create_step_panel step ;;
  console_print panel ;;
  display_progress (u "Running " ++ title step ++ u "...") ;;
  action_loop fuel step.

(** The [while self.current_step < len(steps) and self.is_running] of
    [run_automation]. *)
Fixpoint step_loop (fuel : nat) (steps : list Step) : M unit :=
  match fuel with
  | O => out_of_fuel
  | S fuel' =>
      s <- get ;;
      if Nat.ltb (current_step s) (List.length steps) && is_running s then
        match nth_error steps (current_step s) with
        | Some step =>
            ok <- run_step fuel' step ;;
            if ok then
              modify (fun s => set_current_step (current_step s + 1) s) ;;
              step_loop fuel' steps
            else ret tt
        | None => raise IndexError
        end
      else ret tt
  end.

Definition run_automation (fuel : nat) (steps : list Step) : M unit :=
  try_finally
    (try_except
       (show_keyboard_shortcuts ;;
        time_sleep ;;
        step_loop fuel steps ;;
        s <- get ;;
        if Nat.leb (List.length steps) (current_step s) then
          log_event (u "Automation completed")
                    (Some [(u "total_steps", DInt (Z.of_nat (List.length steps)))]) ;;
          print_message ([127881%N] ++ u " Automation completed successfully!")
                        (u "success") ;;
          console_print (SummaryPanel (List.length steps)) ;;
          yes <- Confirm_ask (u "[cyan]Would you like to export the session logs?") ;;
          if yes then show_export_options else ret tt
        else ret tt)
       (fun e =>
          print_message (u "Unexpected error: " ++ str_exn e) (u "error") ;;
          log_event (u "Error occurred") (Some [(u "error", DStr (str_exn e))])))
    cleanup.

(** [AutomationUI()] on a fresh process. *)
Definition __init__ : outcome unit :=
  (t <- datetime_now ;;
   modify (set_session_start_time t) ;;
   log_event (u "Session started") None)
    (mkUI 0 [] (mkDatetime 0 0 0 0 0 0 0) true [] [] [] 0 0 0 0 0 0).

End Methods.

(* ===================================================================== *)
(** ** [json.loads] *)
(* ===================================================================== *)

(** Python's decoder ([json.decoder], [json.scanner]), on the values of
    [jvalue].  A number with a fraction or an exponent is a float and has
    no [jvalue]: the decoder below gives no result on it. *)

Definition is_ws (c : N) : bool :=
  N.eqb c 32 || N.eqb c 9 || N.eqb c 10 || N.eqb c 13.

Fixpoint skip_ws (s : pystr) : pystr :=
  match s with
  | c :: r => if is_ws c then skip_ws r else s
  | [] => []
  end.

Definition is_digit (c : N) : bool := N.leb 48 c && N.leb c 57.

Definition hex_val (c : N) : option N :=
  if N.leb 48 c && N.leb c 57 then Some (c - 48)%N
  else if N.leb 97 c && N.leb c 102 then Some (c - 87)%N
  else if N.leb 65 c && N.leb c 70 then Some (c - 55)%N
  else None.

(** [_decode_uXXXX]: four hexadecimal digits, and what follows them. *)
Definition decode_uXXXX (s : pystr) : option (N * pystr) :=
  match s with
  | a :: b :: c :: d :: r =>
      match hex_val a, hex_val b, hex_val c, hex_val d with
      | Some x3, Some x2, Some x1, Some x0 =>
          Some ((((x3 * 16 + x2) * 16 + x1) * 16 + x0)%N, r)
      | _, _, _, _ => None
      end
  | _ => None
  end.

(** The [BACKSLASH] table. *)
Definition backslash (esc : N) : option N :=
  if N.eqb esc 34 then Some 34%N
  else if N.eqb esc 92 then Some 92%N
  else if N.eqb esc 47 then Some 47%N
  else if N.eqb esc 98 then Some 8%N
  else if N.eqb esc 102 then Some 12%N
  else if N.eqb esc 110 then Some 10%N
  else if N.eqb esc 114 then Some 13%N
  else if N.eqb esc 116 then Some 9%N
  else None.

Definition is_high_surrogate (c : N) : bool := N.leb 55296 c && N.leb c 56319.
Definition is_low_surrogate (c : N) : bool := N.leb 56320 c && N.leb c 57343.

Definition cons_char (c : N) (r : option (pystr * pystr)) : option (pystr * pystr) :=
  match r with
  | Some (s, rest) => Some (c :: s, rest)
  | None => None
  end.

(** [s[end:end + len(p)] == p], and the text after it. *)
Definition starts_with (p s : pystr) : option pystr :=
  if pystr_eqb (firstn (List.length p) s) p then Some (skipn (List.length p) s) else None.

(** [py_scanstring] in strict mode, from just after the opening quote:
    the decoded string and the text after the closing quote. *)
Fixpoint py_scanstring (fuel : nat) (s : pystr) : option (pystr * pystr) :=
  match fuel with
  | O => None
  | S fuel' =>
      match s with
      | [] => None
      | c :: r =>
          if N.eqb c 34 then Some ([], r)
          else if N.eqb c 92 then
            match r with
            | [] => None
            | esc :: r1 =>
                if N.eqb esc 117 then
                  match decode_uXXXX r1 with
                  | None => None
                  | Some (uni, r2) =>
                      match (if is_high_surrogate uni
                             then starts_with [92%N; 117%N] r2 else None) with
                      | Some r3 =>
                          match decode_uXXXX r3 with
                          | None => None
                          | Some (uni2, r4) =>
                              if is_low_surrogate uni2 then
                                cons_char
                                  (65536 + N.lor (N.shiftl (uni - 55296) 10)
                                                 (uni2 - 56320))%N
                                  (py_scanstring fuel' r4)
                              else cons_char uni (py_scanstring fuel' r2)
                          end
                      | None => cons_char uni (py_scanstring fuel' r2)
                      end
                  end
                else
                  match backslash esc with
                  | Some ch => cons_char ch (py_scanstring fuel' r1)
                  | None => None
                  end
            end
          else if N.ltb c 32 then None
          else cons_char c (py_scanstring fuel' r)
      end
  end.

Fixpoint span_digits (s : pystr) : pystr * pystr :=
  match s with
  | c :: r =>
      if is_digit c then let (ds, rest) := span_digits r in (c :: ds, rest)
      else ([], s)
  | [] => ([], [])
  end.

Fixpoint uint_of_chars (ds : pystr) : Decimal.uint :=
  match ds with
  | [] => Nil
  | c :: r =>
      let d := uint_of_chars r in
      match (c - 48)%N with
      | 0%N => D0 d | 1%N => D1 d | 2%N => D2 d | 3%N => D3 d | 4%N => D4 d
      | 5%N => D5 d | 6%N => D6 d | 7%N => D7 d | 8%N => D8 d | _ => D9 d
      end
  end.

(** The integer part of [NUMBER_RE] (an optional minus sign, then a
    single zero or a digit run that does not start with zero), read by
    [int]. *)
Definition match_number (s : pystr) : option (Z * pystr) :=
  let '(negative, s1) :=
    match s with
    | c :: r => if N.eqb c 45 then (true, r) else (false, s)
    | [] => (false, s)
    end in
  let digits :=
    match s1 with
    | c :: r =>
        if N.eqb c 48 then Some ([48%N], r)
        else if is_digit c then Some (span_digits s1)
        else None
    | [] => None
    end in
  match digits with
  | Some (ds, rest) =>
      let float_follows :=
        match rest with
        | c :: _ => N.eqb c 46 || N.eqb c 101 || N.eqb c 69
        | [] => false
        end in
      if float_follows then None
      else
        let n := Z.of_N (N.of_uint (uint_of_chars ds)) in
        Some (if negative then Z.opp n else n, rest)
  | None => None
  end.

(** [dict(pairs)]: a later pair with a key already present replaces its
    value in place. *)
Fixpoint dict_set {V} (key : pystr) (v : V) (d : list (pystr * V)) : list (pystr * V) :=
  match d with
  | [] => [(key, v)]
  | (k, w) :: d' =>
      if pystr_eqb key k then (k, v) :: d' else (k, w) :: dict_set key v d'
  end.

Definition dict_of_pairs {V} (pairs : list (pystr * V)) : list (pystr * V) :=
  fold_left (fun d kv => dict_set (fst kv) (snd kv) d) pairs [].

(** [scan_once], with [JSONObject] and [JSONArray]: each gives the value
    read and the text after it. *)
Fixpoint scan_once (fuel : nat) (s : pystr) : option (jvalue * pystr) :=
  match fuel with
  | O => None
  | S fuel' =>
      match s with
      | [] => None
      | c :: r =>
          if N.eqb c 34 then
            match py_scanstring (S (List.length r)) r with
            | Some (str, rest) => Some (JStr str, rest)
            | None => None
            end
          else if N.eqb c 123 then
            match skip_ws r with
            | c1 :: r1 =>
                if N.eqb c1 125 then Some (JObj [], r1)
                else if N.eqb c1 34 then JSONObject fuel' r1 []
                else None
            | [] => None
            end
          else if N.eqb c 91 then
            match skip_ws r with
            | c1 :: r1 =>
                if N.eqb c1 93 then Some (JList [], r1)
                else JSONArray fuel' (c1 :: r1) []
            | [] => None
            end
          else if N.eqb c 110 then
            match starts_with (u "null") s with
            | Some rest => Some (JNull, rest)
            | None => None
            end
          else if N.eqb c 116 then
            match starts_with (u "true") s with
            | Some rest => Some (JBool true, rest)
            | None => None
            end
          else if N.eqb c 102 then
            match starts_with (u "false") s with
            | Some rest => Some (JBool false, rest)
            | None => None
            end
          else
            match match_number s with
            | Some (z, rest) => Some (JInt z, rest)
            | None => None
            end
      end
  end

(** the members of an object, from just after the opening quote of a
    key; [pairs] are the members read so far *)
with JSONObject (fuel : nat) (s : pystr) (pairs : list (pystr * jvalue))
  : option (jvalue * pystr) :=
  match fuel with
  | O => None
  | S fuel' =>
      match py_scanstring (S (List.length s)) s with
      | None => None
      | Some (key, s1) =>
          match skip_ws s1 with
          | 58%N :: s2 =>
              match scan_once fuel' (skip_ws s2) with
              | None => None
              | Some (value, s3) =>
                  let pairs' := pairs ++ [(key, value)] in
                  match skip_ws s3 with
                  | c :: s4 =>
                      if N.eqb c 125 then Some (JObj (dict_of_pairs pairs'), s4)
                      else if N.eqb c 44 then
                        match skip_ws s4 with
                        | 34%N :: s5 => JSONObject fuel' s5 pairs'
                        | _ => None
                        end
                      else None
                  | [] => None
                  end
              end
          | _ => None
          end
      end
  end

(** the elements of an array; [values] are the elements read so far *)
with JSONArray (fuel : nat) (s : pystr) (values : list jvalue)
  : option (jvalue * pystr) :=
  match fuel with
  | O => None
  | S fuel' =>
      match scan_once fuel' s with
      | None => None
      | Some (value, s1) =>
          let values' := values ++ [value] in
          match skip_ws s1 with
          | c :: s2 =>
              if N.eqb c 93 then Some (JList values', s2)
              else if N.eqb c 44 then JSONArray fuel' (skip_ws s2) values'
              else None
          | [] => None
          end
      end
  end.

(** [json.loads(s)]: leading white space, one value, trailing white
    space, and nothing more. *)
Definition json_loads (s : pystr) : option jvalue :=
  match scan_once (S (List.length s)) (skip_ws s) with
  | Some (v, rest) =>
      match skip_ws rest with
      | [] => Some v
      | _ :: _ => None
      end
  | None => None
  end.

(* ===================================================================== *)
(** ** Vocabulary of the properties *)
(* ===================================================================== *)

(** The ["level"] recorded in an entry's details, if any. *)
Definition details_level (d : dict) : pystr :=
  match dict_get (u "level") d with
  | Some (DStr l) => l
  | _ => []
  end.

Definition level_of (e : LogEntry) : pystr := details_level (details e).

(** An entry of a kind that [allowed] permits, by event tag and level. *)
Definition permits (allowed : pystr -> pystr -> bool) (e : LogEntry) : Prop :=
  allowed (event e) (level_of e) = true.

(** [s'] differs from [s] in the log by appended entries only, all of
    permitted kinds. *)
Definition extends (allowed : pystr -> pystr -> bool) (s s' : AutomationUI) : Prop :=
  exists added,
    session_logs s' = session_logs s ++ added
    /\ Forall (permits allowed) added.

(** [extends], with the step index unchanged and every appended entry
    stamped with its step number. *)
Definition grows (allowed : pystr -> pystr -> bool) (s s' : AutomationUI) : Prop :=
  current_step s' = current_step s
  /\ exists added,
       session_logs s' = session_logs s ++ added
       /\ Forall (fun e => step e = current_step s + 1 /\ permits allowed e) added.

(** A call that, however it ends, has only done that. *)
Definition appends {A} (allowed : pystr -> pystr -> bool) (m : M A) : Prop :=
  forall s, grows allowed s (state_of (m s)).

Definition no_signals (env : Env) : Prop :=
  forall i, signal_at env i = false.

Definition any_entry (ev level : pystr) : bool := true.

(** The entries [show_export_options] and [cleanup] can write. *)
Definition export_or_message (ev level : pystr) : bool :=
  pystr_eqb ev (u "Message displayed")
  || pystr_eqb ev (u "Logs exported")
  || pystr_eqb ev (u "Log export failed").

(** Everything but [cleanup]'s closing message. *)
Definition not_cleanup (ev level : pystr) : bool :=
  negb (pystr_eqb ev (u "Message displayed") && pystr_eqb level (u "info")).

(** The entry [print_message] appends. *)
Definition message_entry (t : datetime) (n : nat) (message level : pystr) : LogEntry :=
  mkEntry t (u "Message displayed") n
          [(u "message", DStr message); (u "level", DStr level)].

(** What a keystroke selects according to the documented mapping:
    carriage return, then the five letters in either case; nothing for
    any other key. *)
Definition documented_action (c : N) : option pystr :=
  if N.eqb c 13 then Some (u "proceed")
  else if N.eqb c 104 || N.eqb c 72 then Some (u "help")
  else if N.eqb c 113 || N.eqb c 81 then Some (u "exit")
  else if N.eqb c 108 || N.eqb c 76 then Some (u "logs")
  else if N.eqb c 114 || N.eqb c 82 then Some (u "retry")
  else if N.eqb c 115 || N.eqb c 83 then Some (u "summary")
  else None.

(** A poll that returns [None]: no key is pending, or the key decodes
    and is not in the table. *)
Definition idle_poll (k : option byte) : bool :=
  match k with
  | Some b =>
      match decode_utf8 b with
      | Some c => negb (truthy (dict_get (lower [c]) actions))
      | None => false
      end
  | None => true
  end.

(** An entry written by [cleanup]'s closing message.  It is the only
    message of level ["info"] the class prints. *)
Definition is_cleanup_entry (e : LogEntry) : bool :=
  pystr_eqb (event e) (u "Message displayed")
  && pystr_eqb (level_of e) (u "info").

(** How many times [cleanup] has run to its end, read off the log. *)
Definition cleanup_runs (s : AutomationUI) : nat :=
  List.length (filter is_cleanup_entry (session_logs s)).

Definition events (s : AutomationUI) : list pystr :=
  map event (session_logs s).

(** The two steps of the script's own [__main__]. *)
Definition configuration_step : Step :=
  mkStep (u "Initialize System Configuration")
         (u "Setting up necessary configurations and checking prerequisites")
         (u "Ready to start") (u "info")
         (u "This step verifies your system meets all requirements")
         (u "- Missing dependencies" ++ [10%N] ++ u "- Insufficient permissions").

Definition preparation_step : Step :=
  mkStep (u "Data Preparation")
         (u "Preparing and validating input data")
         (u "Waiting for previous step") (u "pending")
         (u "Ensures all required data is present and correctly formatted")
         (u "- Invalid file format" ++ [10%N] ++ u "- Missing required fields").

Definition example_steps : list Step :=
  [configuration_step; preparation_step].

Definition noon : datetime := mkDatetime 2024 5 17 12 0 0 0.

(** An operator who presses an arrow key at the first action menu:
    [getch] returns the prefix byte 0xE0. *)
Definition arrow_key_env : Env :=
  mkEnv (fun _ => Some xe0) (fun _ => false) (fun _ => false)
        (fun _ => false) (fun _ => None) (fun _ => noon).

(** An operator who presses Enter at once at every menu and declines
    every export. *)
Definition enter_env : Env :=
  mkEnv (fun _ => Some x0d) (fun _ => false) (fun _ => false)
        (fun _ => false) (fun _ => None) (fun _ => noon).

(** Ctrl-C during the first wait of the first action menu (the third
    sleep of the run), then [q] confirmed; every export declined. *)
Definition interrupt_env : Env :=
  mkEnv (fun i => match i with 0 => None | _ => Some x71 end)
        (fun i => Nat.eqb i 2)
        (fun i => Nat.eqb i 1)
        (fun _ => false) (fun _ => None) (fun _ => noon).

(** [q] at the first menu, confirmed; export declined. *)
Definition quit_env : Env :=
  mkEnv (fun _ => Some x71) (fun _ => false) (fun i => Nat.eqb i 0)
        (fun _ => false) (fun _ => None) (fun _ => noon).

(** A file system that refuses every write. *)
Definition readonly_env : Env :=
  mkEnv (fun _ => Some x0d) (fun _ => false) (fun _ => true)
        (fun _ => false) (fun _ => Some (u "[Errno 13] Permission denied"))
        (fun _ => noon).

(** Two consecutive log entries: the step number recorded is the same,
    or it is one higher and the earlier entry is the ["Step completed"]
    that [run_step] writes just before it returns [True]. *)
Definition adjacent_ok (e1 e2 : LogEntry) : Prop :=
  step e2 = step e1
  \/ (step e2 = S (step e1) /\ event e1 = u "Step completed").

Fixpoint chain (l : list LogEntry) : Prop :=
  match l with
  | e1 :: l' =>
      match l' with
      | e2 :: _ => adjacent_ok e1 e2 /\ chain l'
      | [] => True
      end
  | [] => True
  end.

(** The entry that [log_event] would write now: it carries the current
    step index. *)
Definition probe (s : AutomationUI) : LogEntry :=
  mkEntry noon [] (current_step s + 1) [].

(** Every entry records the step index at the time it was written, so
    the log followed by a probe of the present is the history of the
    index.  The history is in order when each value is the one before or
    its successor, the latter only right after a step completed. *)
Definition index_history_ok (s : AutomationUI) : Prop :=
  chain (session_logs s ++ [probe s]).

(** A call that keeps the history in order and never lowers the index. *)
Definition keeps_history {A} (m : M A) : Prop :=
  forall s,
    index_history_ok s ->
    index_history_ok (state_of (m s))
    /\ current_step s <= current_step (state_of (m s)).

(** The log ends with the ["Step completed"] entry of the current step. *)
Definition just_completed (s : AutomationUI) : Prop :=
  exists l e,
    session_logs s = l ++ [e]
    /\ event e = u "Step completed"
    /\ step e = current_step s + 1.

(** A call that always returns: it neither raises nor needs fuel. *)
Definition returns {A} (m : M A) : Prop :=
  forall s, exists a s', m s = Done a s'.

(** How many entries of a list carry the event tag [ev]. *)
Definition count_event (ev : pystr) (l : list LogEntry) : nat :=
  List.length (filter (fun e => pystr_eqb (event e) ev) l).

(** The state in which [run_automation] reaches its [while] loop: the
    shortcuts are on the screen and the first pause is over. *)
Definition loop_entry (env : Env) (s : AutomationUI) : AutomationUI :=
  state_of ((show_keyboard_shortcuts ;; time_sleep env) s).

(** Everything but the entry that opens a step. *)
Definition not_step_started (ev level : pystr) : bool :=
  negb (pystr_eqb ev (u "Step started")).

(** From poll number [from] on, [k] polls yield nothing and the next one
    reads the Enter key: the first action selected is [proceed]. *)
Definition enter_after (env : Env) (from k : nat) : Prop :=
  (forall i, i < k -> idle_poll (keyboard env (from + i)) = true)
  /\ keyboard env (from + k) = Some x0d.

(** The events the two-step scenario is said to log, in order. *)
Definition claimed_step_events : list pystr :=
  [u "Step started"; u "Progress started"; u "Progress completed";
   u "Action selected"; u "Step completed"].

Definition claimed_log : list pystr :=
  claimed_step_events ++ claimed_step_events ++ [u "Automation completed"].

(** The events one step that is completed at once does log. *)
Definition step_events : list pystr :=
  [u "Header displayed"; u "Step started"; u "Progress started";
   u "Progress completed"; u "Action selected"; u "Message displayed";
   u "Step completed"].

(** The event tags the two-step scenario names. *)
Definition lifecycle (ev : pystr) : bool :=
  pystr_eqb ev (u "Step started")
  || pystr_eqb ev (u "Progress started")
  || pystr_eqb ev (u "Progress completed")
  || pystr_eqb ev (u "Action selected")
  || pystr_eqb ev (u "Step completed")
  || pystr_eqb ev (u "Automation completed").

(** An entry without its timestamp. *)
Definition content (e : LogEntry) : pystr * nat * dict :=
  (event e, step e, details e).

Definition contents (s : AutomationUI) : list (pystr * nat * dict) :=
  map content (session_logs s).

(** What one step that is completed at once logs, as step number [n]. *)
Definition step_contents (stp : Step) (n : nat) : list (pystr * nat * dict) :=
  [(u "Header displayed", n, []);
   (u "Step started", n,
    [(u "step_title", DStr (title stp)); (u "step_status", DStr (status stp))]);
   (u "Progress started", n,
    [(u "description", DStr (u "Running " ++ title stp ++ u "..."))]);
   (u "Progress completed", n,
    [(u "description", DStr (u "Running " ++ title stp ++ u "..."))]);
   (u "Action selected", n, [(u "action", DStr (u "proceed"))]);
   (u "Message displayed", n,
    [(u "message", DStr (u "Step '" ++ title stp ++ u "' completed"));
     (u "level", DStr (u "success"))]);
   (u "Step completed", n, [(u "step_title", DStr (title stp))])].

(** From [s], the call [m] returns, with a value and in a state that
    satisfy [Q]. *)
Definition post {A} (m : M A) (s : AutomationUI) (Q : A -> AutomationUI -> Prop) : Prop :=
  exists a s', m s = Done a s' /\ Q a s'.

(** What the completion of a two-step list logs before any export. *)
Definition completion_contents : list (pystr * nat * dict) :=
  [(u "Automation completed", 3, [(u "total_steps", DInt 2)]);
   (u "Message displayed", 3,
    [(u "message", DStr ([127881%N] ++ u " Automation completed successfully!"));
     (u "level", DStr (u "success"))])].

(** *** Strings and values that survive a JSON round trip *)

(** No high surrogate immediately followed by a low surrogate. *)
Fixpoint no_surrogate_pair (s : pystr) : bool :=
  match s with
  | c1 :: r =>
      match r with
      | c2 :: _ => negb (is_high_surrogate c1 && is_low_surrogate c2)
      | [] => true
      end && no_surrogate_pair r
  | [] => true
  end.

(** Code points of a Python [str], free of such pairs; all Unicode text
    is of this kind. *)
Definition plain_str (s : pystr) : bool :=
  forallb (fun c => N.ltb c 1114112) s && no_surrogate_pair s.

(** Each key once, as in a Python dict. *)
Fixpoint unique_keys {V} (d : list (pystr * V)) : bool :=
  match d with
  | [] => true
  | (k, _) :: r => negb (existsb (pystr_eqb k) (map fst r)) && unique_keys r
  end.

Fixpoint wf_json (v : jvalue) : bool :=
  match v with
  | JStr s => plain_str s
  | JList l => forallb wf_json l
  | JObj ms =>
      unique_keys ms
      && forallb (fun kv => plain_str (fst kv) && wf_json (snd kv)) ms
  | _ => true
  end.

Definition wf_dval (v : dval) : bool :=
  match v with
  | DStr s => plain_str s
  | DInt _ => true
  end.

Definition wf_dict (d : dict) : bool :=
  unique_keys d && forallb (fun kv => plain_str (fst kv) && wf_dval (snd kv)) d.

Definition wf_entry (e : LogEntry) : bool :=
  plain_str (event e) && wf_dict (details e).

(** One call of [log_event]: the event tag and the details passed. *)
Definition wf_call (c : pystr * option dict) : bool :=
  plain_str (fst c) && wf_dict (or_empty (snd c)).

(** The text after a value does not continue a number. *)
Definition delimited (rest : pystr) : bool :=
  match rest with
  | [] => true
  | c :: _ => negb (is_digit c || N.eqb c 46 || N.eqb c 101 || N.eqb c 69)
  end.

(** Fuel that [scan_once] needs to read a value back. *)
Fixpoint need (v : jvalue) : nat :=
  match v with
  | JList l =>
      S ((fix go (l : list jvalue) : nat :=
            match l with
            | [] => 0
            | x :: r => S (need x + go r)
            end) l)
  | JObj ms =>
      S ((fix go (l : list (pystr * jvalue)) : nat :=
            match l with
            | [] => 0
            | (_, x) :: r => S (need x + go r)
            end) ms)
  | _ => 1
  end.

(** *** Reading an exported log back *)

Definition dval_of_json (v : jvalue) : option dval :=
  match v with
  | JStr s => Some (DStr s)
  | JInt z => Some (DInt z)
  | _ => None
  end.

Fixpoint dict_of_json (ms : list (pystr * jvalue)) : option dict :=
  match ms with
  | [] => Some []
  | (k, v) :: r =>
      match dval_of_json v, dict_of_json r with
      | Some d, Some r' => Some ((k, d) :: r')
      | _, _ => None
      end
  end.

(** The event tag, step number and details of a parsed entry. *)
Definition entry_of_json (v : jvalue) : option (pystr * nat * dict) :=
  match v with
  | JObj ms =>
      match dict_get (u "event") ms, dict_get (u "step") ms,
            dict_get (u "details") ms with
      | Some (JStr ev), Some (JInt n), Some (JObj d) =>
          match dict_of_json d with
          | Some d' => Some (ev, Z.to_nat n, d')
          | None => None
          end
      | _, _, _ => None
      end
  | _ => None
  end.

Fixpoint entries_of_json (l : list jvalue) : option (list (pystr * nat * dict)) :=
  match l with
  | [] => Some []
  | v :: r =>
      match entry_of_json v, entries_of_json r with
      | Some e, Some r' => Some (e :: r')
      | _, _ => None
      end
  end.

(** [json.loads(text)["logs"]], entry by entry. *)
Definition read_back (text : pystr) : option (list (pystr * nat * dict)) :=
  match json_loads text with
  | Some (JObj top) =>
      match dict_get (u "logs") top with
      | Some (JList l) => entries_of_json l
      | _ => None
      end
  | _ => None
  end.

(** A sequence of [log_event] calls. *)
Fixpoint log_all (env : Env) (calls : list (pystr * option dict)) : M unit :=
  match calls with
  | [] => ret tt
  | c :: r => log_event env (fst c) (snd c) ;; log_all env r
  end.

(** The two-code-point string written ['\ud83d\ude00'] in Python: a high
    surrogate followed by a low one. *)
Definition surrogate_str : pystr := [55357%N; 56832%N].

(** The elements of an array after the first, as [encode] writes them. *)
Definition encode_more_items (lvl : nat) (xs : list jvalue) : pystr :=
  flat_map (fun y => u "," ++ newline_indent (S lvl) ++ encode (S lvl) y) xs.

(** The members of an object after the first. *)
Definition encode_more_members (lvl : nat) (ms : list (pystr * jvalue)) : pystr :=
  flat_map (fun kv => u "," ++ newline_indent (S lvl) ++ encode_str (fst kv)
                      ++ u ": " ++ encode (S lvl) (snd kv)) ms.

Definition need_items (l : list jvalue) : nat :=
  fold_right (fun x acc => S (need x + acc)) 0 l.

Definition need_members (l : list (pystr * jvalue)) : nat :=
  fold_right (fun kv acc => S (need (snd kv) + acc)) 0 l.

(** [scan_once] reads [v] back from what [encode] wrote, at any nesting
    level and before any text that does not continue a number. *)
Definition reads_back (v : jvalue) : Prop :=
  forall lvl rest fuel,
    wf_json v = true -> delimited rest = true -> need v <= fuel ->
    scan_once fuel (encode lvl v ++ rest) = Some (v, rest).

(** A call that, however it ends, has only appended permitted entries;
    the step index may have moved. *)
Definition stretches {A} (allowed : pystr -> pystr -> bool) (m : M A) : Prop :=
  forall s, extends allowed s (state_of (m s)).

(* ===================================================================== *)
(** ** Vocabulary of the whole-run properties *)
(* ===================================================================== *)

(** What the input and output calls and [log_event] do to the object:
    entries are appended to the log and files to the disk, and the step
    index, the running flag, the start time, the step history and the
    number of pauses taken stay as they are. *)
Definition quiet_change (s s' : AutomationUI) : Prop :=
  current_step s' = current_step s
  /\ is_running s' = is_running s
  /\ session_start_time s' = session_start_time s
  /\ step_history s' = step_history s
  /\ sleeps s' = sleeps s
  /\ (exists added, session_logs s' = session_logs s ++ added)
  /\ (exists written, files s' = files s ++ written).

(** A relation between the state before and after a call that holds
    across sequences of calls. *)
Class Composes (R : AutomationUI -> AutomationUI -> Prop) : Prop := {
  composes_refl : forall s, R s s;
  composes_trans : forall s1 s2 s3, R s1 s2 -> R s2 s3 -> R s1 s3
}.

(** One that holds across every quiet change as well. *)
Class Stable (R : AutomationUI -> AutomationUI -> Prop) : Prop := {
  stable_composes : Composes R;
  stable_quiet : forall s s', quiet_change s s' -> R s s'
}.

(** A call that, however it ends, leaves the state related to the one it
    started from. *)
Definition always {A} (R : AutomationUI -> AutomationUI -> Prop) (m : M A) : Prop :=
  forall s, R s (state_of (m s)).

(** What lasts through a run: the log and the files written only grow,
    the start time and the step history are never touched, and a running
    flag that is off stays off. *)
Definition lasting (s s' : AutomationUI) : Prop :=
  session_start_time s' = session_start_time s
  /\ step_history s' = step_history s
  /\ (is_running s = false -> is_running s' = false)
  /\ (exists added, session_logs s' = session_logs s ++ added)
  /\ (exists written, files s' = files s ++ written).

Definition same_flag (s s' : AutomationUI) : Prop :=
  is_running s' = is_running s.

Definition same_sleeps (s s' : AutomationUI) : Prop :=
  sleeps s' = sleeps s.

(** How many of the pauses numbered [from] to [to - 1] are interrupted
    by a signal. *)
Definition signals_between (env : Env) (from to : nat) : nat :=
  List.length (filter (signal_at env) (seq from (to - from))).

(** Between two states of a run, [cleanup] has finished once for each
    signal delivered. *)
Definition tally (env : Env) (s s' : AutomationUI) : Prop :=
  sleeps s <= sleeps s'
  /\ cleanup_runs s' = cleanup_runs s + signals_between env (sleeps s) (sleeps s').

(** The two blocks of [run_automation] that follow its loop: the report
    of a completed list, and the [except] clause. *)
Definition completion (env : Env) (steps : list Step) : M unit :=
  s <- get ;;
  if Nat.leb (List.length steps) (current_step s) then
    log_event env (u "Automation completed")
              (Some [(u "total_steps", DInt (Z.of_nat (List.length steps)))]) ;;
    print_message env ([127881%N] ++ u " Automation completed successfully!")
                  (u "success") ;;
    console_print (SummaryPanel (List.length steps)) ;;
    yes <- Confirm_ask env (u "[cyan]Would you like to export the session logs?") ;;
    if yes then show_export_options env else ret tt
  else ret tt.

Definition failure (env : Env) (e : exn) : M unit :=
  print_message env (u "Unexpected error: " ++ str_exn e) (u "error") ;;
  log_event env (u "Error occurred") (Some [(u "error", DStr (str_exn e))]).

(** The failure of a keyboard poll: the byte read last is not ASCII, so
    decoding it raised. *)
Definition bad_key (env : Env) (e : exn) (s : AutomationUI) : Prop :=
  exists b p,
    e = UnicodeDecodeError b
    /\ (128 <= Byte.to_N b)%N
    /\ polls s = S p
    /\ keyboard env p = Some b.

(** A call that raises nothing but what [P] describes. *)
Definition raises_only {A} (P : exn -> AutomationUI -> Prop) (m : M A) : Prop :=
  forall s e s', m s = Raised e s' -> P e s'.

(** What a list of steps logs when each is completed at once; the first
    of them is step number [from + 1]. *)
Fixpoint all_step_contents (steps : list Step) (from : nat) : list (pystr * nat * dict) :=
  match steps with
  | [] => []
  | stp :: rest => step_contents stp (from + 1) ++ all_step_contents rest (S from)
  end.

(** The operator's keystrokes for a list of steps: in each step in turn,
    the given number of polls yield nothing and the next one reads the
    Enter key. *)
Fixpoint enters (env : Env) (from : nat) (waits : list nat) : Prop :=
  match waits with
  | [] => True
  | k :: rest => enter_after env from k /\ enters env (from + S k) rest
  end.

(** Ctrl-C during the opening pause of the run. *)
Definition early_interrupt_env : Env :=
  mkEnv (fun _ => Some x0d) (fun i => Nat.eqb i 0) (fun _ => false)
        (fun _ => false) (fun _ => None) (fun _ => noon).

(** Everything but the entries that open or close a step. *)
Definition keeps_open (ev level : pystr) : bool :=
  negb (pystr_eqb ev (u "Step started")
        || pystr_eqb ev (u "Step completed")
        || pystr_eqb ev (u "Session terminated by user")).

(** An operator who presses [s] at every menu. *)
Definition summary_env : Env :=
  mkEnv (fun _ => Some x73) (fun _ => false) (fun _ => false)
        (fun _ => false) (fun _ => None) (fun _ => noon).

(** Two polls that find no key, then [L]; the file system accepts the
    write and the operator asks for JSON. *)
Definition export_env : Env :=
  mkEnv (fun i => match i with 0 | 1 => None | _ => Some x4c end)
        (fun _ => false) (fun _ => true)
        (fun _ => true) (fun _ => None) (fun _ => noon).

(** The event tags a run can log: every tag of the class but
    ["Session started"], which the constructor writes. *)
Definition run_event_tags : list pystr :=
  [u "Message displayed"; u "Logs exported"; u "Log export failed";
   u "Header displayed"; u "Step started"; u "Progress started";
   u "Progress completed"; u "Help displayed"; u "Action selected";
   u "Step completed"; u "Step retry"; u "Session terminated by user";
   u "Automation completed"; u "Error occurred"].

Definition run_events (ev level : pystr) : bool :=
  existsb (pystr_eqb ev) run_event_tags.

(* ===================================================================== *)
(** * Properties *)
(* ===================================================================== *)

(** ** Strings *)

Lemma pystr_eqb_eq (a b : pystr) : pystr_eqb a b = true <-> a = b.
Proof.
  revert b; induction a as [|x a IH]; intros [|y b]; simpl; split;
    try congruence; try reflexivity.
  - intros H. apply andb_true_iff in H as [Hx Hab].
    apply N.eqb_eq in Hx. apply IH in Hab. congruence.
  - intros H. injection H as -> ->. rewrite N.eqb_refl. simpl. now apply IH.
Qed.

Lemma pystr_eqb_refl (a : pystr) : pystr_eqb a a = true.
Proof. now apply pystr_eqb_eq. Qed.

(** ** [print_message] *)


(** ** [export_logs] *)



(** ** [check_keyboard_input] *)

(** On every key that decodes, the table agrees with the documented
    mapping, upper and lower case alike. *)
Lemma actions_documented (b : byte) (c : N) :
  decode_utf8 b = Some c -> dict_get (lower [c]) actions = documented_action c.
Proof.
  destruct b; vm_compute; intros H; try discriminate H;
    injection H as <-; reflexivity.
Qed.

Lemma check_keyboard_input_ascii (env : Env) (s : AutomationUI) (b : byte) (c : N) :
  keyboard env (polls s) = Some b ->
  decode_utf8 b = Some c ->
  check_keyboard_input env s = Done (documented_action c) (set_polls (S (polls s)) s).
Proof.
  intros Hk Hd. unfold check_keyboard_input. rewrite Hk, Hd.
  now rewrite (actions_documented b Hd).
Qed.

Lemma check_keyboard_input_no_key (env : Env) (s : AutomationUI) :
  keyboard env (polls s) = None ->
  check_keyboard_input env s = Done None (set_polls (S (polls s)) s).
Proof. intros Hk. unfold check_keyboard_input. now rewrite Hk. Qed.

(** C8, at the key the mapping misses.  The byte 0xE0, which [getch]
    returns first for an arrow or function key, is not in the table, and
    the poll does not answer [None] for it: decoding the byte raises
    [UnicodeDecodeError]. *)
Theorem check_keyboard_input_arrow_key_raises (s : AutomationUI) :
  check_keyboard_input arrow_key_env s
  = Raised (UnicodeDecodeError xe0) (set_polls (S (polls s)) s).
Proof. reflexivity. Qed.

(* ===================================================================== *)
(** ** What a call can do to the log and the step index *)
(* ===================================================================== *)

Lemma extends_refl allowed s : extends allowed s s.
Proof. exists []. now rewrite List.app_nil_r. Qed.

Lemma extends_trans allowed s1 s2 s3 :
  extends allowed s1 s2 -> extends allowed s2 s3 -> extends allowed s1 s3.
Proof.
  intros (a1 & E1 & F1) (a2 & E2 & F2). exists (a1 ++ a2). split.
  - now rewrite E2, E1, List.app_assoc.
  - apply Forall_app; auto.
Qed.

Lemma grows_refl allowed s : grows allowed s s.
Proof. split; [reflexivity|]. exists []. now rewrite List.app_nil_r. Qed.

Lemma grows_trans allowed s1 s2 s3 :
  grows allowed s1 s2 -> grows allowed s2 s3 -> grows allowed s1 s3.
Proof.
  intros (C1 & a1 & E1 & F1) (C2 & a2 & E2 & F2). split; [congruence|].
  exists (a1 ++ a2). split.
  - now rewrite E2, E1, List.app_assoc.
  - apply Forall_app; split; [exact F1|]. now rewrite C1 in F2.
Qed.

Lemma grows_extends allowed s s' : grows allowed s s' -> extends allowed s s'.
Proof.
  intros (_ & a & E & F). exists a. split; [exact E|].
  eapply Forall_impl; [|exact F]. now intros e [_ H].
Qed.

Lemma grows_same allowed s s' :
  current_step s' = current_step s ->
  session_logs s' = session_logs s ->
  grows allowed s s'.
Proof.
  intros C L. split; [exact C|]. exists []. now rewrite List.app_nil_r.
Qed.

Section Frame.

Variable env : Env.
Variable allowed : pystr -> pystr -> bool.

Lemma appends_ret {A} (a : A) : appends allowed (ret a).
Proof. intros s. apply grows_refl. Qed.

Lemma appends_get : appends allowed get.
Proof. intros s. apply grows_refl. Qed.

Lemma appends_raise {A} (e : exn) : appends allowed (@raise A e).
Proof. intros s. apply grows_refl. Qed.

Lemma appends_out_of_fuel {A} : appends allowed (@out_of_fuel A).
Proof. intros s. apply grows_refl. Qed.

Lemma appends_bind {A B} (m : M A) (k : A -> M B) :
  appends allowed m -> (forall a, appends allowed (k a)) ->
  appends allowed (bind m k).
Proof.
  intros Hm Hk s. unfold bind. specialize (Hm s).
  destruct (m s) as [a s'|e s'|s']; simpl in *; try exact Hm.
  eapply grows_trans; [exact Hm|apply Hk].
Qed.

Lemma appends_try_except {A} (body : M A) (handler : exn -> M A) :
  appends allowed body -> (forall e, appends allowed (handler e)) ->
  appends allowed (try_except body handler).
Proof.
  intros Hb Hh s. unfold try_except. specialize (Hb s).
  destruct (body s) as [a s'|e s'|s']; simpl in *; try exact Hb.
  eapply grows_trans; [exact Hb|apply Hh].
Qed.

Lemma appends_modify (f : AutomationUI -> AutomationUI) :
  (forall s, current_step (f s) = current_step s) ->
  (forall s, session_logs (f s) = session_logs s) ->
  appends allowed (modify f).
Proof. intros C L s. apply grows_same; [apply C|apply L]. Qed.

Lemma appends_datetime_now : appends allowed (datetime_now env).
Proof. intros s. now apply grows_same. Qed.

Lemma appends_console_print r : appends allowed (console_print r).
Proof. intros s. now apply grows_same. Qed.

Lemma appends_Confirm_ask p : appends allowed (Confirm_ask env p).
Proof. intros s. now apply grows_same. Qed.

Lemma appends_Prompt_ask p : appends allowed (Prompt_ask env p).
Proof. intros s. now apply grows_same. Qed.

Lemma appends_write_file path content : appends allowed (write_file env path content).
Proof.
  intros s. unfold write_file.
  destruct (file_system env (writes s)); now apply grows_same.
Qed.

Lemma appends_log_event ev d :
  allowed ev (details_level (or_empty d)) = true ->
  appends allowed (log_event env ev d).
Proof.
  intros Hal s. split; [reflexivity|]. eexists. split; [reflexivity|].
  constructor; [|constructor]. split; [reflexivity|exact Hal].
Qed.

Lemma appends_print_message message level :
  allowed (u "Message displayed") level = true ->
  appends allowed (print_message env message level).
Proof.
  intros Hal. unfold print_message. apply appends_bind.
  - apply appends_console_print.
  - intros _. apply appends_log_event. exact Hal.
Qed.

End Frame.

Create HintDb frame.

#[export] Hint Resolve appends_ret appends_get appends_raise appends_out_of_fuel
  appends_datetime_now appends_console_print appends_Confirm_ask
  appends_Prompt_ask appends_write_file appends_log_event
  appends_print_message : frame.

#[export] Hint Extern 1 (_ = true) => reflexivity : frame.

(** Walks through the body of a method: a call already known to append
    only permitted entries is closed by its lemma, a sequence is split, a
    test is examined in both branches. *)
Ltac frame :=
  repeat first
    [ solve [auto 3 with frame nocore]
    | apply appends_bind; [|intros ?]
    | apply appends_try_except; [|intros ?]
    | match goal with
      | |- appends _ (if ?b then _ else _) => destruct b
      | |- appends _ (match ?x with _ => _ end) => destruct x
      end
    | progress cbv zeta ].

Section Calls.

Variable env : Env.
Variable allowed : pystr -> pystr -> bool.

Hypothesis A_success : allowed (u "Message displayed") (u "success") = true.
Hypothesis A_error : allowed (u "Message displayed") (u "error") = true.
Hypothesis A_warning : allowed (u "Message displayed") (u "warning") = true.
Hypothesis A_exported : allowed (u "Logs exported") [] = true.
Hypothesis A_failed : allowed (u "Log export failed") [] = true.

Lemma appends_export_logs format : appends allowed (export_logs env format).
Proof. unfold export_logs. frame. Qed.

Hint Resolve appends_export_logs : frame.

Lemma appends_show_export_options : appends allowed (show_export_options env).
Proof. unfold show_export_options. frame. Qed.

Hint Resolve appends_show_export_options : frame.

(** With signals: the handler and the cleanup it calls. *)
Section Interruptible.

Hypothesis A_info : allowed (u "Message displayed") (u "info") = true.

Lemma appends_cleanup : appends allowed (cleanup env).
Proof. unfold cleanup. frame. Qed.

Hint Resolve appends_cleanup : frame.

Lemma appends_handle_interrupt : appends allowed (handle_interrupt env).
Proof.
  unfold handle_interrupt. frame.
  apply appends_modify; reflexivity.
Qed.

Hint Resolve appends_handle_interrupt : frame.

Lemma appends_time_sleep : appends allowed (time_sleep env).
Proof.
  unfold time_sleep. frame.
  apply appends_modify; reflexivity.
Qed.

End Interruptible.

(** Without signals a sleep does nothing to the log. *)
Lemma appends_time_sleep_quiet :
  no_signals env -> appends allowed (time_sleep env).
Proof.
  intros Hq s. unfold time_sleep, bind, get, modify. rewrite Hq.
  now apply grows_same.
Qed.

(** The calls downstream of a sleep, for either kind of sleep. *)
Hypothesis A_sleep : appends allowed (time_sleep env).

Hypothesis A_header : allowed (u "Header displayed") [] = true.
Hypothesis A_started : allowed (u "Step started") [] = true.
Hypothesis A_progress_started : allowed (u "Progress started") [] = true.
Hypothesis A_progress_completed : allowed (u "Progress completed") [] = true.
Hypothesis A_help : allowed (u "Help displayed") [] = true.
Hypothesis A_action : allowed (u "Action selected") [] = true.
Hypothesis A_completed : allowed (u "Step completed") [] = true.
Hypothesis A_retry : allowed (u "Step retry") [] = true.
Hypothesis A_terminated : allowed (u "Session terminated by user") [] = true.

Lemma appends_display_header : appends allowed (display_header env).
Proof. unfold display_header. frame. Qed.

Lemma appends_display_progress d : appends allowed (display_progress env d).
Proof. unfold display_progress. frame. Qed.

Lemma appends_display_help step : appends allowed (display_help env step).
Proof. unfold display_help. frame. Qed.

Hint Resolve appends_display_header appends_display_progress
  appends_display_help : frame.

Lemma appends_wait_for_action fuel : appends allowed (wait_for_action env fuel).
Proof.
  induction fuel as [|fuel IH]; simpl; [apply appends_out_of_fuel|].
  apply appends_bind.
  - intros s. unfold check_keyboard_input.
    destruct (keyboard env (polls s)) as [b|]; [destruct (decode_utf8 b)|];
      now apply grows_same.
  - intros action. frame.
Qed.

Hint Resolve appends_wait_for_action : frame.

Lemma appends_show_action_menu fuel : appends allowed (show_action_menu env fuel).
Proof. unfold show_action_menu. frame. Qed.

Hint Resolve appends_show_action_menu : frame.

Lemma appends_dispatch step action : appends allowed (dispatch env step action).
Proof. unfold dispatch. frame. Qed.

Hint Resolve appends_dispatch : frame.

Lemma appends_action_loop fuel step : appends allowed (action_loop env fuel step).
Proof.
  induction fuel as [|fuel IH]; simpl; [apply appends_out_of_fuel|]. frame.
Qed.

Hint Resolve appends_action_loop : frame.

Lemma appends_run_step fuel step : appends allowed (run_step env fuel step).
Proof. unfold run_step, create_step_panel. frame. Qed.

End Calls.

(** The calls of a run write entries of some kind and leave the index
    alone; only the loop of [run_automation] moves it. *)
Lemma any_time_sleep env : appends any_entry (time_sleep env).
Proof. apply appends_time_sleep; reflexivity. Qed.

Lemma any_cleanup env : appends any_entry (cleanup env).
Proof. apply appends_cleanup; reflexivity. Qed.

Lemma any_run_step env fuel step : appends any_entry (run_step env fuel step).
Proof. apply appends_run_step; try reflexivity. apply any_time_sleep. Qed.

Lemma any_show_export_options env : appends any_entry (show_export_options env).
Proof. apply appends_show_export_options; reflexivity. Qed.

Lemma run_step_keeps_index env fuel step s :
  current_step (state_of (run_step env fuel step s)) = current_step s.
Proof. apply (any_run_step env fuel step s). Qed.

(** ** Inverting a sequence that returned *)

Lemma bind_Done {A B} (m : M A) (k : A -> M B) s b s' :
  bind m k s = Done b s' ->
  exists a s1, m s = Done a s1 /\ k a s1 = Done b s'.
Proof.
  unfold bind. destruct (m s) as [a s1|e s1|s1]; try discriminate.
  intros H. now exists a, s1.
Qed.

Ltac bind_inv H :=
  repeat match type of H with
  | bind _ _ _ = Done _ _ =>
      let a := fresh "a" in
      let s1 := fresh "s" in
      let H1 := fresh "H" in
      apply bind_Done in H as (a & s1 & H1 & H)
  end.

(** ** The history of the step index *)

Lemma chain_split l1 e l2 :
  chain (l1 ++ e :: l2) <-> chain (l1 ++ [e]) /\ chain (e :: l2).
Proof.
  induction l1 as [|a l1 IH]; simpl.
  - tauto.
  - destruct l1 as [|b l1]; simpl in *.
    + tauto.
    + rewrite IH. tauto.
Qed.

Lemma chain_last l e e' :
  step e' = step e -> chain (l ++ [e]) -> chain (l ++ [e']).
Proof.
  intros Hs. induction l as [|a l IH]; simpl; [trivial|].
  destruct l as [|b l]; simpl in *.
  - unfold adjacent_ok. rewrite Hs. tauto.
  - tauto.
Qed.

Lemma chain_level e l :
  Forall (fun e' => step e' = step e) l -> chain (e :: l).
Proof.
  revert e. induction l as [|a l IH]; intros e Hl; simpl; [trivial|].
  inversion Hl as [|? ? Ha Hl']; subst. split.
  - now left.
  - apply IH. eapply Forall_impl; [|exact Hl']. simpl. intros; congruence.
Qed.

Lemma grows_keeps_history s s' :
  grows any_entry s s' -> index_history_ok s -> index_history_ok s'.
Proof.
  intros (C & added & E & F) H. unfold index_history_ok in *.
  rewrite E, <- List.app_assoc.
  assert (Hp : step (probe s') = step (probe s)) by (simpl; now rewrite C).
  destruct added as [|a added]; simpl.
  - eapply chain_last; [exact Hp|exact H].
  - inversion F as [|? ? [Ha _] F']; subst. apply chain_split. split.
    + eapply chain_last; [|exact H]. exact Ha.
    + apply chain_level. apply Forall_app. split.
      * eapply Forall_impl; [|exact F']. simpl. intros e [He _]. congruence.
      * constructor; [|constructor]. simpl. rewrite Ha, C. reflexivity.
Qed.

Lemma appends_keeps_history {A} (m : M A) :
  appends any_entry m -> keeps_history m.
Proof.
  intros Hm s H. split.
  - eapply grows_keeps_history; [apply Hm|exact H].
  - destruct (Hm s) as [C _]. rewrite C. apply Nat.le_refl.
Qed.

Lemma keeps_history_bind {A B} (m : M A) (k : A -> M B) :
  keeps_history m -> (forall a, keeps_history (k a)) -> keeps_history (bind m k).
Proof.
  intros Hm Hk s H. unfold bind. specialize (Hm s H).
  destruct (m s) as [a s1|e s1|s1]; simpl in *; try exact Hm.
  destruct Hm as [H1 L1]. destruct (Hk a s1 H1) as [H2 L2].
  split; [exact H2|]. eapply Nat.le_trans; eassumption.
Qed.

Lemma keeps_history_try_except {A} (body : M A) (handler : exn -> M A) :
  keeps_history body -> (forall e, keeps_history (handler e)) ->
  keeps_history (try_except body handler).
Proof.
  intros Hb Hh s H. unfold try_except. specialize (Hb s H).
  destruct (body s) as [a s1|e s1|s1]; simpl in *; try exact Hb.
  destruct Hb as [H1 L1]. destruct (Hh e s1 H1) as [H2 L2].
  split; [exact H2|]. eapply Nat.le_trans; eassumption.
Qed.

Lemma keeps_history_try_finally {A} (body : M A) (fin : M unit) :
  keeps_history body -> keeps_history fin ->
  keeps_history (try_finally body fin).
Proof.
  intros Hb Hf s H. unfold try_finally. specialize (Hb s H).
  destruct (body s) as [a s1|e s1|s1]; simpl in *; try exact Hb;
    destruct Hb as [H1 L1]; destruct (Hf s1 H1) as [H2 L2];
    unfold bind; destruct (fin s1); simpl in *;
    (split; [exact H2|eapply Nat.le_trans; eassumption]).
Qed.

Lemma dispatch_true env step action s s' :
  dispatch env step action s = Done (Some true) s' -> just_completed s'.
Proof.
  unfold dispatch.
  destruct (pystr_eqb action (u "proceed")).
  { intros H. cbn in H. injection H as <-.
    eexists _, _. cbn. split; [reflexivity|]. split; reflexivity. }
  destruct (pystr_eqb action (u "retry")).
  { intros H. bind_inv H. discriminate H. }
  destruct (pystr_eqb action (u "help")).
  { intros H. bind_inv H. discriminate H. }
  destruct (pystr_eqb action (u "logs")).
  { intros H. bind_inv H. discriminate H. }
  destruct (pystr_eqb action (u "exit")).
  { intros H. bind_inv H. destruct a; [bind_inv H|]; discriminate H. }
  intros H. discriminate H.
Qed.

Lemma action_loop_true env fuel step s s' :
  action_loop env fuel step s = Done true s' -> just_completed s'.
Proof.
  revert s. induction fuel as [|fuel IH]; intros s H; simpl in H.
  - discriminate H.
  - bind_inv H. destruct a0 as [[|]|].
    + injection H as <-. eapply dispatch_true; eassumption.
    + discriminate H.
    + eapply IH; eassumption.
Qed.

Lemma run_step_true env fuel step s s' :
  run_step env fuel step s = Done true s' -> just_completed s'.
Proof.
  unfold run_step. intros H. bind_inv H.
  eapply action_loop_true; eassumption.
Qed.

Lemma increment_keeps_history s :
  index_history_ok s -> just_completed s ->
  index_history_ok (set_current_step (current_step s + 1) s).
Proof.
  unfold index_history_ok. intros H (l & e & El & Ev & Es). simpl.
  rewrite El in *. rewrite <- List.app_assoc in *. simpl in *.
  apply chain_split in H as [Hl _]. apply chain_split. split; [exact Hl|].
  simpl. split; [|trivial]. right. simpl. split; [|exact Ev].
  rewrite Es. now rewrite Nat.add_1_r.
Qed.

Lemma step_loop_S env fuel steps s :
  step_loop env (S fuel) steps s =
  if Nat.ltb (current_step s) (List.length steps) && is_running s then
    match nth_error steps (current_step s) with
    | Some step =>
        match run_step env fuel step s with
        | Done true s1 =>
            step_loop env fuel steps (set_current_step (current_step s1 + 1) s1)
        | Done false s1 => Done tt s1
        | Raised e s1 => Raised e s1
        | Timeout s1 => Timeout s1
        end
    | None => Raised IndexError s
    end
  else Done tt s.
Proof.
  simpl. unfold bind, get.
  destruct (Nat.ltb (current_step s) (List.length steps) && is_running s);
    [|reflexivity].
  destruct (nth_error steps (current_step s)) as [step|]; [|reflexivity].
  destruct (run_step env fuel step s) as [[|] s1|e s1|s1]; reflexivity.
Qed.

Lemma step_loop_keeps_history env fuel steps :
  keeps_history (step_loop env fuel steps).
Proof.
  induction fuel as [|fuel IH]; intros s H.
  - split; [exact H|apply Nat.le_refl].
  - rewrite step_loop_S.
    destruct (Nat.ltb (current_step s) (List.length steps) && is_running s);
      [|split; [exact H|apply Nat.le_refl]].
    destruct (nth_error steps (current_step s)) as [step|];
      [|split; [exact H|apply Nat.le_refl]].
    pose proof (any_run_step env fuel step s) as G.
    pose proof (@run_step_true env fuel step s) as T.
    destruct (run_step env fuel step s) as [ok s1|e s1|s1]; simpl in G.
    + pose proof (grows_keeps_history G H) as H1.
      destruct G as [C _]. destruct ok.
      * specialize (T s1 eq_refl).
        pose proof (increment_keeps_history H1 T) as H2.
        destruct (IH _ H2) as [H3 L3]. split; [exact H3|].
        simpl in L3. rewrite <- C. eapply Nat.le_trans; [|exact L3].
        apply Nat.le_add_r.
      * simpl. split; [exact H1|]. rewrite C. apply Nat.le_refl.
    + simpl. split; [eapply grows_keeps_history; eassumption|].
      destruct G as [C _]. rewrite C. apply Nat.le_refl.
    + simpl. split; [eapply grows_keeps_history; eassumption|].
      destruct G as [C _]. rewrite C. apply Nat.le_refl.
Qed.

Lemma run_automation_keeps_history env fuel steps :
  keeps_history (run_automation env fuel steps).
Proof.
  unfold run_automation.
  apply keeps_history_try_finally;
    [|apply appends_keeps_history, any_cleanup].
  apply keeps_history_try_except.
  - apply keeps_history_bind;
      [apply appends_keeps_history; unfold show_keyboard_shortcuts; frame|].
    intros _. apply keeps_history_bind;
      [apply appends_keeps_history, any_time_sleep|].
    intros _. apply keeps_history_bind; [apply step_loop_keeps_history|].
    intros _. apply appends_keeps_history.
    pose proof (any_show_export_options env). frame.
  - intros e. apply appends_keeps_history. frame.
Qed.

(** C2. At every point a run of [run_automation] can reach, on any step
    list and with any fuel, the history of the step index is in order:
    from one log entry to the next, and from the last entry to the
    present, the index is unchanged or exactly one higher, and it is one
    higher only right after the ["Step completed"] entry that [run_step]
    writes as it returns [True].  The index never ends below where it
    started, and [run_step] itself never changes it. *)
Theorem step_index_moves_by_one_after_completion
    (env : Env) (fuel : nat) (steps : list Step) (s : AutomationUI)
    (Hs : index_history_ok s) :
  index_history_ok (state_of (run_automation env fuel steps s))
  /\ current_step s <= current_step (state_of (run_automation env fuel steps s))
  /\ (forall fuel' stp s0,
        current_step (state_of (run_step env fuel' stp s0)) = current_step s0).
Proof.
  destruct (run_automation_keeps_history env fuel steps s Hs) as [H L].
  split; [exact H|]. split; [exact L|].
  intros fuel' stp s0. apply run_step_keeps_index.
Qed.

Lemma step_index_moves_by_one_after_completion_witness :
  index_history_ok (state_of (__init__ enter_env))
  /\ index_history_ok
       (state_of (run_automation enter_env 5 example_steps
                                 (state_of (__init__ enter_env))))
  /\ 0 <= current_step
            (state_of (run_automation enter_env 5 example_steps
                                      (state_of (__init__ enter_env)))).
Proof.
  assert (H0 : index_history_ok (state_of (__init__ enter_env))).
  { unfold index_history_ok. simpl. split; [|exact I]. now left. }
  split; [exact H0|].
  destruct (@step_index_moves_by_one_after_completion
              enter_env 5 example_steps _ H0) as (H & L & _).
  split; [exact H|exact L].
Defined.

(** ** Calls that always return *)

Lemma returns_ret {A} (a : A) : returns (ret a).
Proof. intros s. now exists a, s. Qed.

Lemma returns_get : returns get.
Proof. intros s. now exists s, s. Qed.

Lemma returns_modify f : returns (modify f).
Proof. intros s. now exists tt, (f s). Qed.

Lemma returns_bind {A B} (m : M A) (k : A -> M B) :
  returns m -> (forall a, returns (k a)) -> returns (bind m k).
Proof.
  intros Hm Hk s. destruct (Hm s) as (a & s1 & E). unfold bind. rewrite E.
  apply Hk.
Qed.

Lemma returns_try_except {A} (body : M A) (handler : exn -> M A) :
  (forall s, exists s', (exists a, body s = Done a s') \/ (exists e, body s = Raised e s')) ->
  (forall e, returns (handler e)) ->
  returns (try_except body handler).
Proof.
  intros Hb Hh s. unfold try_except.
  destruct (Hb s) as (s' & [(a & E)|(e & E)]); rewrite E.
  - now exists a, s'.
  - apply Hh.
Qed.

Lemma returns_datetime_now env : returns (datetime_now env).
Proof. intros s. eexists _, _. reflexivity. Qed.

Lemma returns_console_print r : returns (console_print r).
Proof. apply returns_modify. Qed.

Lemma returns_Confirm_ask env p : returns (Confirm_ask env p).
Proof. intros s. eexists _, _. reflexivity. Qed.

Lemma returns_Prompt_ask env p : returns (Prompt_ask env p).
Proof. intros s. eexists _, _. reflexivity. Qed.

Lemma returns_log_event env ev d : returns (log_event env ev d).
Proof. intros s. eexists _, _. reflexivity. Qed.

Lemma returns_print_message env m l : returns (print_message env m l).
Proof. intros s. eexists _, _. reflexivity. Qed.

Create HintDb total.

#[export] Hint Resolve returns_ret returns_get returns_modify
  returns_datetime_now returns_console_print returns_Confirm_ask
  returns_Prompt_ask returns_log_event returns_print_message : total.

Ltac total :=
  repeat first
    [ solve [auto 2 with total nocore]
    | apply returns_bind; [|intros ?]
    | match goal with
      | |- returns (if ?b then _ else _) => destruct b
      | |- returns (match ?x with _ => _ end) => destruct x
      end
    | progress cbv zeta ].

Lemma returns_export_logs env format : returns (export_logs env format).
Proof.
  unfold export_logs. apply returns_try_except; [|intros e; total].
  intros s. unfold bind, datetime_now, get, write_file. cbn.
  destruct (file_system env (writes s)) as [msg|]; cbn.
  - eexists. right. eexists. reflexivity.
  - eexists. left. eexists. reflexivity.
Qed.

#[export] Hint Resolve returns_export_logs : total.

Lemma returns_show_export_options env : returns (show_export_options env).
Proof. unfold show_export_options. total. Qed.

#[export] Hint Resolve returns_show_export_options : total.

Lemma returns_cleanup env : returns (cleanup env).
Proof. unfold cleanup. total. Qed.

#[export] Hint Resolve returns_cleanup : total.

Lemma returns_handle_interrupt env : returns (handle_interrupt env).
Proof. unfold handle_interrupt. total. Qed.

#[export] Hint Resolve returns_handle_interrupt : total.

Lemma returns_time_sleep env : returns (time_sleep env).
Proof. unfold time_sleep. total. Qed.

#[export] Hint Resolve returns_time_sleep : total.

Lemma returns_display_progress env d : returns (display_progress env d).
Proof. unfold display_progress. total. Qed.

#[export] Hint Resolve returns_display_progress : total.

Lemma returns_dispatch env step action : returns (dispatch env step action).
Proof. unfold dispatch, display_help. total. Qed.

(** The state after the two calls every method is built from. *)
Lemma log_event_run env ev d s :
  log_event env ev d s =
  Done tt (set_session_logs
             (session_logs s
              ++ [mkEntry (now env (ticks s)) ev (current_step s + 1) (or_empty d)])
             (set_ticks (S (ticks s)) s)).
Proof. reflexivity. Qed.

Lemma print_message_logs env message level s s' :
  print_message env message level s = Done tt s' ->
  session_logs s' =
    session_logs s
    ++ [message_entry (now env (ticks s)) (current_step s + 1) message level]
  /\ current_step s' = current_step s
  /\ is_running s' = is_running s
  /\ sleeps s' = sleeps s
  /\ polls s' = polls s
  /\ confirms s' = confirms s
  /\ ticks s' = S (ticks s).
Proof. intros H. injection H as <-. cbn. repeat split; reflexivity. Qed.

Lemma log_event_logs env ev d s s' :
  log_event env ev d s = Done tt s' ->
  session_logs s' =
    session_logs s
    ++ [mkEntry (now env (ticks s)) ev (current_step s + 1) (or_empty d)]
  /\ current_step s' = current_step s
  /\ is_running s' = is_running s
  /\ sleeps s' = sleeps s
  /\ polls s' = polls s
  /\ confirms s' = confirms s
  /\ ticks s' = S (ticks s).
Proof. intros H. injection H as <-. cbn. repeat split; reflexivity. Qed.

(** A sleep returns; it writes nothing unless a signal arrives, and then
    only what the handler's messages and exports write. *)
Lemma time_sleep_logs env s :
  exists s' during,
    time_sleep env s = Done tt s'
    /\ session_logs s' = session_logs s ++ during
    /\ Forall (fun e => step e = current_step s + 1
                        /\ permits export_or_message e) during
    /\ (signal_at env (sleeps s) = false -> during = [])
    /\ current_step s' = current_step s.
Proof.
  destruct (returns_time_sleep env s) as ([] & s' & E).
  assert (G : grows export_or_message s s').
  { pose proof (@appends_time_sleep env export_or_message
                  eq_refl eq_refl eq_refl eq_refl eq_refl eq_refl s) as G.
    now rewrite E in G. }
  destruct G as (C & during & L & F).
  exists s', during. repeat split; try assumption.
  intros Hq. unfold time_sleep, bind, get, modify in E. rewrite Hq in E.
  injection E as <-. simpl in L.
  apply (f_equal (@List.length _)) in L. rewrite length_app in L.
  destruct during; [reflexivity|simpl in L; lia].
Qed.

(** ** [retry] *)

Lemma count_event_app ev l1 l2 :
  count_event ev (l1 ++ l2) = count_event ev l1 + count_event ev l2.
Proof. unfold count_event. now rewrite filter_app, length_app. Qed.

Lemma count_event_handler ev l :
  export_or_message ev [] = false ->
  Forall (fun e => step e = 0 + step e /\ permits export_or_message e) l ->
  count_event ev l = 0.
Proof.
  intros Hev F. unfold count_event.
  induction l as [|e l IH]; [reflexivity|].
  inversion F as [|? ? [_ Ha] F']; subst. simpl.
  destruct (pystr_eqb (event e) ev) eqn:E; [|now apply IH].
  apply pystr_eqb_eq in E. subst ev. unfold permits, export_or_message in *.
  congruence.
Qed.

(** C7. Dispatching [retry] returns to the action loop ([None]: no
    result for [run_step] yet).  It appends the warning message, the
    ["Step retry"] entry and exactly one ["Progress started"] /
    ["Progress completed"] pair, and no ["Step started"]; between the pair
    lies only what a signal handler wrote, if a signal arrived during the
    pause, and nothing otherwise.  The step index is not changed. *)
Theorem retry_logs_one_progress_pair (env : Env) (stp : Step) (s : AutomationUI) :
  exists s' during t,
    dispatch env stp (u "retry") s = Done None s'
    /\ session_logs s' =
         session_logs s
         ++ [message_entry (now env (ticks s)) (current_step s + 1)
                           (u "Retrying step...") (u "warning");
             mkEntry (now env (S (ticks s))) (u "Step retry") (current_step s + 1)
                     [(u "step_title", DStr (title stp))];
             mkEntry (now env (S (S (ticks s)))) (u "Progress started")
                     (current_step s + 1)
                     [(u "description", DStr (u "Retrying operation..."))]]
         ++ during
         ++ [mkEntry t (u "Progress completed") (current_step s + 1)
                     [(u "description", DStr (u "Retrying operation..."))]]
    /\ (signal_at env (sleeps s) = false -> during = [])
    /\ count_event (u "Progress started") during = 0
    /\ count_event (u "Progress completed") during = 0
    /\ count_event (u "Step started") during = 0
    /\ current_step s' = current_step s.
Proof.
  destruct (returns_dispatch env stp (u "retry") s) as (r & s' & E).
  pose proof E as E0. unfold dispatch in E.
  change (pystr_eqb (u "retry") (u "proceed")) with false in E.
  change (pystr_eqb (u "retry") (u "retry")) with true in E.
  cbv iota in E. bind_inv E. injection E as <- <-.
  unfold display_progress in H1. bind_inv H1.
  destruct a, a0, a2, a3, a1.
  apply print_message_logs in H as (L1 & C1 & _ & S1 & _ & _ & T1).
  apply log_event_logs in H0 as (L2 & C2 & _ & S2 & _ & _ & T2).
  apply log_event_logs in H2 as (L3 & C3 & _ & S3 & _).
  destruct (time_sleep_logs env s3) as (s4' & during & Esl & L4 & F & Q & C4).
  rewrite Esl in H3. injection H3 as ->.
  apply log_event_logs in H1 as (L5 & C5 & _).
  exists s2, during, (now env (ticks s4)).
  split; [exact E0|].
  assert (Hc : current_step s3 = current_step s) by congruence.
  assert (F' : Forall (fun e => step e = 0 + step e /\ permits export_or_message e) during).
  { eapply Forall_impl; [|exact F]. simpl. intros e [_ Ha]. now split. }
  split.
  { rewrite L5, L4, L3, L2, L1. rewrite C4, Hc.
    unfold message_entry. cbn [or_empty].
    repeat rewrite <- List.app_assoc.
    replace (ticks s1) with (S (S (ticks s))) by congruence.
    replace (ticks s0) with (S (ticks s)) by congruence.
    replace (current_step s1) with (current_step s) by congruence.
    replace (current_step s0) with (current_step s) by congruence.
    reflexivity. }
  split; [intros Hq; apply Q; congruence|].
  split; [apply count_event_handler; [reflexivity|exact F']|].
  split; [apply count_event_handler; [reflexivity|exact F']|].
  split; [apply count_event_handler; [reflexivity|exact F']|].
  congruence.
Qed.

(** ** Running a sequence forward *)

Lemma bind_run {A B} (m : M A) (k : A -> M B) s a s1 r :
  m s = Done a s1 -> k a s1 = r -> bind m k s = r.
Proof. intros E <-. unfold bind. now rewrite E. Qed.

Lemma try_except_Done {A} (body : M A) handler s a s1 :
  body s = Done a s1 -> try_except body handler s = Done a s1.
Proof. intros E. unfold try_except. now rewrite E. Qed.

Lemma try_finally_Done {A} (body : M A) fin s a s1 s2 :
  body s = Done a s1 -> fin s1 = Done tt s2 ->
  try_finally body fin s = Done a s2.
Proof. intros E F. unfold try_finally, bind. now rewrite E, F. Qed.

Lemma appends_Done {A} allowed (m : M A) s a s' :
  appends allowed m -> m s = Done a s' -> grows allowed s s'.
Proof. intros Hm E. specialize (Hm s). now rewrite E in Hm. Qed.

Lemma loop_entry_Done env s :
  (show_keyboard_shortcuts ;; time_sleep env) s = Done tt (loop_entry env s).
Proof.
  unfold loop_entry.
  assert (R : returns (show_keyboard_shortcuts ;; time_sleep env))
    by (unfold show_keyboard_shortcuts; total).
  destruct (R s) as ([] & s' & E). now rewrite E.
Qed.

Lemma loop_entry_grows env s : grows any_entry s (loop_entry env s).
Proof.
  eapply appends_Done; [|apply loop_entry_Done].
  pose proof (any_time_sleep env). unfold show_keyboard_shortcuts. frame.
Qed.

(** ** Leaving a step by [exit] *)

Lemma dispatch_false env stp action s s' :
  dispatch env stp action s = Done (Some false) s' ->
  exists l t,
    session_logs s' =
      l ++ [mkEntry t (u "Session terminated by user") (current_step s' + 1) []].
Proof.
  unfold dispatch.
  destruct (pystr_eqb action (u "proceed")).
  { intros H. bind_inv H. discriminate H. }
  destruct (pystr_eqb action (u "retry")).
  { intros H. bind_inv H. discriminate H. }
  destruct (pystr_eqb action (u "help")).
  { intros H. bind_inv H. discriminate H. }
  destruct (pystr_eqb action (u "logs")).
  { intros H. bind_inv H. discriminate H. }
  destruct (pystr_eqb action (u "exit")); [|intros H; discriminate H].
  intros H. bind_inv H. destruct a; [|discriminate H].
  bind_inv H. injection H as <-. destruct a0.
  apply log_event_logs in H2 as (L & C & _).
  eexists _, _. rewrite L, C. reflexivity.
Qed.

Lemma action_loop_false env fuel stp s s' :
  action_loop env fuel stp s = Done false s' ->
  exists l t,
    session_logs s' =
      l ++ [mkEntry t (u "Session terminated by user") (current_step s' + 1) []].
Proof.
  revert s. induction fuel as [|fuel IH]; intros s H; simpl in H.
  - discriminate H.
  - bind_inv H. destruct a0 as [[|]|].
    + discriminate H.
    + injection H as <-. eapply dispatch_false; eassumption.
    + eapply IH; eassumption.
Qed.

Lemma run_step_false env fuel stp s s' :
  run_step env fuel stp s = Done false s' ->
  exists l t,
    session_logs s' =
      l ++ [mkEntry t (u "Session terminated by user") (current_step s' + 1) []].
Proof.
  unfold run_step. intros H. bind_inv H.
  eapply action_loop_false; eassumption.
Qed.

Lemma count_not_step_started l :
  Forall (fun e => step e = 0 + step e /\ permits not_step_started e) l ->
  count_event (u "Step started") l = 0.
Proof.
  intros F. unfold count_event.
  induction l as [|e l IH]; [reflexivity|].
  inversion F as [|? ? [_ Ha] F']; subst. simpl.
  unfold permits, not_step_started in Ha.
  destruct (pystr_eqb (event e) (u "Step started")); [discriminate Ha|].
  now apply IH.
Qed.

Lemma grows_not_step_started s s' :
  grows not_step_started s s' ->
  exists added,
    session_logs s' = session_logs s ++ added
    /\ count_event (u "Step started") added = 0
    /\ current_step s' = current_step s.
Proof.
  intros (C & added & L & F). exists added. split; [exact L|].
  split; [|exact C]. apply count_not_step_started.
  eapply Forall_impl; [|exact F]. simpl. intros e [_ Ha]. now split.
Qed.

Lemma quiet_time_sleep env : appends not_step_started (time_sleep env).
Proof. apply appends_time_sleep; reflexivity. Qed.

(** [run_step] writes ["Step started"] once, on entry. *)
Lemma run_step_starts_once env fuel stp s b s' :
  run_step env fuel stp s = Done b s' ->
  exists added,
    session_logs s' = session_logs s ++ added
    /\ count_event (u "Step started") added = 1.
Proof.
  unfold run_step, create_step_panel. intros H. bind_inv H.
  injection H0 as <-. destruct a0, a1.
  eapply appends_Done in H1;
    [|apply (@appends_display_header env not_step_started); reflexivity].
  apply grows_not_step_started in H1 as (h & Lh & Ch & _).
  apply log_event_logs in H2 as (Ls & _).
  injection H4 as <-. injection H3 as _ <-.
  eapply appends_Done in H5;
    [|apply (@appends_display_progress env not_step_started);
      [apply quiet_time_sleep|reflexivity|reflexivity]].
  apply grows_not_step_started in H5 as (p & Lp & Cp & _).
  eapply appends_Done in H;
    [|apply (@appends_action_loop env not_step_started); try reflexivity;
      apply quiet_time_sleep].
  apply grows_not_step_started in H as (l & Ll & Cl & _).
  subst s0 s4. cbn [session_logs set_console] in Lh, Lp.
  eexists. split.
  - rewrite Ll, Lp, Ls, Lh. repeat rewrite <- List.app_assoc. reflexivity.
  - repeat rewrite count_event_app. rewrite Ch, Cp, Cl. reflexivity.
Qed.

Lemma loop_entry_quiet env s : grows not_step_started s (loop_entry env s).
Proof.
  eapply appends_Done; [|apply loop_entry_Done].
  pose proof (quiet_time_sleep env). unfold show_keyboard_shortcuts. frame.
Qed.



(** ** Two steps, each completed at once *)

Lemma time_sleep_quiet env s :
  no_signals env -> time_sleep env s = Done tt (set_sleeps (S (sleeps s)) s).
Proof.
  intros Hq. unfold time_sleep, bind, get, modify. now rewrite Hq.
Qed.

Lemma check_keyboard_input_idle env s :
  idle_poll (keyboard env (polls s)) = true ->
  exists a,
    check_keyboard_input env s = Done a (set_polls (S (polls s)) s)
    /\ truthy a = false.
Proof.
  unfold idle_poll, check_keyboard_input.
  destruct (keyboard env (polls s)) as [b|].
  - destruct (decode_utf8 b) as [c|]; [|discriminate].
    intros H. eexists. split; [reflexivity|].
    now destruct (truthy (dict_get (lower [c]) actions)).
  - intros _. now exists None.
Qed.

(** Polls that yield nothing leave the log alone; the Enter key then
    selects [proceed], which is logged. *)
Lemma wait_for_action_enter env k : forall fuel s,
  no_signals env -> enter_after env (polls s) k -> k < fuel ->
  exists s',
    wait_for_action env fuel s = Done (u "proceed") s'
    /\ session_logs s' =
         session_logs s
         ++ [mkEntry (now env (ticks s)) (u "Action selected") (current_step s + 1)
                     [(u "action", DStr (u "proceed"))]]
    /\ current_step s' = current_step s
    /\ is_running s' = is_running s
    /\ polls s' = polls s + S k.
Proof.
  induction k as [|k IH]; intros fuel s Hq [Hidle Henter] Hf;
    (destruct fuel as [|fuel]; [lia|]); simpl.
  - rewrite Nat.add_0_r in Henter.
    eexists. split.
    + unfold bind at 1. unfold check_keyboard_input. rewrite Henter.
      reflexivity.
    + cbn. repeat split; try reflexivity. lia.
  - assert (H0 : idle_poll (keyboard env (polls s)) = true).
    { rewrite <- (Nat.add_0_r (polls s)). apply Hidle. lia. }
    destruct (check_keyboard_input_idle env s H0) as (a & Ea & Ta).
    unfold bind at 1. rewrite Ea, Ta.
    unfold bind at 1. rewrite (time_sleep_quiet _ Hq).
    destruct (IH fuel (set_sleeps (S (sleeps (set_polls (S (polls s)) s)))
                                  (set_polls (S (polls s)) s)) Hq)
      as (s' & E & L & C & R & P).
    + split.
      * intros i Hi. simpl. replace (S (polls s + i)) with (polls s + S i) by lia.
        apply Hidle. lia.
      * simpl. replace (S (polls s + k)) with (polls s + S k) by lia.
        exact Henter.
    + lia.
    + exists s'. split; [exact E|]. simpl in *.
      repeat split; try assumption. lia.
Qed.

Lemma post_ret {A} (a : A) s (Q : A -> AutomationUI -> Prop) :
  Q a s -> post (ret a) s Q.
Proof. intros H. now exists a, s. Qed.

Lemma post_bind {A B} (m : M A) (k : A -> M B) s (Q : B -> AutomationUI -> Prop) :
  post m s (fun a s1 => post (k a) s1 Q) -> post (bind m k) s Q.
Proof.
  intros (a & s1 & E & b & s2 & E2 & H). exists b, s2. split; [|exact H].
  unfold bind. now rewrite E.
Qed.

Lemma post_get s (Q : AutomationUI -> AutomationUI -> Prop) :
  Q s s -> post get s Q.
Proof. intros H. now exists s, s. Qed.

Lemma post_modify f s (Q : unit -> AutomationUI -> Prop) :
  Q tt (f s) -> post (modify f) s Q.
Proof. intros H. now exists tt, (f s). Qed.

Lemma post_console_print r s (Q : unit -> AutomationUI -> Prop) :
  Q tt (set_console (console s ++ [r]) s) -> post (console_print r) s Q.
Proof. apply post_modify. Qed.

Lemma post_log_event env ev d s (Q : unit -> AutomationUI -> Prop) :
  Q tt (set_session_logs
          (session_logs s
           ++ [mkEntry (now env (ticks s)) ev (current_step s + 1) (or_empty d)])
          (set_ticks (S (ticks s)) s)) ->
  post (log_event env ev d) s Q.
Proof. intros H. eexists _, _. split; [apply log_event_run|exact H]. Qed.

Lemma post_print_message env message level s (Q : unit -> AutomationUI -> Prop) :
  (forall s',
     session_logs s' =
       session_logs s
       ++ [message_entry (now env (ticks s)) (current_step s + 1) message level] ->
     current_step s' = current_step s ->
     is_running s' = is_running s ->
     polls s' = polls s ->
     Q tt s') ->
  post (print_message env message level) s Q.
Proof.
  intros H. destruct (returns_print_message env message level s) as ([] & s' & E).
  exists tt, s'. split; [exact E|].
  apply print_message_logs in E as (L & C & R & _ & P & _). now apply H.
Qed.

Lemma post_time_sleep_quiet env s (Q : unit -> AutomationUI -> Prop) :
  no_signals env ->
  Q tt (set_sleeps (S (sleeps s)) s) -> post (time_sleep env) s Q.
Proof.
  intros Hq H. eexists _, _. split; [apply time_sleep_quiet, Hq|exact H].
Qed.

Lemma post_wait_for_action_enter env k fuel s (Q : pystr -> AutomationUI -> Prop) :
  no_signals env -> enter_after env (polls s) k -> k < fuel ->
  (forall s',
     session_logs s' =
       session_logs s
       ++ [mkEntry (now env (ticks s)) (u "Action selected") (current_step s + 1)
                   [(u "action", DStr (u "proceed"))]] ->
     current_step s' = current_step s ->
     is_running s' = is_running s ->
     polls s' = polls s + S k ->
     Q (u "proceed") s') ->
  post (wait_for_action env fuel) s Q.
Proof.
  intros Hq Hk Hf H.
  destruct (@wait_for_action_enter env k fuel s Hq Hk Hf) as (s' & E & L & C & R & P).
  exists (u "proceed"), s'. split; [exact E|]. now apply H.
Qed.

Lemma run_step_enter env stp k fuel s :
  no_signals env -> enter_after env (polls s) k -> S k < fuel ->
  post (run_step env fuel stp) s (fun ok s' =>
    ok = true
    /\ contents s' = contents s ++ step_contents stp (current_step s + 1)
    /\ current_step s' = current_step s
    /\ is_running s' = is_running s
    /\ polls s' = polls s + S k).
Proof.
  intros Hq Hk Hf. destruct fuel as [|fuel]; [lia|].
  unfold run_step, display_header, display_progress, create_step_panel.
  apply post_bind, post_console_print.
  apply post_bind, post_bind, post_console_print, post_log_event.
  apply post_bind, post_log_event.
  apply post_bind, post_bind, post_get, post_ret.
  apply post_bind, post_console_print.
  apply post_bind, post_bind, post_log_event.
  apply post_bind, post_time_sleep_quiet; [exact Hq|].
  apply post_log_event.
  simpl action_loop. unfold show_action_menu.
  apply post_bind, post_bind, post_console_print.
  eapply post_wait_for_action_enter; [exact Hq|exact Hk|lia|].
  intros sw Lw Cw Rw Pw. cbn in Lw, Cw, Rw, Pw.
  unfold dispatch. change (pystr_eqb (u "proceed") (u "proceed")) with true.
  cbv iota.
  apply post_bind, post_bind, post_print_message.
  intros sm Lm Cm Rm Pm.
  apply post_bind, post_log_event, post_ret, post_ret.
  split; [reflexivity|]. unfold contents. cbn.
  rewrite Lm, Lw. repeat rewrite map_app. cbn.
  repeat rewrite <- List.app_assoc. cbn.
  rewrite Cm, Cw, Rm, Rw, Pm, Pw.
  repeat split; reflexivity.
Qed.

Lemma post_try_except {A} (body : M A) handler s (Q : A -> AutomationUI -> Prop) :
  post body s Q -> post (try_except body handler) s Q.
Proof.
  intros (a & s' & E & H). exists a, s'. split; [|exact H].
  now apply try_except_Done.
Qed.

Lemma post_try_finally {A} (body : M A) fin s (Q : A -> AutomationUI -> Prop) :
  post body s (fun a s1 => post fin s1 (fun _ s2 => Q a s2)) ->
  post (try_finally body fin) s Q.
Proof.
  intros (a & s1 & E & [] & s2 & F & H). exists a, s2. split; [|exact H].
  eapply try_finally_Done; eassumption.
Qed.

Lemma post_Confirm_ask env p s (Q : bool -> AutomationUI -> Prop) :
  Q (confirm_ask env (confirms s))
    (set_confirms (S (confirms s)) (set_console (console s ++ [Asked p]) s)) ->
  post (Confirm_ask env p) s Q.
Proof. intros H. eexists _, _. split; [reflexivity|exact H]. Qed.

Lemma post_grows {A} allowed (m : M A) s (Q : A -> AutomationUI -> Prop) :
  returns m -> appends allowed m ->
  (forall a s', grows allowed s s' -> Q a s') ->
  post m s Q.
Proof.
  intros R G H. destruct (R s) as (a & s' & E). exists a, s'.
  split; [exact E|]. apply H. eapply appends_Done; eassumption.
Qed.

(** One round of the loop of [run_automation] on a step that is
    completed at once, and the round that finds the list exhausted. *)
Lemma post_step_loop_round env fuel steps stp k s (Q : unit -> AutomationUI -> Prop) :
  no_signals env ->
  nth_error steps (current_step s) = Some stp ->
  is_running s = true ->
  enter_after env (polls s) k ->
  S k < fuel ->
  (forall s1,
     contents s1 = contents s ++ step_contents stp (current_step s + 1) ->
     current_step s1 = current_step s + 1 ->
     is_running s1 = true ->
     polls s1 = polls s + S k ->
     post (step_loop env fuel steps) s1 Q) ->
  post (step_loop env (S fuel) steps) s Q.
Proof.
  intros Hq Hn Hr Hk Hf H.
  destruct (@run_step_enter env stp k fuel s Hq Hk Hf)
    as (ok & s1 & E & -> & L & C & R & P).
  assert (Hlt : Nat.ltb (current_step s) (List.length steps) = true).
  { apply Nat.ltb_lt. apply nth_error_Some. congruence. }
  assert (HP : post (step_loop env fuel steps)
                    (set_current_step (current_step s1 + 1) s1) Q).
  { apply H; [exact L|simpl; congruence|simpl; congruence|exact P]. }
  destruct HP as (a & s2 & E2 & HQ).
  exists a, s2. split; [|exact HQ].
  rewrite step_loop_S, Hlt, Hr, Hn, E. exact E2.
Qed.

Lemma post_step_loop_end env fuel steps s (Q : unit -> AutomationUI -> Prop) :
  List.length steps <= current_step s ->
  Q tt s ->
  post (step_loop env (S fuel) steps) s Q.
Proof.
  intros Hle H. exists tt, s. split; [|exact H].
  rewrite step_loop_S.
  replace (Nat.ltb (current_step s) (List.length steps)) with false; [reflexivity|].
  symmetry. apply Nat.ltb_ge. exact Hle.
Qed.

Lemma filter_lifecycle_handler (l : list LogEntry) :
  Forall (permits export_or_message) l ->
  filter lifecycle (map event l) = [].
Proof.
  induction l as [|e l IH]; intros F; [reflexivity|].
  inversion F as [|? ? Ha F']; subst. simpl. rewrite (IH F').
  unfold permits, export_or_message in Ha.
  apply orb_true_iff in Ha as [Ha|Ha]; [apply orb_true_iff in Ha as [Ha|Ha]|];
    apply pystr_eqb_eq in Ha; rewrite Ha; reflexivity.
Qed.

Lemma events_contents s :
  events s = map (fun c => fst (fst c)) (contents s).
Proof. unfold events, contents. now rewrite map_map. Qed.


Lemma enter_env_quiet : no_signals enter_env.
Proof. intros i. reflexivity. Qed.

Lemma enter_env_enter from : enter_after enter_env from 0.
Proof. split; [intros i Hi; lia|reflexivity]. Qed.



(** ** Interrupts and undecodable keys *)

(** C1, on the signal path.  Ctrl-C arrives while the first action menu
    waits: the handler runs [cleanup] and returns, the menu goes on
    waiting, the operator quits, and the [finally] clause runs [cleanup]
    again.  The closing message is logged twice in one run. *)
Theorem cleanup_runs_twice_after_interrupt :
  run_automation interrupt_env 5 example_steps (state_of (__init__ interrupt_env))
  = Done tt (state_of (run_automation interrupt_env 5 example_steps
                                      (state_of (__init__ interrupt_env))))
  /\ cleanup_runs (state_of (run_automation interrupt_env 5 example_steps
                                            (state_of (__init__ interrupt_env)))) = 2
  /\ events (state_of (run_automation interrupt_env 5 example_steps
                                      (state_of (__init__ interrupt_env))))
     = [u "Session started"; u "Header displayed"; u "Step started";
        u "Progress started"; u "Progress completed";
        u "Message displayed"; u "Message displayed";
        u "Action selected"; u "Message displayed";
        u "Session terminated by user"; u "Message displayed"].
Proof.
  split; [vm_compute; reflexivity|].
  split; vm_compute; reflexivity.
Qed.

(** While the menu waits, a poll that yields nothing writes no entry and
    the loop goes on to its pause and the next poll. *)
Lemma wait_for_action_idle env fuel s :
  idle_poll (keyboard env (polls s)) = true ->
  wait_for_action env (S fuel) s
  = (time_sleep env ;; wait_for_action env fuel) (set_polls (S (polls s)) s).
Proof.
  intros H. destruct (check_keyboard_input_idle env s H) as (a & E & T).
  simpl. unfold bind at 1. now rewrite E, T.
Qed.

(** A recognized key is logged as ["Action selected"] and returned. *)
Lemma wait_for_action_selected env fuel s b c a :
  keyboard env (polls s) = Some b -> decode_utf8 b = Some c ->
  documented_action c = Some a ->
  wait_for_action env (S fuel) s
  = Done a (set_session_logs
              (session_logs s
               ++ [mkEntry (now env (ticks s)) (u "Action selected")
                           (current_step s + 1) [(u "action", DStr a)]])
              (set_ticks (S (ticks s)) (set_polls (S (polls s)) s))).
Proof.
  intros Hk Hd Ha. simpl. unfold bind at 1.
  rewrite (check_keyboard_input_ascii env s Hk Hd), Ha.
  assert (T : truthy (Some a) = true).
  { unfold documented_action in Ha.
    repeat match type of Ha with
    | (if ?t then _ else _) = _ => destruct t
    end; try discriminate Ha; injection Ha as <-; reflexivity. }
  rewrite T. reflexivity.
Qed.

(** C9, at the key the mapping misses.  With the byte 0xE0 in the
    buffer the poll of the action menu does not answer [None]: it raises,
    the menu stops polling, and [run_automation] ends the run, logging
    the error message and ["Error occurred"] and leaving the step index
    at 0. *)
Theorem arrow_key_at_menu_ends_the_run :
  (forall fuel s,
     show_action_menu arrow_key_env (S fuel) s
     = Raised (UnicodeDecodeError xe0)
              (set_polls (S (polls s)) (set_console (console s ++ [ActionTable]) s)))
  /\ run_automation arrow_key_env 3 example_steps (state_of (__init__ arrow_key_env))
     = Done tt (state_of (run_automation arrow_key_env 3 example_steps
                                         (state_of (__init__ arrow_key_env))))
  /\ events (state_of (run_automation arrow_key_env 3 example_steps
                                      (state_of (__init__ arrow_key_env))))
     = [u "Session started"; u "Header displayed"; u "Step started";
        u "Progress started"; u "Progress completed";
        u "Message displayed"; u "Error occurred"; u "Message displayed"]
  /\ current_step (state_of (run_automation arrow_key_env 3 example_steps
                                            (state_of (__init__ arrow_key_env)))) = 0.
Proof.
  split; [intros fuel s; reflexivity|].
  split; [vm_compute; reflexivity|].
  split; vm_compute; reflexivity.
Qed.

(* ===================================================================== *)
(** ** JSON round trip *)
(* ===================================================================== *)

(** *** Escapes *)

Lemma hex_val_digit d : (d < 16)%N -> hex_val (hex_digit d) = Some d.
Proof.
  intros H.
  assert (C : (d = 0 \/ d = 1 \/ d = 2 \/ d = 3 \/ d = 4 \/ d = 5 \/ d = 6
               \/ d = 7 \/ d = 8 \/ d = 9 \/ d = 10 \/ d = 11 \/ d = 12
               \/ d = 13 \/ d = 14 \/ d = 15)%N) by lia.
  repeat (destruct C as [->|C]; [reflexivity|]). subst d. reflexivity.
Qed.

Lemma decode_hex4 c r : (c < 65536)%N -> decode_uXXXX (hex4 c ++ r) = Some (c, r).
Proof.
  intros H. unfold hex4, decode_uXXXX. cbn [Datatypes.app].
  repeat rewrite hex_val_digit by (apply N.mod_lt; discriminate).
  f_equal. f_equal.
  assert (E : (c / 4096 mod 16 = c / 4096)%N).
  { apply N.mod_small. apply N.Div0.div_lt_upper_bound. lia. }
  rewrite E.
  pose proof (N.Div0.div_mod c 16) as D0.
  pose proof (N.Div0.div_mod (c / 16) 16) as D1.
  pose proof (N.Div0.div_mod (c / 256) 16) as D2.
  replace (c / 256)%N with (c / 16 / 16)%N in * by (rewrite N.Div0.div_div; reflexivity).
  replace (c / 4096)%N with (c / 16 / 16 / 16)%N
    by (repeat rewrite N.Div0.div_div; reflexivity).
  lia.
Qed.

Lemma lor_high_low a b : (b < 1024)%N -> N.lor (a * 1024) b = (a * 1024 + b)%N.
Proof.
  intros H.
  assert (Z0 : N.land (a * 1024) b = 0%N).
  { apply N.bits_inj. intros m. rewrite N.land_spec, N.bits_0.
    destruct (N.lt_ge_cases m 10) as [Hm|Hm].
    - change 1024%N with (2 ^ 10)%N. now rewrite N.mul_pow2_bits_low.
    - replace b with (b mod 2 ^ 10)%N by (apply N.mod_small; exact H).
      rewrite N.mod_pow2_bits_high by exact Hm. apply andb_false_r. }
  rewrite <- N.lxor_lor by exact Z0. symmetry. now apply N.add_nocarry_lxor.
Qed.

(** The surrogate pair the encoder writes for a code point above the
    basic plane, and what the decoder makes of it. *)
Lemma surrogate_pair c :
  (65536 <= c)%N -> (c < 1114112)%N ->
  let n := (c - 65536)%N in
  let s1 := N.lor 55296 (N.land (N.shiftr n 10) 1023) in
  let s2 := N.lor 56320 (N.land n 1023) in
  (s1 < 65536)%N /\ (s2 < 65536)%N
  /\ is_high_surrogate s1 = true /\ is_low_surrogate s2 = true
  /\ (65536 + N.lor (N.shiftl (s1 - 55296) 10) (s2 - 56320))%N = c.
Proof.
  intros Hlo Hhi n s1 s2.
  assert (Hn : (n < 1048576)%N) by (unfold n; lia).
  assert (Hq : (n / 1024 < 1024)%N) by (apply N.Div0.div_lt_upper_bound; lia).
  assert (Hr : (n mod 1024 < 1024)%N) by (apply N.mod_lt; discriminate).
  pose proof (N.Div0.div_mod n 1024) as D. revert D.
  assert (E1 : s1 = (55296 + n / 1024)%N).
  { unfold s1. change 1023%N with (N.ones 10).
    rewrite N.land_ones, N.shiftr_div_pow2. change (2 ^ 10)%N with 1024%N.
    rewrite (N.mod_small _ _ Hq).
    change 55296%N with (54 * 1024)%N. now apply lor_high_low. }
  assert (E2 : s2 = (56320 + n mod 1024)%N).
  { unfold s2. change 1023%N with (N.ones 10).
    rewrite N.land_ones. change (2 ^ 10)%N with 1024%N.
    change 56320%N with (55 * 1024)%N. now apply lor_high_low. }
  rewrite E1, E2. clear E1 E2 s1 s2.
  assert (En : c = (65536 + n)%N) by (unfold n; lia).
  clearbody n.
  generalize dependent (n / 1024)%N. generalize dependent (n mod 1024)%N.
  intros r Hr q Hq D.
  split; [lia|]. split; [lia|].
  split; [unfold is_high_surrogate; apply andb_true_iff; split; apply N.leb_le; lia|].
  split; [unfold is_low_surrogate; apply andb_true_iff; split; apply N.leb_le; lia|].
  replace (55296 + q - 55296)%N with q by lia.
  replace (56320 + r - 56320)%N with r by lia.
  rewrite N.shiftl_mul_pow2. change (2 ^ 10)%N with 1024%N.
  rewrite lor_high_low by exact Hr.
  lia.
Qed.

(** The four shapes of an escaped code point. *)
Lemma escape_char_cases c :
  (c < 1114112)%N ->
  (exists e, escape_char c = [92%N; e] /\ N.eqb e 117 = false
             /\ backslash e = Some c)
  \/ (escape_char c = [c] /\ N.eqb c 34 = false /\ N.eqb c 92 = false
      /\ N.ltb c 32 = false)
  \/ (escape_char c = 92%N :: 117%N :: hex4 c /\ (c < 65536)%N)
  \/ (exists s1 s2,
        escape_char c = (92%N :: 117%N :: hex4 s1) ++ (92%N :: 117%N :: hex4 s2)
        /\ (s1 < 65536)%N /\ (s2 < 65536)%N
        /\ is_high_surrogate s1 = true /\ is_low_surrogate s2 = true
        /\ (65536 + N.lor (N.shiftl (s1 - 55296) 10) (s2 - 56320))%N = c).
Proof.
  intros Hc. unfold escape_char.
  destruct (N.eqb_spec c 34) as [->|H34]; [left; now exists 34%N|].
  destruct (N.eqb_spec c 92) as [->|H92]; [left; now exists 92%N|].
  destruct (N.eqb_spec c 10) as [->|H10]; [left; now exists 110%N|].
  destruct (N.eqb_spec c 13) as [->|H13]; [left; now exists 114%N|].
  destruct (N.eqb_spec c 9) as [->|H9]; [left; now exists 116%N|].
  destruct (N.eqb_spec c 8) as [->|H8]; [left; now exists 98%N|].
  destruct (N.eqb_spec c 12) as [->|H12]; [left; now exists 102%N|].
  destruct (N.leb 32 c && N.leb c 126) eqn:Hp.
  { right; left. apply andb_true_iff in Hp as [Hlo _]. apply N.leb_le in Hlo.
    repeat split; try (apply N.eqb_neq; assumption).
    apply N.ltb_ge. exact Hlo. }
  destruct (N.ltb_spec c 65536) as [Hb|Hb].
  { right; right; left. now split. }
  right; right; right.
  destruct (surrogate_pair Hb Hc) as (B1 & B2 & S1 & S2 & E).
  eexists _, _. split; [reflexivity|]. repeat split; assumption.
Qed.

Lemma escape_char_nonempty c : escape_char c <> [].
Proof.
  unfold escape_char.
  repeat match goal with
  | |- (if ?t then _ else _) <> _ => destruct t
  end; discriminate.
Qed.

Lemma starts_with_app p r : starts_with p (p ++ r) = Some r.
Proof.
  unfold starts_with.
  rewrite firstn_app, Nat.sub_diag, firstn_all, firstn_O, List.app_nil_r.
  rewrite pystr_eqb_refl.
  rewrite skipn_app, Nat.sub_diag, skipn_all. reflexivity.
Qed.

(** *** Reading one escaped code point *)

Lemma scan_end fuel r : py_scanstring (S fuel) (34%N :: r) = Some ([], r).
Proof. reflexivity. Qed.

Lemma scan_plain fuel c r :
  N.eqb c 34 = false -> N.eqb c 92 = false -> N.ltb c 32 = false ->
  py_scanstring (S fuel) (c :: r) = cons_char c (py_scanstring fuel r).
Proof. intros H1 H2 H3. cbn [py_scanstring]. now rewrite H1, H2, H3. Qed.

Lemma scan_short fuel e ch r :
  N.eqb e 117 = false -> backslash e = Some ch ->
  py_scanstring (S fuel) (92%N :: e :: r) = cons_char ch (py_scanstring fuel r).
Proof.
  intros H1 H2. cbn [py_scanstring].
  change (N.eqb 92 34) with false. change (N.eqb 92 92) with true. cbv iota.
  now rewrite H1, H2.
Qed.

Lemma scan_single fuel uni r1 r2 :
  decode_uXXXX r1 = Some (uni, r2) ->
  (is_high_surrogate uni = true ->
   match starts_with [92%N; 117%N] r2 with
   | Some r3 =>
       exists uni2 r4,
         decode_uXXXX r3 = Some (uni2, r4) /\ is_low_surrogate uni2 = false
   | None => True
   end) ->
  py_scanstring (S fuel) (92%N :: 117%N :: r1) = cons_char uni (py_scanstring fuel r2).
Proof.
  intros Hd Hn. cbn [py_scanstring].
  change (N.eqb 92 34) with false. change (N.eqb 92 92) with true.
  change (N.eqb 117 117) with true. cbv iota. rewrite Hd.
  destruct (is_high_surrogate uni); [|reflexivity].
  specialize (Hn eq_refl).
  destruct (starts_with [92%N; 117%N] r2) as [r3|]; [|reflexivity].
  destruct Hn as (uni2 & r4 & Hd2 & Hl). now rewrite Hd2, Hl.
Qed.

Lemma scan_pair fuel s1 s2 r :
  (s1 < 65536)%N -> (s2 < 65536)%N ->
  is_high_surrogate s1 = true -> is_low_surrogate s2 = true ->
  py_scanstring (S fuel) ((92%N :: 117%N :: hex4 s1) ++ (92%N :: 117%N :: hex4 s2) ++ r)
  = cons_char (65536 + N.lor (N.shiftl (s1 - 55296) 10) (s2 - 56320))%N
              (py_scanstring fuel r).
Proof.
  intros B1 B2 H1 H2.
  change ((92%N :: 117%N :: hex4 s1) ++ (92%N :: 117%N :: hex4 s2) ++ r)
    with (92%N :: 117%N :: hex4 s1 ++ ([92%N; 117%N] ++ hex4 s2 ++ r)).
  cbn [py_scanstring].
  change (N.eqb 92 34) with false. change (N.eqb 92 92) with true.
  change (N.eqb 117 117) with true. cbv iota.
  rewrite (decode_hex4 _ B1), H1, starts_with_app, (decode_hex4 _ B2), H2.
  reflexivity.
Qed.

Lemma plain_str_cons c s :
  plain_str (c :: s) = true ->
  (c < 1114112)%N /\ plain_str s = true
  /\ match s with
     | c2 :: _ => is_high_surrogate c && is_low_surrogate c2 = false
     | [] => True
     end.
Proof.
  unfold plain_str. simpl. intros H.
  apply andb_true_iff in H as [H1 H2].
  apply andb_true_iff in H1 as [Hc Hs].
  apply andb_true_iff in H2 as [Hn Hp].
  split; [now apply N.ltb_lt|]. split; [now rewrite Hs, Hp|].
  destruct s as [|c2 s]; [exact I|]. now apply negb_true_iff.
Qed.

Lemma high_not_low c : is_high_surrogate c = true -> is_low_surrogate c = false.
Proof.
  unfold is_high_surrogate, is_low_surrogate. intros H.
  apply andb_true_iff in H as [_ H]. apply N.leb_le in H.
  apply andb_false_iff. left. apply N.leb_gt. lia.
Qed.

(** After an escaped high surrogate the encoder never writes the escape
    of a low surrogate, as long as the string holds no such pair. *)
Lemma next_not_low c s rest :
  plain_str (c :: s) = true -> is_high_surrogate c = true ->
  match starts_with [92%N; 117%N] (flat_map escape_char s ++ 34%N :: rest) with
  | Some r3 =>
      exists uni2 r4,
        decode_uXXXX r3 = Some (uni2, r4) /\ is_low_surrogate uni2 = false
  | None => True
  end.
Proof.
  intros Hp Hh. apply plain_str_cons in Hp as (_ & Hs & Hn).
  destruct s as [|c2 s]; [exact I|].
  rewrite Hh in Hn. simpl in Hn.
  apply plain_str_cons in Hs as (Hc2 & _ & _).
  cbn [flat_map]. rewrite <- List.app_assoc.
  destruct (escape_char_cases Hc2)
    as [(e & -> & He & _)|[(-> & _ & H92 & _)|[(-> & Hb)|(s1 & s2 & -> & B1 & _ & H1 & _)]]].
  - unfold starts_with. cbn. rewrite He. exact I.
  - unfold starts_with. cbn. rewrite H92. exact I.
  - change ((92%N :: 117%N :: hex4 c2) ++ flat_map escape_char s ++ 34%N :: rest)
      with ([92%N; 117%N] ++ hex4 c2 ++ flat_map escape_char s ++ 34%N :: rest).
    rewrite starts_with_app. eexists _, _. split; [exact (@decode_hex4 _ _ Hb)|exact Hn].
  - rewrite <- List.app_assoc.
    change ((92%N :: 117%N :: hex4 s1)
            ++ (92%N :: 117%N :: hex4 s2) ++ flat_map escape_char s ++ 34%N :: rest)
      with ([92%N; 117%N] ++ hex4 s1
            ++ (92%N :: 117%N :: hex4 s2) ++ flat_map escape_char s ++ 34%N :: rest).
    rewrite starts_with_app. eexists _, _.
    split; [exact (@decode_hex4 _ _ B1)|now apply high_not_low].
Qed.

(** [py_scanstring] reads back what [encode_str] wrote. *)
Lemma scanstring_escaped s : forall fuel rest,
  plain_str s = true -> List.length s < fuel ->
  py_scanstring fuel (flat_map escape_char s ++ 34%N :: rest) = Some (s, rest).
Proof.
  induction s as [|c s IH]; intros fuel rest Hp Hf;
    (destruct fuel as [|fuel]; [simpl in Hf; lia|]).
  - apply scan_end.
  - pose proof (@plain_str_cons _ _ Hp) as (Hc & Hs & _).
    assert (IH' : py_scanstring fuel (flat_map escape_char s ++ 34%N :: rest)
                  = Some (s, rest))
      by (apply IH; [exact Hs|simpl in Hf; lia]).
    cbn [flat_map]. rewrite <- List.app_assoc.
    destruct (escape_char_cases Hc)
      as [(e & E & He & Hb)|[(E & H34 & H92 & H32)|[(E & Hb)|(s1 & s2 & E & B1 & B2 & H1 & H2 & M)]]];
      rewrite E.
    + cbn [Datatypes.app]. rewrite (@scan_short _ _ _ _ He Hb), IH'. reflexivity.
    + cbn [Datatypes.app]. rewrite (@scan_plain _ _ _ H34 H92 H32), IH'. reflexivity.
    + change ((92%N :: 117%N :: hex4 c) ++ flat_map escape_char s ++ 34%N :: rest)
        with (92%N :: 117%N :: (hex4 c ++ flat_map escape_char s ++ 34%N :: rest)).
      rewrite (@scan_single fuel c _ _
                 (@decode_hex4 c (flat_map escape_char s ++ 34%N :: rest) Hb)
                 (fun Hh => @next_not_low c s rest Hp Hh)).
      rewrite IH'. reflexivity.
    + rewrite <- List.app_assoc.
      rewrite (@scan_pair _ _ _ _ B1 B2 H1 H2), IH', M. reflexivity.
Qed.

Lemma escaped_length s : List.length s <= List.length (flat_map escape_char s).
Proof.
  induction s as [|c s IH]; [apply Nat.le_refl|].
  cbn [flat_map]. rewrite length_app.
  pose proof (escape_char_nonempty c) as H.
  destruct (escape_char c); [congruence|]. simpl. lia.
Qed.

(** *** Integers *)

Lemma uint_of_chars_chars d : uint_of_chars (uint_chars d) = d.
Proof. induction d; simpl; now rewrite ?IHd. Qed.

Lemma span_digits_chars d rest :
  match rest with c :: _ => is_digit c = false | [] => True end ->
  span_digits (uint_chars d ++ rest) = (uint_chars d, rest).
Proof.
  intros Hr. induction d; simpl;
    try (change (is_digit 48) with true; change (is_digit 49) with true;
         change (is_digit 50) with true; change (is_digit 51) with true;
         change (is_digit 52) with true; change (is_digit 53) with true;
         change (is_digit 54) with true; change (is_digit 55) with true;
         change (is_digit 56) with true; change (is_digit 57) with true;
         cbv iota; now rewrite IHd).
  destruct rest as [|c rest]; [reflexivity|]. simpl. now rewrite Hr.
Qed.

Lemma pos_to_uint_lead p d' : Pos.to_uint p <> D0 d'.
Proof.
  intros E.
  pose proof (DecimalPos.Unsigned.to_of (Pos.to_uint p)) as H.
  rewrite DecimalPos.Unsigned.of_to in H. simpl in H.
  rewrite E, unorm_D0 in H.
  destruct (uint_eq_dec (nzhead d') Nil) as [Hz|Hz].
  - apply unorm_0 in Hz. rewrite Hz in H. injection H as ->.
    now apply (DecimalPos.Unsigned.to_uint_nonzero p).
  - rewrite (unorm_nzhead _ Hz) in H. symmetry in H.
    now apply nzhead_nonzero in H.
Qed.

(** The digits of a positive number: a first digit that is not zero. *)
Lemma pos_chars p :
  exists c r,
    uint_chars (Pos.to_uint p) = c :: r
    /\ N.eqb c 48 = false /\ N.eqb c 45 = false /\ is_digit c = true.
Proof.
  pose proof (@pos_to_uint_lead p) as H0.
  pose proof (DecimalPos.Unsigned.to_uint_nonnil p) as Hn.
  destruct (Pos.to_uint p) as [|d|d|d|d|d|d|d|d|d|d];
    [congruence|exfalso; now apply (H0 d)|..];
    simpl; eexists _, _; (split; [reflexivity|]); repeat split.
Qed.

Lemma delimited_no_digit rest :
  delimited rest = true ->
  match rest with c :: _ => is_digit c = false | [] => True end.
Proof.
  destruct rest as [|c rest]; [trivial|]. simpl. intros H.
  apply negb_true_iff in H. repeat (apply orb_false_iff in H as [H _]). exact H.
Qed.

Lemma delimited_no_float rest :
  delimited rest = true ->
  match rest with
  | c :: _ => N.eqb c 46 || N.eqb c 101 || N.eqb c 69
  | [] => false
  end = false.
Proof.
  destruct rest as [|c rest]; [trivial|]. simpl. intros H.
  apply negb_true_iff in H.
  apply orb_false_iff in H as [H H69]. apply orb_false_iff in H as [H H101].
  apply orb_false_iff in H as [_ H46]. now rewrite H46, H101, H69.
Qed.

Lemma match_number_pos (negative : bool) p rest :
  delimited rest = true ->
  match_number ((if negative then [45%N] else []) ++ str_N (Npos p) ++ rest)
  = Some (if negative then Zneg p else Zpos p, rest).
Proof.
  intros Hd. unfold str_N. change (N.to_uint (Npos p)) with (Pos.to_uint p).
  pose proof (span_digits_chars (Pos.to_uint p) rest (delimited_no_digit _ Hd)) as Hs.
  pose proof (DecimalPos.Unsigned.of_to p) as Hv.
  destruct (pos_chars p) as (c & r & E & H48 & H45 & Hdig).
  rewrite E in *. unfold match_number.
  assert (Hv' : N.of_uint (uint_of_chars (c :: r)) = Npos p).
  { rewrite <- E, uint_of_chars_chars. exact Hv. }
  destruct negative; cbn [Datatypes.app].
  - change (N.eqb 45 45) with true. cbv iota.
    rewrite H48, Hdig. cbn [Datatypes.app] in Hs. rewrite Hs.
    rewrite (delimited_no_float _ Hd), Hv'. reflexivity.
  - rewrite H45, H48, Hdig. cbn [Datatypes.app] in Hs. rewrite Hs.
    rewrite (delimited_no_float _ Hd), Hv'. reflexivity.
Qed.

Lemma match_number_str_Z z rest :
  delimited rest = true -> match_number (str_Z z ++ rest) = Some (z, rest).
Proof.
  intros Hd. destruct z as [|p|p].
  - change (str_Z 0) with [48%N]. unfold match_number. cbn [Datatypes.app].
    change (N.eqb 48 45) with false. cbv iota beta.
    change (N.eqb 48 48) with true. cbv iota beta.
    now rewrite (delimited_no_float _ Hd).
  - exact (@match_number_pos false p rest Hd).
  - exact (@match_number_pos true p rest Hd).
Qed.

Lemma str_Z_head z :
  exists c r, str_Z z = c :: r /\ (c = 45%N \/ is_digit c = true).
Proof.
  destruct z as [|p|p].
  - exists 48%N, []. split; [reflexivity|now right].
  - destruct (pos_chars p) as (c & r & E & _ & _ & Hd).
    exists c, r. split; [exact E|now right].
  - eexists _, _. split; [reflexivity|now left].
Qed.

Lemma digit_range c : is_digit c = true -> (48 <= c <= 57)%N.
Proof.
  unfold is_digit. intros H. apply andb_true_iff in H as [H1 H2].
  apply N.leb_le in H1, H2. lia.
Qed.

(** *** The shape of encoded text *)

Lemma encode_list_cons lvl x xs :
  encode lvl (JList (x :: xs)) =
  u "[" ++ newline_indent (S lvl) ++ encode (S lvl) x
  ++ encode_more_items lvl xs ++ newline_indent lvl ++ u "]".
Proof.
  cbn [encode]. do 3 f_equal. f_equal.
  induction xs as [|y ys IH]; [reflexivity|].
  unfold encode_more_items. cbn [flat_map]. rewrite IH.
  now repeat rewrite <- List.app_assoc.
Qed.

Lemma encode_obj_cons lvl k x ms :
  encode lvl (JObj ((k, x) :: ms)) =
  u "{" ++ newline_indent (S lvl) ++ encode_str k ++ u ": " ++ encode (S lvl) x
  ++ encode_more_members lvl ms ++ newline_indent lvl ++ u "}".
Proof.
  cbn [encode]. do 5 f_equal. f_equal.
  induction ms as [|[k' y] ms IH]; [reflexivity|].
  unfold encode_more_members. cbn [flat_map fst snd]. rewrite IH.
  now repeat rewrite <- List.app_assoc.
Qed.

Lemma need_list l : need (JList l) = S (need_items l).
Proof.
  reflexivity.
Qed.

Lemma need_obj ms : need (JObj ms) = S (need_members ms).
Proof.
  simpl. f_equal. induction ms as [|[k x] ms IH]; [reflexivity|].
  simpl. now rewrite <- IH.
Qed.

Lemma encode_head lvl v :
  exists c r, encode lvl v = c :: r /\ is_ws c = false /\ N.eqb c 93 = false.
Proof.
  destruct v as [|[|]|z|s|[|x xs]|[|[k x] ms]];
    try (eexists _, _; split; [reflexivity|split; reflexivity]).
  destruct (str_Z_head z) as (c & r & E & [->|Hd]).
  - exists 45%N, r. now split.
  - exists c, r. split; [exact E|]. apply digit_range in Hd.
    unfold is_ws. split.
    + repeat (apply orb_false_iff; split); apply N.eqb_neq; lia.
    + apply N.eqb_neq. lia.
Qed.

Lemma skip_ws_indent lvl c r :
  is_ws c = false -> skip_ws (newline_indent lvl ++ c :: r) = c :: r.
Proof.
  intros Hc. unfold newline_indent. cbn [Datatypes.app skip_ws].
  change (is_ws 10) with true. cbv iota.
  induction (2 * lvl) as [|n IH]; simpl.
  - now rewrite Hc.
  - change (is_ws 32) with true. cbv iota. exact IH.
Qed.

(** *** One step of the decoder *)

Lemma scan_once_str fuel r :
  scan_once (S fuel) (34%N :: r) =
  match py_scanstring (S (List.length r)) r with
  | Some (str, rest) => Some (JStr str, rest)
  | None => None
  end.
Proof. reflexivity. Qed.

Lemma scan_once_obj fuel r :
  scan_once (S fuel) (123%N :: r) =
  match skip_ws r with
  | c1 :: r1 =>
      if N.eqb c1 125 then Some (JObj [], r1)
      else if N.eqb c1 34 then JSONObject fuel r1 [] else None
  | [] => None
  end.
Proof. reflexivity. Qed.

Lemma scan_once_arr fuel r :
  scan_once (S fuel) (91%N :: r) =
  match skip_ws r with
  | c1 :: r1 =>
      if N.eqb c1 93 then Some (JList [], r1)
      else JSONArray fuel (c1 :: r1) []
  | [] => None
  end.
Proof. reflexivity. Qed.

Lemma scan_once_num fuel c r :
  c = 45%N \/ is_digit c = true ->
  scan_once (S fuel) (c :: r) =
  match match_number (c :: r) with
  | Some (z, rest) => Some (JInt z, rest)
  | None => None
  end.
Proof.
  intros H.
  assert (T : N.eqb c 34 = false /\ N.eqb c 123 = false /\ N.eqb c 91 = false
              /\ N.eqb c 110 = false /\ N.eqb c 116 = false
              /\ N.eqb c 102 = false).
  { destruct H as [->|H]; [repeat split|].
    apply digit_range in H. repeat split; apply N.eqb_neq; lia. }
  destruct T as (T1 & T2 & T3 & T4 & T5 & T6).
  cbn [scan_once]. now rewrite T1, T2, T3, T4, T5, T6.
Qed.

Lemma JSONArray_S fuel s values :
  JSONArray (S fuel) s values =
  match scan_once fuel s with
  | None => None
  | Some (value, s1) =>
      match skip_ws s1 with
      | c :: s2 =>
          if N.eqb c 93 then Some (JList (values ++ [value]), s2)
          else if N.eqb c 44 then JSONArray fuel (skip_ws s2) (values ++ [value])
          else None
      | [] => None
      end
  end.
Proof. reflexivity. Qed.

Lemma JSONObject_S fuel s pairs :
  JSONObject (S fuel) s pairs =
  match py_scanstring (S (List.length s)) s with
  | None => None
  | Some (key, s1) =>
      match skip_ws s1 with
      | 58%N :: s2 =>
          match scan_once fuel (skip_ws s2) with
          | None => None
          | Some (value, s3) =>
              match skip_ws s3 with
              | c :: s4 =>
                  if N.eqb c 125
                  then Some (JObj (dict_of_pairs (pairs ++ [(key, value)])), s4)
                  else if N.eqb c 44 then
                    match skip_ws s4 with
                    | 34%N :: s5 => JSONObject fuel s5 (pairs ++ [(key, value)])
                    | _ => None
                    end
                  else None
              | [] => None
              end
          end
      | _ => None
      end
  end.
Proof. reflexivity. Qed.

(** *** Atoms *)

Lemma reads_back_null : reads_back JNull.
Proof.
  intros lvl rest [|fuel] _ _ Hf; [simpl in Hf; lia|]. reflexivity.
Qed.

Lemma reads_back_bool b : reads_back (JBool b).
Proof.
  intros lvl rest [|fuel] _ _ Hf; [simpl in Hf; lia|]. destruct b; reflexivity.
Qed.

Lemma reads_back_int z : reads_back (JInt z).
Proof.
  intros lvl rest [|fuel] _ Hd Hf; [simpl in Hf; lia|]. cbn [encode].
  pose proof (match_number_str_Z z rest Hd) as Hm.
  destruct (str_Z_head z) as (c & r & E & Hc). rewrite E in *.
  cbn [Datatypes.app] in *. rewrite (scan_once_num _ _ Hc), Hm. reflexivity.
Qed.

Lemma reads_back_str s : reads_back (JStr s).
Proof.
  intros lvl rest [|fuel] Hwf _ Hf; [simpl in Hf; lia|]. cbn [encode wf_json] in *.
  unfold encode_str. cbn [Datatypes.app]. rewrite <- List.app_assoc.
  cbn [Datatypes.app]. rewrite scan_once_str, scanstring_escaped; [reflexivity|exact Hwf|].
  rewrite length_app. pose proof (escaped_length s). simpl. lia.
Qed.

Lemma encode_str_read_back k rest :
  plain_str k = true ->
  exists r,
    encode_str k ++ rest = 34%N :: r
    /\ py_scanstring (S (List.length r)) r = Some (k, rest).
Proof.
  intros Hk. unfold encode_str. cbn [Datatypes.app]. rewrite <- List.app_assoc.
  cbn [Datatypes.app]. eexists. split; [reflexivity|].
  apply scanstring_escaped; [exact Hk|].
  rewrite length_app. pose proof (escaped_length k). simpl. lia.
Qed.

(** *** Arrays and objects *)

Lemma array_read_back lvl rest : forall xs x acc fuel,
  Forall reads_back (x :: xs) ->
  forallb wf_json (x :: xs) = true ->
  need_items (x :: xs) <= fuel ->
  JSONArray fuel
    (encode (S lvl) x ++ encode_more_items lvl xs
     ++ newline_indent lvl ++ u "]" ++ rest) acc
  = Some (JList (acc ++ x :: xs), rest).
Proof.
  induction xs as [|y ys IH]; intros x acc fuel HF Hwf Hfuel;
    inversion HF as [|? ? Hx HF']; subst;
    cbn [forallb] in Hwf; apply andb_true_iff in Hwf as [Wx Wxs];
    cbn [need_items fold_right] in Hfuel;
    (destruct fuel as [|fuel]; [lia|]); rewrite JSONArray_S.
  - cbn [encode_more_items flat_map Datatypes.app].
    rewrite (Hx (S lvl) (newline_indent lvl ++ u "]" ++ rest) fuel Wx eq_refl
                ltac:(lia)).
    change (u "]" ++ rest) with (93%N :: rest).
    rewrite skip_ws_indent by reflexivity. reflexivity.
  - unfold encode_more_items. cbn [flat_map]. fold (encode_more_items lvl ys).
    repeat rewrite <- List.app_assoc.
    change (u "," ++ newline_indent (S lvl) ++ encode (S lvl) y
            ++ encode_more_items lvl ys ++ newline_indent lvl ++ u "]" ++ rest)
      with (44%N :: newline_indent (S lvl) ++ encode (S lvl) y
            ++ encode_more_items lvl ys ++ newline_indent lvl ++ u "]" ++ rest).
    rewrite (Hx (S lvl)
                (44%N :: newline_indent (S lvl) ++ encode (S lvl) y
                 ++ encode_more_items lvl ys ++ newline_indent lvl ++ u "]" ++ rest)
                fuel Wx eq_refl ltac:(lia)).
    cbn [skip_ws]. change (is_ws 44) with false. cbv iota.
    change (N.eqb 44 93) with false. change (N.eqb 44 44) with true. cbv iota.
    destruct (encode_head (S lvl) y) as (c & r & E & Hc & _).
    rewrite E. cbn [Datatypes.app]. rewrite skip_ws_indent by exact Hc.
    change (c :: r ++ encode_more_items lvl ys ++ newline_indent lvl ++ u "]" ++ rest)
      with ((c :: r) ++ encode_more_items lvl ys ++ newline_indent lvl ++ u "]" ++ rest).
    rewrite <- E.
    rewrite (IH y (acc ++ [x]) fuel HF' Wxs ltac:(cbn [need_items fold_right]; lia)).
    now rewrite <- List.app_assoc.
Qed.

Lemma skip_ws_head c r : is_ws c = false -> skip_ws (c :: r) = c :: r.
Proof. intros H. cbn [skip_ws]. now rewrite H. Qed.

Lemma skip_ws_space r : skip_ws (32%N :: r) = skip_ws r.
Proof. reflexivity. Qed.

Lemma skip_ws_encode lvl v rest : skip_ws (encode lvl v ++ rest) = encode lvl v ++ rest.
Proof.
  destruct (encode_head lvl v) as (c & r & E & Hc & _). rewrite E.
  cbn [Datatypes.app]. now apply skip_ws_head.
Qed.

Lemma object_read_back lvl rest : forall ms k x acc fuel,
  Forall (fun kv => reads_back (snd kv)) ((k, x) :: ms) ->
  forallb (fun kv => plain_str (fst kv) && wf_json (snd kv)) ((k, x) :: ms) = true ->
  need_members ((k, x) :: ms) <= fuel ->
  exists r,
    encode_str k ++ u ": " ++ encode (S lvl) x ++ encode_more_members lvl ms
    ++ newline_indent lvl ++ u "}" ++ rest = 34%N :: r
    /\ JSONObject fuel r acc
       = Some (JObj (dict_of_pairs (acc ++ (k, x) :: ms)), rest).
Proof.
  induction ms as [|[k' y] ms IH]; intros k x acc fuel HF Hwf Hfuel;
    inversion HF as [|? ? Hx HF']; subst; cbn [snd] in Hx;
    cbn [forallb fst snd] in Hwf; apply andb_true_iff in Hwf as [Wkx Wms];
    apply andb_true_iff in Wkx as [Wk Wx];
    cbn [need_members fold_right snd] in Hfuel;
    (destruct fuel as [|fuel]; [lia|]).
  - cbn [encode_more_members flat_map Datatypes.app].
    destruct (encode_str_read_back k
                (u ": " ++ encode (S lvl) x ++ newline_indent lvl ++ u "}" ++ rest) Wk)
      as (r & Er & Hscan).
    exists r. split; [exact Er|]. rewrite JSONObject_S, Hscan.
    change (u ": " ++ encode (S lvl) x ++ newline_indent lvl ++ u "}" ++ rest)
      with (58%N :: 32%N :: encode (S lvl) x ++ newline_indent lvl ++ u "}" ++ rest).
    rewrite (@skip_ws_head 58 _ eq_refl). cbv iota beta.
    rewrite skip_ws_space, skip_ws_encode.
    rewrite (Hx (S lvl) (newline_indent lvl ++ u "}" ++ rest) fuel Wx eq_refl
                ltac:(lia)).
    change (u "}" ++ rest) with (125%N :: rest).
    rewrite skip_ws_indent by reflexivity. reflexivity.
  - unfold encode_more_members. cbn [flat_map fst snd].
    fold (encode_more_members lvl ms). repeat rewrite <- List.app_assoc.
    destruct (IH k' y (acc ++ [(k, x)]) fuel HF' Wms
                ltac:(cbn [need_members fold_right snd]; lia))
      as (r' & Er' & Hobj).
    set (more := u "," ++ newline_indent (S lvl) ++ encode_str k' ++ u ": "
                 ++ encode (S lvl) y ++ encode_more_members lvl ms
                 ++ newline_indent lvl ++ u "}" ++ rest).
    destruct (encode_str_read_back k (u ": " ++ encode (S lvl) x ++ more) Wk)
      as (r & Er & Hscan).
    exists r. split; [exact Er|]. rewrite JSONObject_S, Hscan.
    change (u ": " ++ encode (S lvl) x ++ more)
      with (58%N :: 32%N :: encode (S lvl) x ++ more).
    rewrite (@skip_ws_head 58 _ eq_refl). cbv iota beta.
    rewrite skip_ws_space, skip_ws_encode.
    rewrite (Hx (S lvl) more fuel Wx eq_refl ltac:(lia)).
    unfold more.
    change (u "," ++ newline_indent (S lvl) ++ encode_str k' ++ u ": "
            ++ encode (S lvl) y ++ encode_more_members lvl ms
            ++ newline_indent lvl ++ u "}" ++ rest)
      with (44%N :: newline_indent (S lvl) ++ encode_str k' ++ u ": "
            ++ encode (S lvl) y ++ encode_more_members lvl ms
            ++ newline_indent lvl ++ u "}" ++ rest).
    rewrite (@skip_ws_head 44 _ eq_refl). cbv iota beta.
    change (N.eqb 44 125) with false. change (N.eqb 44 44) with true. cbv iota.
    rewrite Er'. rewrite skip_ws_indent by reflexivity. cbv iota beta.
    rewrite Hobj. now rewrite <- List.app_assoc.
Qed.

(** *** Dicts with each key once *)

Lemma existsb_key_In k (keys : list pystr) :
  existsb (pystr_eqb k) keys = false -> ~ In k keys.
Proof.
  intros H Hin. assert (T : existsb (pystr_eqb k) keys = true).
  { apply existsb_exists. exists k. split; [exact Hin|apply pystr_eqb_refl]. }
  congruence.
Qed.

Lemma unique_keys_NoDup {V} (d : list (pystr * V)) :
  unique_keys d = true -> NoDup (map fst d).
Proof.
  induction d as [|[k v] d IH]; simpl; intros H; [constructor|].
  apply andb_true_iff in H as [Hk Hd]. apply negb_true_iff in Hk.
  constructor; [now apply existsb_key_In|now apply IH].
Qed.

Lemma dict_set_fresh {V} k (v : V) d :
  ~ In k (map fst d) -> dict_set k v d = d ++ [(k, v)].
Proof.
  induction d as [|[k' w] d IH]; simpl; intros H; [reflexivity|].
  destruct (pystr_eqb k k') eqn:E.
  - apply pystr_eqb_eq in E. subst. tauto.
  - rewrite IH; [reflexivity|tauto].
Qed.

Lemma dict_of_pairs_unique {V} (ms : list (pystr * V)) :
  unique_keys ms = true -> dict_of_pairs ms = ms.
Proof.
  intros H. apply unique_keys_NoDup in H. unfold dict_of_pairs.
  enough (G : forall acc,
             NoDup (map fst (acc ++ ms)) ->
             fold_left (fun d kv => dict_set (fst kv) (snd kv) d) ms acc = acc ++ ms)
    by (apply (G []); exact H).
  clear H. induction ms as [|[k v] ms IH]; intros acc H; simpl.
  - now rewrite List.app_nil_r.
  - rewrite dict_set_fresh.
    + rewrite IH; rewrite <- List.app_assoc; [reflexivity|exact H].
    + rewrite map_app in H. simpl in H. apply NoDup_remove_2 in H.
      intros Hin. apply H. apply in_or_app. now left.
Qed.

(** *** Every well-formed value is read back *)

Lemma jvalue_induction (P : jvalue -> Prop) :
  P JNull -> (forall b, P (JBool b)) -> (forall z, P (JInt z)) ->
  (forall s, P (JStr s)) ->
  (forall l, Forall P l -> P (JList l)) ->
  (forall ms, Forall (fun kv => P (snd kv)) ms -> P (JObj ms)) ->
  forall v, P v.
Proof.
  intros Hn Hb Hi Hs Hl Ho. fix IH 1. intros [|b|z|s|l|ms].
  - exact Hn.
  - apply Hb.
  - apply Hi.
  - apply Hs.
  - apply Hl. induction l as [|x l IHl]; constructor; [apply IH|exact IHl].
  - apply Ho. induction ms as [|[k x] ms IHms]; constructor;
      [apply IH|exact IHms].
Qed.

Lemma all_read_back v : reads_back v.
Proof.
  induction v as [|b|z|s|l IHl|ms IHms] using jvalue_induction.
  - apply reads_back_null.
  - apply reads_back_bool.
  - apply reads_back_int.
  - apply reads_back_str.
  - intros lvl rest fuel Hwf _ Hf. rewrite need_list in Hf.
    destruct fuel as [|fuel]; [lia|]. apply le_S_n in Hf.
    destruct l as [|x xs]; [reflexivity|].
    rewrite encode_list_cons. repeat rewrite <- List.app_assoc.
    change (u "[" ++ newline_indent (S lvl) ++ encode (S lvl) x
            ++ encode_more_items lvl xs ++ newline_indent lvl ++ u "]" ++ rest)
      with (91%N :: newline_indent (S lvl) ++ encode (S lvl) x
            ++ encode_more_items lvl xs ++ newline_indent lvl ++ u "]" ++ rest).
    rewrite scan_once_arr.
    pose proof (@array_read_back lvl rest xs x [] fuel IHl Hwf Hf) as HA.
    destruct (encode_head (S lvl) x) as (c & r & E & Hc & H93).
    rewrite E in *. cbn [Datatypes.app] in *.
    rewrite skip_ws_indent by exact Hc. rewrite H93. exact HA.
  - intros lvl rest fuel Hwf _ Hf. rewrite need_obj in Hf.
    destruct fuel as [|fuel]; [lia|]. apply le_S_n in Hf.
    destruct ms as [|[k x] ms]; [reflexivity|].
    cbn [wf_json] in Hwf. apply andb_true_iff in Hwf as [Hu Hwf].
    rewrite encode_obj_cons. repeat rewrite <- List.app_assoc.
    change (u "{" ++ newline_indent (S lvl) ++ encode_str k ++ u ": "
            ++ encode (S lvl) x ++ encode_more_members lvl ms
            ++ newline_indent lvl ++ u "}" ++ rest)
      with (123%N :: newline_indent (S lvl) ++ encode_str k ++ u ": "
            ++ encode (S lvl) x ++ encode_more_members lvl ms
            ++ newline_indent lvl ++ u "}" ++ rest).
    rewrite scan_once_obj.
    destruct (@object_read_back lvl rest ms k x [] fuel IHms Hwf Hf)
      as (r & Er & HO).
    rewrite Er. rewrite skip_ws_indent by reflexivity.
    change (N.eqb 34 125) with false. change (N.eqb 34 34) with true. cbv iota.
    rewrite HO. cbn [Datatypes.app]. now rewrite (dict_of_pairs_unique _ Hu).
Qed.

Lemma encode_more_items_length lvl xs :
  (forall x, In x xs -> need x <= List.length (encode (S lvl) x)) ->
  need_items xs <= List.length (encode_more_items lvl xs).
Proof.
  induction xs as [|y ys IH]; intros H; [apply Nat.le_0_l|].
  unfold encode_more_items. cbn [flat_map need_items fold_right].
  fold (encode_more_items lvl ys). fold (need_items ys).
  repeat rewrite length_app.
  assert (Hy := H y (or_introl eq_refl)).
  assert (Hys : need_items ys <= List.length (encode_more_items lvl ys))
    by (apply IH; intros x Hx; apply H; now right).
  change (List.length (u ",")) with 1. lia.
Qed.

Lemma encode_more_members_length lvl ms :
  (forall kv, In kv ms -> need (snd kv) <= List.length (encode (S lvl) (snd kv))) ->
  need_members ms <= List.length (encode_more_members lvl ms).
Proof.
  induction ms as [|[k y] ms IH]; intros H; [apply Nat.le_0_l|].
  unfold encode_more_members. cbn [flat_map need_members fold_right fst snd].
  fold (encode_more_members lvl ms). fold (need_members ms).
  repeat rewrite length_app.
  assert (Hy := H (k, y) (or_introl eq_refl)). cbn [snd] in Hy.
  assert (Hms : need_members ms <= List.length (encode_more_members lvl ms))
    by (apply IH; intros x Hx; apply H; now right).
  change (List.length (u ",")) with 1. lia.
Qed.

Lemma need_le_length v : forall lvl, need v <= List.length (encode lvl v).
Proof.
  induction v as [|b|z|s|l IHl|ms IHms] using jvalue_induction; intros lvl;
    try (destruct (encode_head lvl JNull) as (c & r & E & _);
         rewrite E; simpl; lia).
  - destruct b; simpl; lia.
  - destruct (encode_head lvl (JInt z)) as (c & r & E & _). rewrite E. simpl. lia.
  - destruct (encode_head lvl (JStr s)) as (c & r & E & _). rewrite E. simpl. lia.
  - rewrite need_list. destruct l as [|x xs]; [simpl; lia|].
    rewrite encode_list_cons. repeat rewrite length_app.
    inversion IHl as [|? ? Hx Hxs]; subst.
    assert (Hm : need_items xs <= List.length (encode_more_items lvl xs)).
    { apply encode_more_items_length. intros y Hy.
      rewrite Forall_forall in Hxs. now apply Hxs. }
    specialize (Hx (S lvl)). cbn [need_items fold_right]. fold (need_items xs).
    change (List.length (u "[")) with 1. unfold newline_indent. simpl List.length. lia.
  - rewrite need_obj. destruct ms as [|[k x] ms]; [simpl; lia|].
    rewrite encode_obj_cons. repeat rewrite length_app.
    inversion IHms as [|? ? Hx Hxs]; subst. cbn [snd] in Hx.
    assert (Hm : need_members ms <= List.length (encode_more_members lvl ms)).
    { apply encode_more_members_length. intros y Hy.
      rewrite Forall_forall in Hxs. now apply Hxs. }
    specialize (Hx (S lvl)). cbn [need_members fold_right snd]. fold (need_members ms).
    change (List.length (u "{")) with 1. unfold newline_indent. simpl List.length. lia.
Qed.

(** [json.loads(json.dumps(v, indent=2))] is [v]. *)
Lemma json_loads_dumps v : wf_json v = true -> json_loads (json_dumps v) = Some v.
Proof.
  intros Hwf. unfold json_loads, json_dumps.
  rewrite <- (List.app_nil_r (encode 0 v)) at 2. rewrite skip_ws_encode.
  rewrite (@all_read_back v 0 [] _ Hwf eq_refl); [reflexivity|].
  pose proof (need_le_length v 0). lia.
Qed.

(** *** The exported log *)

Lemma ascii_plain s : Forall (fun c => (c < 128)%N) s -> plain_str s = true.
Proof.
  intros H. unfold plain_str. apply andb_true_iff. split.
  - apply forallb_forall. rewrite Forall_forall in H. intros c Hc.
    apply N.ltb_lt. specialize (H c Hc). simpl in H. lia.
  - induction H as [|c s Hc Hs IH]; [reflexivity|]. simpl. rewrite IH.
    destruct s; [reflexivity|].
    assert (Hh : is_high_surrogate c = false).
    { unfold is_high_surrogate. apply andb_false_iff. left. apply N.leb_gt. lia. }
    now rewrite Hh.
Qed.

Lemma ascii_uint_chars d : Forall (fun c => (c < 128)%N) (uint_chars d).
Proof. induction d; simpl; constructor; (lia || assumption). Qed.

Lemma ascii_zfill w n : Forall (fun c => (c < 128)%N) (zfill w n).
Proof.
  unfold zfill. apply Forall_app. split; [|apply ascii_uint_chars].
  apply Forall_forall. intros c Hc. apply repeat_spec in Hc. subst. simpl. lia.
Qed.

Lemma ascii_isoformat t : Forall (fun c => (c < 128)%N) (isoformat t).
Proof.
  unfold isoformat, date_part, time_part, fraction.
  destruct (N.eqb (microsecond t) 0);
    repeat first
      [ apply ascii_zfill
      | apply Forall_nil
      | match goal with
        | |- Forall _ (u _) => vm_compute; repeat constructor
        end
      | apply Forall_app; split ].
Qed.

Lemma dict_of_json_dict (d : dict) :
  dict_of_json (map (fun kv => (fst kv, dval_json (snd kv))) d) = Some d.
Proof.
  induction d as [|[k v] d IH]; [reflexivity|]. simpl. rewrite IH.
  now destruct v.
Qed.

Lemma entry_of_json_entry e : entry_of_json (entry_json e) = Some (content e).
Proof.
  unfold entry_of_json, entry_json.
  change (dict_get (u "event") _) with (Some (JStr (event e))).
  change (dict_get (u "step") _) with (Some (JInt (Z.of_nat (step e)))).
  change (dict_get (u "details") _) with (Some (dict_json (details e))).
  cbv iota beta. unfold dict_json. rewrite dict_of_json_dict, Nat2Z.id.
  reflexivity.
Qed.

Lemma entries_of_json_entries l :
  entries_of_json (map entry_json l) = Some (map content l).
Proof.
  induction l as [|e l IH]; [reflexivity|]. simpl map. cbn [entries_of_json].
  now rewrite entry_of_json_entry, IH.
Qed.

Lemma unique_keys_map {V W} (f : V -> W) (d : list (pystr * V)) :
  unique_keys (map (fun kv => (fst kv, f (snd kv))) d) = unique_keys d.
Proof.
  induction d as [|[k v] d IH]; [reflexivity|]. simpl. rewrite IH.
  now rewrite map_map.
Qed.

Lemma forallb_map_compose {A B} (f : A -> B) (p : B -> bool) (l : list A) :
  forallb p (map f l) = forallb (fun x => p (f x)) l.
Proof. induction l as [|x l IH]; [reflexivity|]. simpl. now rewrite IH. Qed.

Lemma wf_dict_json d : wf_dict d = true -> wf_json (dict_json d) = true.
Proof.
  unfold wf_dict, dict_json. cbn [wf_json]. intros H.
  apply andb_true_iff in H as [Hu Hv]. rewrite unique_keys_map, Hu. simpl.
  rewrite forallb_map_compose. rewrite forallb_forall in *. intros [k v] Hin.
  specialize (Hv _ Hin). simpl in *. now destruct v.
Qed.

Lemma wf_entry_json e : wf_entry e = true -> wf_json (entry_json e) = true.
Proof.
  unfold wf_entry. intros H. apply andb_true_iff in H as [He Hd].
  unfold entry_json.
  change (wf_json (JObj ?ms)) with
    (unique_keys ms
     && forallb (fun kv => plain_str (fst kv) && wf_json (snd kv)) ms).
  cbn [forallb fst snd wf_json].
  rewrite (ascii_plain (ascii_isoformat (timestamp e))), He, (wf_dict_json _ Hd).
  vm_compute. reflexivity.
Qed.

Lemma wf_log_json s :
  forallb wf_entry (session_logs s) = true ->
  wf_json (JObj [(u "session_start", JStr (isoformat (session_start_time s)));
                 (u "logs", JList (map entry_json (session_logs s)))]) = true.
Proof.
  intros H.
  change (wf_json (JObj ?ms)) with
    (unique_keys ms
     && forallb (fun kv => plain_str (fst kv) && wf_json (snd kv)) ms).
  cbn [forallb fst snd]. cbn [wf_json].
  rewrite (ascii_plain (ascii_isoformat (session_start_time s))).
  assert (Hl : forallb wf_json (map entry_json (session_logs s)) = true).
  { rewrite forallb_map_compose. rewrite forallb_forall in *. intros e He.
    apply wf_entry_json. now apply H. }
  rewrite Hl. vm_compute. reflexivity.
Qed.

(** Parsing the rendered log gives the entries back, in order. *)
Lemma read_back_log s :
  forallb wf_entry (session_logs s) = true ->
  read_back (_format_logs_as_json s) = Some (contents s).
Proof.
  intros H. unfold read_back, _format_logs_as_json.
  rewrite (json_loads_dumps _ (wf_log_json s H)).
  change (dict_get (u "logs") _)
    with (Some (JList (map entry_json (session_logs s)))).
  cbv iota beta. apply entries_of_json_entries.
Qed.

Lemma log_all_contents env calls : forall s,
  forallb wf_entry (session_logs s) = true ->
  forallb wf_call calls = true ->
  forallb wf_entry (session_logs (state_of (log_all env calls s))) = true
  /\ contents (state_of (log_all env calls s)) =
       contents s
       ++ map (fun c => (fst c, current_step s + 1, or_empty (snd c))) calls.
Proof.
  induction calls as [|c calls IH]; intros s Hs Hc.
  - simpl. split; [exact Hs|]. now rewrite List.app_nil_r.
  - cbn [forallb] in Hc. apply andb_true_iff in Hc as [Hc Hcs].
    cbn [log_all]. unfold bind. rewrite log_event_run.
    match goal with |- context [log_all env calls ?s1] => set (s' := s1) end.
    assert (Hs' : forallb wf_entry (session_logs s') = true).
    { unfold s'. cbn [session_logs set_session_logs].
      rewrite forallb_app, Hs. cbn [forallb andb].
      change (wf_entry _) with (wf_call c). now rewrite Hc. }
    destruct (IH s' Hs' Hcs) as [W L]. split; [exact W|].
    rewrite L. unfold s', contents. cbn. rewrite map_app. cbn.
    now rewrite <- List.app_assoc.
Qed.




(* ===================================================================== *)
(** ** Cleanup on the paths without a signal *)
(* ===================================================================== *)

Lemma appends_stretches {A} allowed (m : M A) :
  appends allowed m -> stretches allowed m.
Proof. intros H s. apply grows_extends, H. Qed.

Lemma stretches_bind {A B} allowed (m : M A) (k : A -> M B) :
  stretches allowed m -> (forall a, stretches allowed (k a)) ->
  stretches allowed (bind m k).
Proof.
  intros Hm Hk s. unfold bind. specialize (Hm s).
  destruct (m s) as [a s1|e s1|s1]; simpl in *; try exact Hm.
  eapply extends_trans; [exact Hm|apply Hk].
Qed.

Lemma stretches_try_except {A} allowed (body : M A) handler :
  stretches allowed body -> (forall e, stretches allowed (handler e)) ->
  stretches allowed (try_except body handler).
Proof.
  intros Hb Hh s. unfold try_except. specialize (Hb s).
  destruct (body s) as [a s1|e s1|s1]; simpl in *; try exact Hb.
  eapply extends_trans; [exact Hb|apply Hh].
Qed.

Lemma quiet_run_step env fuel stp :
  no_signals env -> appends not_cleanup (run_step env fuel stp).
Proof.
  intros Hq. apply appends_run_step; try reflexivity.
  now apply appends_time_sleep_quiet.
Qed.

Lemma quiet_step_loop env fuel steps :
  no_signals env -> stretches not_cleanup (step_loop env fuel steps).
Proof.
  intros Hq. induction fuel as [|fuel IH]; intros s; [apply extends_refl|].
  rewrite step_loop_S.
  destruct (Nat.ltb (current_step s) (List.length steps) && is_running s);
    [|apply extends_refl].
  destruct (nth_error steps (current_step s)) as [stp|]; [|apply extends_refl].
  pose proof (grows_extends (quiet_run_step fuel stp Hq s)) as G.
  destruct (run_step env fuel stp s) as [[|] s1|e s1|s1]; simpl in G |- *;
    try exact G.
  eapply extends_trans; [exact G|].
  specialize (IH (set_current_step (current_step s1 + 1) s1)).
  exact IH.
Qed.

Lemma filter_not_cleanup l :
  Forall (permits not_cleanup) l -> filter is_cleanup_entry l = [].
Proof.
  induction l as [|e l IH]; intros F; [reflexivity|].
  inversion F as [|? ? Ha F']; subst. simpl. rewrite (IH F').
  unfold permits, not_cleanup in Ha. apply negb_true_iff in Ha.
  unfold is_cleanup_entry. now rewrite Ha.
Qed.

Lemma extends_cleanup_runs s s' :
  extends not_cleanup s s' -> cleanup_runs s' = cleanup_runs s.
Proof.
  intros (added & L & F). unfold cleanup_runs.
  now rewrite L, filter_app, (filter_not_cleanup F), List.app_nil_r.
Qed.

(** One call of [cleanup] logs its closing message once. *)
Lemma cleanup_runs_cleanup env s s' :
  cleanup env s = Done tt s' -> cleanup_runs s' = S (cleanup_runs s).
Proof.
  unfold cleanup. intros H. bind_inv H. injection H0 as <- <-.
  assert (G : extends not_cleanup s s1).
  { apply grows_extends.
    destruct (session_logs s) as [|e l].
    - injection H1 as _ <-. apply grows_refl.
    - eapply appends_Done; [|exact H1].
      pose proof (@appends_show_export_options env not_cleanup
                    eq_refl eq_refl eq_refl eq_refl).
      frame. }
  apply extends_cleanup_runs in G.
  apply print_message_logs in H as (L & _).
  unfold cleanup_runs in *. rewrite L, filter_app, length_app, G.
  simpl. lia.
Qed.

(** Whatever the environment, [run_automation] lets no exception
    escape. *)
Lemma run_automation_never_raises env fuel steps s e s' :
  run_automation env fuel steps s <> Raised e s'.
Proof.
  unfold run_automation, try_finally, try_except.
  match goal with
  | |- context [match ?b s with _ => _ end] => destruct (b s) as [a s1|e1 s1|s1]
  end.
  - destruct (returns_cleanup env s1) as ([] & s2 & E). unfold bind.
    rewrite E. discriminate.
  - match goal with
    | |- context [match ?h s1 with _ => _ end] =>
        assert (R : returns h) by total;
        destruct (R s1) as ([] & s2 & E); rewrite E
    end.
    destruct (returns_cleanup env s2) as ([] & s3 & E3). unfold bind.
    rewrite E3. discriminate.
  - discriminate.
Qed.

(** On the paths without a signal (natural completion, a confirmed
    [exit], an unexpected failure) a run that ends has run [cleanup]
    exactly once. *)
Lemma cleanup_once_without_signals env fuel steps s s' :
  no_signals env ->
  run_automation env fuel steps s = Done tt s' ->
  cleanup_runs s' = S (cleanup_runs s).
Proof.
  intros Hq. unfold run_automation, try_finally.
  match goal with
  | |- match ?b s with _ => _ end = _ -> _ =>
      assert (G : stretches not_cleanup b);
      [|specialize (G s); destruct (b s) as [a s1|e1 s1|s1]]
  end.
  - apply stretches_try_except.
    + pose proof (appends_time_sleep_quiet not_cleanup Hq) as Hs.
      pose proof (@appends_show_export_options env not_cleanup
                    eq_refl eq_refl eq_refl eq_refl) as Hx.
      apply stretches_bind;
        [apply appends_stretches; unfold show_keyboard_shortcuts; frame|].
      intros _. apply stretches_bind; [apply appends_stretches, Hs|].
      intros _. apply stretches_bind; [now apply quiet_step_loop|].
      intros _. apply appends_stretches. frame.
    + intros e. apply appends_stretches. frame.
  - intros H. bind_inv H. injection H as _ <-. destruct a0.
    simpl in G. apply extends_cleanup_runs in G.
    erewrite cleanup_runs_cleanup by eassumption. now rewrite G.
  - intros H. bind_inv H. discriminate H.
  - discriminate.
Qed.

(* ===================================================================== *)
(** ** What lasts through a run *)
(* ===================================================================== *)

Lemma quiet_change_same s s' :
  current_step s' = current_step s ->
  is_running s' = is_running s ->
  session_start_time s' = session_start_time s ->
  step_history s' = step_history s ->
  sleeps s' = sleeps s ->
  session_logs s' = session_logs s ->
  files s' = files s ->
  quiet_change s s'.
Proof.
  intros C F T H P L W. repeat split; try assumption;
    exists []; now rewrite List.app_nil_r.
Qed.

#[export] Existing Instance stable_composes.

Section Sequences.

Variable R : AutomationUI -> AutomationUI -> Prop.
Context {R_composes : Composes R}.

Lemma always_ret {A} (a : A) : always R (ret a).
Proof. intros s. apply composes_refl. Qed.

Lemma always_get : always R get.
Proof. intros s. apply composes_refl. Qed.

Lemma always_raise {A} (e : exn) : always R (@raise A e).
Proof. intros s. apply composes_refl. Qed.

Lemma always_out_of_fuel {A} : always R (@out_of_fuel A).
Proof. intros s. apply composes_refl. Qed.

Lemma always_bind {A B} (m : M A) (k : A -> M B) :
  always R m -> (forall a, always R (k a)) -> always R (bind m k).
Proof.
  intros Hm Hk s. unfold bind. specialize (Hm s).
  destruct (m s) as [a s'|e s'|s']; simpl in *; try exact Hm.
  eapply composes_trans; [exact Hm|apply Hk].
Qed.

Lemma always_try_except {A} (body : M A) (handler : exn -> M A) :
  always R body -> (forall e, always R (handler e)) ->
  always R (try_except body handler).
Proof.
  intros Hb Hh s. unfold try_except. specialize (Hb s).
  destruct (body s) as [a s'|e s'|s']; simpl in *; try exact Hb.
  eapply composes_trans; [exact Hb|apply Hh].
Qed.

Lemma always_try_finally {A} (body : M A) (fin : M unit) :
  always R body -> always R fin -> always R (try_finally body fin).
Proof.
  intros Hb Hf s. unfold try_finally, bind. specialize (Hb s).
  destruct (body s) as [a s'|e s'|s']; simpl in *; try exact Hb;
    (eapply composes_trans; [exact Hb|]); specialize (Hf s');
    destruct (fin s'); exact Hf.
Qed.

End Sequences.

Section Always.

Variable env : Env.
Variable R : AutomationUI -> AutomationUI -> Prop.
Context {R_stable : Stable R}.

Lemma always_console_print r : always R (console_print r).
Proof. intros s. apply stable_quiet, quiet_change_same; reflexivity. Qed.

Lemma always_datetime_now : always R (datetime_now env).
Proof. intros s. apply stable_quiet, quiet_change_same; reflexivity. Qed.

Lemma always_Confirm_ask p : always R (Confirm_ask env p).
Proof. intros s. apply stable_quiet, quiet_change_same; reflexivity. Qed.

Lemma always_Prompt_ask p : always R (Prompt_ask env p).
Proof. intros s. apply stable_quiet, quiet_change_same; reflexivity. Qed.

Lemma always_write_file path content : always R (write_file env path content).
Proof.
  intros s. apply stable_quiet. unfold write_file.
  destruct (file_system env (writes s)); simpl.
  - apply quiet_change_same; reflexivity.
  - repeat split; try reflexivity; [exists []; now rewrite List.app_nil_r|].
    eexists. reflexivity.
Qed.

Lemma always_log_event ev d : always R (log_event env ev d).
Proof.
  intros s. apply stable_quiet. rewrite log_event_run. simpl.
  repeat split; try reflexivity; [eexists; reflexivity|].
  exists []. now rewrite List.app_nil_r.
Qed.

Lemma always_check_keyboard_input : always R (check_keyboard_input env).
Proof.
  intros s. apply stable_quiet. unfold check_keyboard_input.
  destruct (keyboard env (polls s)) as [b|]; [destruct (decode_utf8 b)|];
    apply quiet_change_same; reflexivity.
Qed.

End Always.

Create HintDb walk.

#[export] Hint Resolve always_ret always_get always_raise always_out_of_fuel
  always_console_print always_datetime_now always_Confirm_ask
  always_Prompt_ask always_write_file always_log_event
  always_check_keyboard_input : walk.

#[export] Hint Extern 1 (Stable _) => exact _ : walk.
#[export] Hint Extern 1 (Composes _) => exact _ : walk.

(** Walks through the body of a method, as [frame] does, for a relation
    that is stable. *)
Ltac walk :=
  repeat first
    [ solve [auto 3 with walk nocore]
    | apply always_bind; [exact _| |intros ?]
    | apply always_try_except; [exact _| |intros ?]
    | match goal with
      | |- always _ (if ?b then _ else _) => destruct b
      | |- always _ (match ?x with _ => _ end) => destruct x
      end
    | progress cbv zeta ].

Section Run.

Variable env : Env.
Variable R : AutomationUI -> AutomationUI -> Prop.
Context {R_stable : Stable R}.

Lemma always_print_message message level : always R (print_message env message level).
Proof. unfold print_message. walk. Qed.

Hint Resolve always_print_message : walk.

Lemma always_export_logs format : always R (export_logs env format).
Proof. unfold export_logs. walk. Qed.

Hint Resolve always_export_logs : walk.

Lemma always_show_export_options : always R (show_export_options env).
Proof. unfold show_export_options. walk. Qed.

Hint Resolve always_show_export_options : walk.

Lemma always_cleanup : always R (cleanup env).
Proof. unfold cleanup. walk. Qed.

Hint Resolve always_cleanup : walk.

(** The handler is the one place that clears the running flag. *)
Lemma always_handle_interrupt :
  (forall s, R s (set_is_running false s)) -> always R (handle_interrupt env).
Proof.
  intros R_off. unfold handle_interrupt.
  apply always_bind; [exact _|exact R_off|]. intros _. walk.
Qed.

(** A pause that is over has been counted; without a signal that is all
    it does. *)
Hypothesis R_pause : forall s, R s (set_sleeps (S (sleeps s)) s).

Lemma always_time_sleep :
  (forall s, R s (set_is_running false s)) -> always R (time_sleep env).
Proof.
  intros R_off s.
  change (time_sleep env s)
    with ((if signal_at env (sleeps s) then handle_interrupt env else ret tt)
            (set_sleeps (S (sleeps s)) s)).
  eapply composes_trans; [apply R_pause|].
  destruct (signal_at env (sleeps s));
    [now apply always_handle_interrupt|apply composes_refl].
Qed.

Lemma always_time_sleep_quiet : no_signals env -> always R (time_sleep env).
Proof. intros Hq s. rewrite (time_sleep_quiet _ Hq). apply R_pause. Qed.

(** The calls downstream of a sleep, for either kind of sleep. *)
Hypothesis R_sleep : always R (time_sleep env).

Hint Resolve R_sleep : walk.

Lemma always_display_header : always R (display_header env).
Proof. unfold display_header. walk. Qed.

Lemma always_display_progress d : always R (display_progress env d).
Proof. unfold display_progress. walk. Qed.

Lemma always_display_help stp : always R (display_help env stp).
Proof. unfold display_help. walk. Qed.

Hint Resolve always_display_header always_display_progress
  always_display_help : walk.

Lemma always_wait_for_action fuel : always R (wait_for_action env fuel).
Proof.
  induction fuel as [|fuel IH]; simpl; [apply always_out_of_fuel; exact _|]. walk.
Qed.

Hint Resolve always_wait_for_action : walk.

Lemma always_show_action_menu fuel : always R (show_action_menu env fuel).
Proof. unfold show_action_menu. walk. Qed.

Hint Resolve always_show_action_menu : walk.

Lemma always_dispatch stp action : always R (dispatch env stp action).
Proof. unfold dispatch. walk. Qed.

Hint Resolve always_dispatch : walk.

Lemma always_action_loop fuel stp : always R (action_loop env fuel stp).
Proof.
  induction fuel as [|fuel IH]; simpl; [apply always_out_of_fuel; exact _|]. walk.
Qed.

Hint Resolve always_action_loop : walk.

Lemma always_run_step fuel stp : always R (run_step env fuel stp).
Proof. unfold run_step, create_step_panel. walk. Qed.

Hint Resolve always_run_step : walk.

(** The loop of [run_automation] is the one place that moves the step
    index. *)
Hypothesis R_next : forall s, R s (set_current_step (current_step s + 1) s).

Lemma always_step_loop fuel steps : always R (step_loop env fuel steps).
Proof.
  induction fuel as [|fuel IH]; simpl; [apply always_out_of_fuel; exact _|].
  apply always_bind; [exact _|apply always_get; exact _|]. intros s0.
  destruct (Nat.ltb (current_step s0) (List.length steps) && is_running s0);
    [|apply always_ret; exact _].
  destruct (nth_error steps (current_step s0)) as [stp|];
    [|apply always_raise; exact _].
  apply always_bind; [exact _|apply always_run_step|].
  intros [|]; [|apply always_ret; exact _].
  apply always_bind; [exact _|exact R_next|]. intros _. exact IH.
Qed.

Hint Resolve always_step_loop : walk.

Lemma always_run_automation fuel steps : always R (run_automation env fuel steps).
Proof.
  unfold run_automation, show_keyboard_shortcuts.
  apply always_try_finally; [exact _| |apply always_cleanup]. walk.
Qed.

End Run.

#[export] Instance lasting_stable : Stable lasting.
Proof.
  split; [split|].
  - intros s. repeat split; try reflexivity; try tauto;
      exists []; now rewrite List.app_nil_r.
  - intros s1 s2 s3 (T1 & H1 & F1 & (a1 & L1) & (w1 & W1))
                    (T2 & H2 & F2 & (a2 & L2) & (w2 & W2)).
    repeat split; try congruence; try tauto.
    + exists (a1 ++ a2). now rewrite L2, L1, List.app_assoc.
    + exists (w1 ++ w2). now rewrite W2, W1, List.app_assoc.
  - intros s s' (_ & F & T & H & _ & L & W). repeat split; try assumption.
    congruence.
Qed.

#[export] Instance same_flag_stable : Stable same_flag.
Proof.
  split; [split|].
  - intros s. reflexivity.
  - unfold same_flag. intros s1 s2 s3 H1 H2. congruence.
  - intros s s' (_ & F & _). exact F.
Qed.

#[export] Instance same_sleeps_stable : Stable same_sleeps.
Proof.
  split; [split|].
  - intros s. reflexivity.
  - unfold same_sleeps. intros s1 s2 s3 H1 H2. congruence.
  - intros s s' (_ & _ & _ & _ & P & _). exact P.
Qed.

Lemma lasting_off s : lasting s (set_is_running false s).
Proof.
  repeat split; try reflexivity; exists []; now rewrite List.app_nil_r.
Qed.

Lemma lasting_next s : lasting s (set_current_step (current_step s + 1) s).
Proof.
  repeat split; try reflexivity; try tauto; exists []; now rewrite List.app_nil_r.
Qed.

Lemma lasting_pause s : lasting s (set_sleeps (S (sleeps s)) s).
Proof.
  repeat split; try reflexivity; try tauto; exists []; now rewrite List.app_nil_r.
Qed.


(** X2. Without a signal nothing clears the running flag: at the end of
    [run_automation], also after a confirmed [exit] or an unexpected
    error, [is_running] is what it was at the start. *)
Theorem running_flag_survives_without_signals
    (env : Env) (fuel : nat) (steps : list Step) (s : AutomationUI)
    (Hquiet : no_signals env) :
  is_running (state_of (run_automation env fuel steps s)) = is_running s.
Proof.
  apply (@always_run_automation env same_flag same_flag_stable).
  - apply always_time_sleep_quiet; [reflexivity|exact Hquiet].
  - reflexivity.
Qed.

Lemma running_flag_survives_without_signals_witness :
  is_running (state_of (run_automation quit_env 5 example_steps
                                       (state_of (__init__ quit_env)))) = true.
Proof.
  apply (@running_flag_survives_without_signals quit_env 5 example_steps
           (state_of (__init__ quit_env))).
  intros i. reflexivity.
Defined.

(* ===================================================================== *)
(** ** The run around its loop *)
(* ===================================================================== *)

(** [run_automation] reaches its loop, whatever happens during the
    opening pause; the rest of the run starts from there. *)
Lemma prelude_run {A} env (rest : M A) s :
  (show_keyboard_shortcuts ;; time_sleep env ;; rest) s = rest (loop_entry env s).
Proof.
  pose proof (loop_entry_Done env s) as E. unfold bind in *.
  destruct (show_keyboard_shortcuts s) as [[] s0|e0 s0|s0]; try discriminate E.
  now rewrite E.
Qed.

Lemma run_automation_loop_entry env fuel steps s :
  run_automation env fuel steps s
  = try_finally
      (try_except (step_loop env fuel steps ;; completion env steps) (failure env))
      (cleanup env) (loop_entry env s).
Proof.
  unfold run_automation, try_finally, try_except. now rewrite prelude_run.
Qed.

Lemma step_loop_stopped env fuel steps s :
  is_running s = false -> step_loop env (S fuel) steps s = Done tt s.
Proof. intros H. now rewrite step_loop_S, H, andb_false_r. Qed.

Lemma handle_interrupt_off env s :
  is_running (state_of (handle_interrupt env s)) = false.
Proof.
  unfold handle_interrupt. unfold bind at 1, modify.
  assert (H : always lasting
                (print_message env ([10%N] ++ u "Gracefully shutting down...")
                               (u "warning") ;; cleanup env)).
  { apply always_bind; [exact _|apply always_print_message; exact _|].
    intros _. apply always_cleanup; exact _. }
  now apply (H (set_is_running false s)).
Qed.

Lemma loop_entry_lasting env s : lasting s (loop_entry env s).
Proof.
  unfold loop_entry.
  assert (H : always lasting (show_keyboard_shortcuts ;; time_sleep env)).
  { apply always_bind; [exact _|apply always_console_print; exact _|].
    intros _. apply always_time_sleep; [exact _|exact lasting_pause|exact lasting_off]. }
  apply H.
Qed.

Lemma loop_entry_stopped env s :
  is_running s = false \/ signal_at env (sleeps s) = true ->
  is_running (loop_entry env s) = false.
Proof.
  intros [H|H].
  - now apply (loop_entry_lasting env s).
  - unfold loop_entry, show_keyboard_shortcuts, console_print.
    unfold bind at 1, modify. unfold time_sleep.
    unfold bind at 1, get. unfold bind at 1, modify.
    cbn [sleeps set_console]. rewrite H. apply handle_interrupt_off.
Qed.

Lemma returns_completion env steps : returns (completion env steps).
Proof. unfold completion. total. Qed.

Lemma post_run {A} (m : M A) s a s1 (Q : A -> AutomationUI -> Prop) :
  m s = Done a s1 -> Q a s1 -> post m s Q.
Proof. intros E H. now exists a, s1. Qed.

(** X3. A run that is stopped before its loop starts no step.  When the
    running flag is already off, or a signal arrives during the opening
    pause, [run_automation] returns without logging any ["Step started"],
    with the step index where it was and the flag off. *)
Theorem stopped_before_the_loop_starts_no_step
    (env : Env) (fuel : nat) (steps : list Step) (s : AutomationUI)
    (Hstop : is_running s = false \/ signal_at env (sleeps s) = true) :
  exists s' added,
    run_automation env (S fuel) steps s = Done tt s'
    /\ session_logs s' = session_logs s ++ added
    /\ count_event (u "Step started") added = 0
    /\ current_step s' = current_step s
    /\ is_running s' = false.
Proof.
  pose proof (loop_entry_stopped env s Hstop) as Hoff.
  pose proof (loop_entry_quiet env s) as G0.
  pose proof (@appends_show_export_options env not_step_started
                eq_refl eq_refl eq_refl eq_refl) as Hx.
  destruct (returns_completion env steps (loop_entry env s)) as ([] & s1 & E1).
  assert (G1 : grows not_step_started (loop_entry env s) s1).
  { eapply appends_Done; [|exact E1]. unfold completion. frame. }
  assert (F1 : lasting (loop_entry env s) s1).
  { assert (H : always lasting (completion env steps)).
    { unfold completion. pose proof (@always_show_export_options env lasting _).
      pose proof (@always_print_message env lasting _). walk. }
    specialize (H (loop_entry env s)). now rewrite E1 in H. }
  destruct (returns_cleanup env s1) as ([] & s2 & E2).
  assert (G2 : grows not_step_started s1 s2).
  { eapply appends_Done; [|exact E2]. apply appends_cleanup; reflexivity. }
  assert (F2 : lasting s1 s2).
  { pose proof (@always_cleanup env lasting _ s1) as H. now rewrite E2 in H. }
  destruct (grows_not_step_started
              (grows_trans G0 (grows_trans G1 G2))) as (added & L & N & C).
  exists s2, added. split.
  - rewrite run_automation_loop_entry.
    eapply try_finally_Done; [|exact E2]. apply try_except_Done.
    eapply bind_run; [apply step_loop_stopped, Hoff|exact E1].
  - split; [exact L|]. split; [exact N|]. split; [exact C|].
    apply F2. now apply F1.
Qed.

Lemma stopped_before_the_loop_starts_no_step_witness :
  exists s' added,
    run_automation early_interrupt_env 1 example_steps
                   (state_of (__init__ early_interrupt_env)) = Done tt s'
    /\ session_logs s' = session_logs (state_of (__init__ early_interrupt_env)) ++ added
    /\ count_event (u "Step started") added = 0
    /\ current_step s' = 0
    /\ is_running s' = false.
Proof.
  apply (@stopped_before_the_loop_starts_no_step early_interrupt_env 0 example_steps
           (state_of (__init__ early_interrupt_env))).
  right. reflexivity.
Defined.

Lemma post_weaken {A} (m : M A) s (Q Q' : A -> AutomationUI -> Prop) :
  post m s Q -> (forall a s', Q a s' -> Q' a s') -> post m s Q'.
Proof. intros (a & s' & E & H) W. exists a, s'. split; [exact E|now apply W]. Qed.

Lemma post_grows_always {A} allowed R (m : M A) s (Q : A -> AutomationUI -> Prop) :
  returns m -> appends allowed m -> always R m ->
  (forall a s', grows allowed s s' -> R s s' -> Q a s') ->
  post m s Q.
Proof.
  intros T G F H. destruct (T s) as (a & s' & E). exists a, s'.
  split; [exact E|]. apply H; [eapply appends_Done; eassumption|].
  specialize (F s). now rewrite E in F.
Qed.

(** What [cleanup] logs: whatever an accepted export writes, then its
    closing message.  With an empty log it asks nothing; when the export
    is declined nothing is written. *)
Lemma cleanup_logs env s :
  exists s' saved t,
    cleanup env s = Done tt s'
    /\ session_logs s' =
         session_logs s ++ saved
         ++ [message_entry t (current_step s + 1) (u "Cleanup completed") (u "info")]
    /\ Forall (fun e => step e = current_step s + 1
                        /\ permits export_or_message e) saved
    /\ current_step s' = current_step s
    /\ is_running s' = is_running s
    /\ (session_logs s = [] -> saved = [] /\ files s' = files s
                               /\ confirms s' = confirms s /\ prompts s' = prompts s)
    /\ (confirm_ask env (confirms s) = false ->
        saved = [] /\ files s' = files s /\ prompts s' = prompts s).
Proof.
  unfold cleanup. unfold bind at 1, get.
  destruct (session_logs s) as [|e0 l0] eqn:El.
  - unfold bind at 1, ret. eexists _, [], _. split; [reflexivity|].
    cbn. rewrite El. repeat split; try reflexivity; constructor.
  - unfold bind at 1. unfold bind at 1, Confirm_ask.
    destruct (confirm_ask env (confirms s)) eqn:Ec.
    + match goal with
      | |- context [show_export_options env ?s0] =>
          destruct (returns_show_export_options env s0) as ([] & s1 & E1);
          pose proof (@appends_show_export_options env export_or_message
                        eq_refl eq_refl eq_refl eq_refl s0) as G;
          pose proof (@always_show_export_options env same_flag _ s0) as F;
          rewrite E1 in G, F |- *
      end.
      destruct G as (C & saved & L & FA). cbn in C, L, FA, F.
      eexists _, saved, _. split; [reflexivity|]. cbn.
      rewrite L, C, El, <- List.app_assoc.
      repeat split; try reflexivity; try assumption; discriminate.
    + eexists _, [], _. unfold ret. split; [reflexivity|]. cbn. rewrite El.
      repeat split; try reflexivity; try constructor; discriminate.
Qed.

(** X4. On a list that is already exhausted (the empty list, or an index
    at or past the end) [run_automation] runs no step and reports
    completion: it returns, and after whatever a signal handler wrote
    during the opening pause it logs ["Automation completed"] with the
    length of the list and the success message, both under the step
    number of the index it found; then only the export offer and
    [cleanup] write.  The index is not changed. *)
Theorem exhausted_list_is_reported_complete
    (env : Env) (fuel : nat) (steps : list Step) (s : AutomationUI)
    (Hend : List.length steps <= current_step s) :
  exists s' before after,
    run_automation env (S fuel) steps s = Done tt s'
    /\ contents s' =
         contents s ++ map content before
         ++ [(u "Automation completed", current_step s + 1,
              [(u "total_steps", DInt (Z.of_nat (List.length steps)))]);
             (u "Message displayed", current_step s + 1,
              [(u "message",
                DStr ([127881%N] ++ u " Automation completed successfully!"));
               (u "level", DStr (u "success"))])]
         ++ map content after
    /\ Forall (permits export_or_message) before
    /\ Forall (permits export_or_message) after
    /\ (signal_at env (sleeps s) = false -> before = [])
    /\ current_step s' = current_step s.
Proof.
  destruct (time_sleep_logs env (set_console (console s ++ [ShortcutsPanel]) s))
    as (s0 & before & E0 & L0 & F0 & Q0 & C0).
  assert (Es0 : loop_entry env s = s0).
  { unfold loop_entry, show_keyboard_shortcuts, console_print.
    unfold bind, modify. now rewrite E0. }
  cbn in L0, F0, Q0, C0.
  enough (P : post (try_finally
                      (try_except (step_loop env (S fuel) steps ;; completion env steps)
                                  (failure env))
                      (cleanup env)) s0
                   (fun _ s' =>
                      exists after,
                        contents s' =
                          contents s0
                          ++ [(u "Automation completed", current_step s + 1,
                               [(u "total_steps", DInt (Z.of_nat (List.length steps)))]);
                              (u "Message displayed", current_step s + 1,
                               [(u "message",
                                 DStr ([127881%N] ++ u " Automation completed successfully!"));
                                (u "level", DStr (u "success"))])]
                          ++ map content after
                        /\ Forall (permits export_or_message) after
                        /\ current_step s' = current_step s)).
  { destruct P as ([] & s' & E & after & L & F & C).
    exists s', before, after. split; [now rewrite run_automation_loop_entry, Es0|].
    split.
    - rewrite L. unfold contents. rewrite L0, map_app.
      now rewrite <- List.app_assoc.
    - split; [eapply Forall_impl; [|exact F0]; now intros e [_ Ha]|].
      split; [exact F|]. split; [exact Q0|exact C]. }
  apply post_try_finally, post_try_except.
  apply post_bind, post_step_loop_end; [now rewrite C0|].
  unfold completion. apply post_bind, post_get.
  replace (Nat.leb (List.length steps) (current_step s0)) with true
    by (symmetry; apply Nat.leb_le; now rewrite C0).
  apply post_bind, post_log_event.
  apply post_bind, post_print_message. intros sm Lm Cm _ _. cbn in Lm, Cm.
  apply post_bind, post_console_print.
  apply post_bind, post_Confirm_ask.
  eapply (@post_grows _ export_or_message).
  { destruct (confirm_ask env _); total. }
  { destruct (confirm_ask env _);
      [apply appends_show_export_options; reflexivity|apply appends_ret]. }
  intros _ sx (Cx & ax & Lx & Fx). cbn in Cx, Lx.
  eapply (@post_grows _ export_or_message);
    [apply returns_cleanup|apply appends_cleanup; reflexivity|].
  intros _ sc (Cc & ac & Lc & Fc).
  exists (ax ++ ac). split; [|split].
  - unfold contents. rewrite Lc, Lx, Lm. repeat rewrite map_app. cbn.
    rewrite C0. repeat rewrite <- List.app_assoc. reflexivity.
  - apply Forall_app. split.
    + eapply Forall_impl; [|exact Fx]. now intros e [_ Ha].
    + eapply Forall_impl; [|exact Fc]. now intros e [_ Ha].
  - congruence.
Qed.

Lemma exhausted_list_is_reported_complete_witness :
  exists s' before after,
    run_automation enter_env 1 [] (state_of (__init__ enter_env)) = Done tt s'
    /\ contents s' =
         contents (state_of (__init__ enter_env)) ++ map content before
         ++ [(u "Automation completed", 1, [(u "total_steps", DInt 0)]);
             (u "Message displayed", 1,
              [(u "message",
                DStr ([127881%N] ++ u " Automation completed successfully!"));
               (u "level", DStr (u "success"))])]
         ++ map content after
    /\ current_step s' = 0.
Proof.
  destruct (@exhausted_list_is_reported_complete
              enter_env 0 [] (state_of (__init__ enter_env)) (Nat.le_0_l _))
    as (s' & before & after & Hrun & Hlog & _ & _ & _ & Hstep).
  exists s', before, after. split; [exact Hrun|]. split; [exact Hlog|exact Hstep].
Defined.

(** ** Any number of steps, each completed at once *)

Lemma skipn_cons {A} (x : A) r : forall n l,
  skipn n l = x :: r -> nth_error l n = Some x /\ skipn (S n) l = r.
Proof.
  induction n as [|n IH]; intros [|y l] H; simpl in H; try discriminate H.
  - injection H as -> ->. now split.
  - destruct (IH l H) as [H1 H2]. split; [exact H1|exact H2].
Qed.

Lemma step_loop_enters env : forall rest waits fuel steps s,
  no_signals env ->
  skipn (current_step s) steps = rest ->
  current_step s <= List.length steps ->
  is_running s = true ->
  List.length waits = List.length rest ->
  enters env (polls s) waits ->
  List.length rest + list_sum waits + 2 <= fuel ->
  post (step_loop env fuel steps) s (fun _ s' =>
    contents s' = contents s ++ all_step_contents rest (current_step s)
    /\ current_step s' = List.length steps
    /\ is_running s' = true).
Proof.
  induction rest as [|stp rest IH]; intros waits fuel steps s Hq Hs Hc Hr Hw Hk Hf.
  - destruct fuel as [|fuel]; [simpl in Hf; lia|].
    assert (Hl : List.length steps <= current_step s).
    { apply (f_equal (@List.length _)) in Hs. rewrite length_skipn in Hs.
      simpl in Hs. lia. }
    apply post_step_loop_end; [exact Hl|]. simpl.
    rewrite List.app_nil_r. repeat split; [lia|exact Hr].
  - destruct waits as [|k waits]; [discriminate Hw|].
    destruct Hk as [Hk Hks]. simpl in Hw, Hf.
    destruct (skipn_cons _ _ Hs) as [Hn Hs'].
    destruct fuel as [|fuel]; [lia|].
    eapply (@post_step_loop_round env fuel steps stp k);
      [exact Hq|exact Hn|exact Hr|exact Hk|lia|].
    intros s1 L1 C1 R1 P1.
    eapply post_weaken.
    + apply (IH waits fuel steps s1); try assumption.
      * rewrite C1, Nat.add_1_r. exact Hs'.
      * rewrite C1, Nat.add_1_r. apply Nat.le_succ_l, nth_error_Some.
        congruence.
      * lia.
      * now rewrite P1.
      * lia.
    + intros _ s' (L & C & R). split; [|split; assumption].
      rewrite L, L1, C1. cbn [all_step_contents].
      rewrite <- List.app_assoc. now rewrite (Nat.add_1_r (current_step s)).
Qed.



(* ===================================================================== *)
(** ** Exceptions *)
(* ===================================================================== *)

Lemma raises_only_returns {A} P (m : M A) : returns m -> raises_only P m.
Proof.
  intros T s e s' H. destruct (T s) as (a & s1 & E). congruence.
Qed.

Lemma raises_only_bind {A B} P (m : M A) (k : A -> M B) :
  raises_only P m -> (forall a, raises_only P (k a)) ->
  raises_only P (bind m k).
Proof.
  intros Hm Hk s e s'. unfold bind.
  destruct (m s) as [a s1|e1 s1|s1] eqn:E; intros H.
  - eapply Hk; eassumption.
  - injection H as <- <-. eapply Hm; eassumption.
  - discriminate H.
Qed.

Lemma raises_only_check_keyboard_input env :
  raises_only (bad_key env) (check_keyboard_input env).
Proof.
  intros s e s'. unfold check_keyboard_input.
  destruct (keyboard env (polls s)) as [b|] eqn:Hk; [|discriminate].
  unfold decode_utf8. destruct (N.ltb (Byte.to_N b) 128) eqn:Hb; [discriminate|].
  intros H. injection H as <- <-. exists b, (polls s).
  repeat split; [now apply N.ltb_ge|exact Hk].
Qed.

Lemma raises_only_wait_for_action env fuel :
  raises_only (bad_key env) (wait_for_action env fuel).
Proof.
  induction fuel as [|fuel IH]; simpl; [intros s e s' H; discriminate H|].
  apply raises_only_bind; [apply raises_only_check_keyboard_input|].
  intros action. destruct (truthy action).
  - apply raises_only_returns. total.
  - apply raises_only_bind; [apply raises_only_returns; total|].
    intros _. exact IH.
Qed.

Lemma raises_only_action_loop env fuel stp :
  raises_only (bad_key env) (action_loop env fuel stp).
Proof.
  induction fuel as [|fuel IH]; simpl; [intros s e s' H; discriminate H|].
  apply raises_only_bind.
  - unfold show_action_menu. apply raises_only_bind;
      [apply raises_only_returns; total|].
    intros _. apply raises_only_wait_for_action.
  - intros action. apply raises_only_bind;
      [apply raises_only_returns, returns_dispatch|].
    intros [b|]; [apply raises_only_returns; total|exact IH].
Qed.

Lemma raises_only_run_step env fuel stp :
  raises_only (bad_key env) (run_step env fuel stp).
Proof.
  unfold run_step.
  repeat (apply raises_only_bind;
          [apply raises_only_returns; unfold display_header, create_step_panel; total
          |intros ?]).
  apply raises_only_action_loop.
Qed.

Lemma raises_only_step_loop env fuel steps :
  raises_only (bad_key env) (step_loop env fuel steps).
Proof.
  induction fuel as [|fuel IH]; intros s e s'; [discriminate|].
  rewrite step_loop_S.
  destruct (Nat.ltb (current_step s) (List.length steps)) eqn:Hlt;
    [|discriminate].
  destruct (is_running s); [|discriminate]. cbn [andb].
  destruct (nth_error steps (current_step s)) as [stp|] eqn:Hn.
  - pose proof (@raises_only_run_step env fuel stp s) as Hr.
    destruct (run_step env fuel stp s) as [[|] s1|e1 s1|s1]; intros H.
    + eapply IH; eassumption.
    + discriminate H.
    + injection H as <- <-. now apply Hr.
    + discriminate H.
  - apply nth_error_None in Hn. apply Nat.ltb_lt in Hlt. lia.
Qed.




Lemma bind_Raised {A B} (m : M A) (k : A -> M B) s e s1 :
  m s = Raised e s1 -> bind m k s = Raised e s1.
Proof. intros E. unfold bind. now rewrite E. Qed.

Lemma try_except_Raised {A} (body : M A) handler s e s1 :
  body s = Raised e s1 -> try_except body handler s = handler e s1.
Proof. intros E. unfold try_except. now rewrite E. Qed.



(* ===================================================================== *)
(** ** Exports *)
(* ===================================================================== *)





(** *** The JSON text is ASCII *)

Lemma ascii_hex_digit d : (d < 16)%N -> (hex_digit d < 128)%N.
Proof. unfold hex_digit. destruct (N.ltb d 10); lia. Qed.

Lemma ascii_hex4 c : Forall (fun c => (c < 128)%N) (hex4 c).
Proof.
  unfold hex4. repeat constructor; apply ascii_hex_digit, N.mod_lt; discriminate.
Qed.

Lemma ascii_escape_char c : Forall (fun c => (c < 128)%N) (escape_char c).
Proof.
  unfold escape_char.
  repeat match goal with
  | |- Forall _ (if N.eqb c ?n then _ else _) =>
      destruct (N.eqb c n); [repeat constructor|]
  end.
  destruct (N.leb 32 c && N.leb c 126) eqn:E.
  { apply andb_true_iff in E as [_ E]. apply N.leb_le in E.
    constructor; [simpl; lia|constructor]. }
  destruct (N.ltb c 65536).
  - constructor; [reflexivity|]. constructor; [reflexivity|]. apply ascii_hex4.
  - cbv zeta. apply Forall_app. split;
      (constructor; [reflexivity|]; constructor; [reflexivity|]; apply ascii_hex4).
Qed.

Lemma ascii_encode_str s : Forall (fun c => (c < 128)%N) (encode_str s).
Proof.
  unfold encode_str. constructor; [reflexivity|]. apply Forall_app. split.
  - induction s as [|c s IH]; [constructor|]. simpl. apply Forall_app.
    split; [apply ascii_escape_char|exact IH].
  - repeat constructor.
Qed.

Lemma ascii_str_Z z : Forall (fun c => (c < 128)%N) (str_Z z).
Proof.
  destruct z; simpl; try apply ascii_uint_chars.
  constructor; [reflexivity|apply ascii_uint_chars].
Qed.

Lemma ascii_newline_indent lvl : Forall (fun c => (c < 128)%N) (newline_indent lvl).
Proof.
  unfold newline_indent. constructor; [reflexivity|].
  apply Forall_forall. intros c Hc. apply repeat_spec in Hc. now subst.
Qed.

Ltac ascii_parts :=
  repeat first
    [ apply ascii_newline_indent
    | apply ascii_encode_str
    | apply ascii_str_Z
    | assumption
    | match goal with
      | |- Forall _ (u _) => vm_compute; repeat constructor
      end
    | apply Forall_app; split ].

Lemma ascii_encode v : forall lvl, Forall (fun c => (c < 128)%N) (encode lvl v).
Proof.
  induction v as [|b|z|s|l IHl|ms IHms] using jvalue_induction; intros lvl.
  - vm_compute. repeat constructor.
  - destruct b; vm_compute; repeat constructor.
  - apply ascii_str_Z.
  - apply ascii_encode_str.
  - destruct l as [|x xs]; [vm_compute; repeat constructor|].
    rewrite encode_list_cons. inversion IHl as [|? ? Hx Hxs]; subst.
    assert (Hmore : Forall (fun c => (c < 128)%N) (encode_more_items lvl xs)).
    { unfold encode_more_items. clear Hx IHl.
      induction Hxs as [|y ys Hy Hys IH]; [constructor|]. cbn [flat_map].
      pose proof (Hy (S lvl)). ascii_parts. }
    pose proof (Hx (S lvl)). ascii_parts.
  - destruct ms as [|[k x] ms]; [vm_compute; repeat constructor|].
    rewrite encode_obj_cons. inversion IHms as [|? ? Hx Hxs]; subst.
    assert (Hmore : Forall (fun c => (c < 128)%N) (encode_more_members lvl ms)).
    { unfold encode_more_members. clear Hx IHms.
      induction Hxs as [|[k' y] ys Hy Hys IH]; [constructor|]. cbn [flat_map fst snd].
      pose proof (Hy (S lvl)). ascii_parts. }
    pose proof (Hx (S lvl)). ascii_parts.
Qed.

(** X11. Whatever the log holds, the text [_format_logs_as_json] renders
    is pure ASCII: every character of every string, whether emoji, an
    accented letter or a control character, is written as an escape. *)
Theorem exported_json_is_ascii (s : AutomationUI) :
  Forall (fun c => (c < 128)%N) (_format_logs_as_json s).
Proof. unfold _format_logs_as_json, json_dumps. apply ascii_encode. Qed.

(** *** The text rendering *)

Lemma join_cons sep : forall l a,
  join sep (a :: l) = a ++ flat_map (fun x => sep ++ x) l.
Proof.
  induction l as [|b l IH]; intros a.
  - simpl. now rewrite List.app_nil_r.
  - change (join sep (a :: b :: l)) with (a ++ sep ++ join sep (b :: l)).
    rewrite IH. cbn [flat_map]. now rewrite <- List.app_assoc.
Qed.

Lemma join_app sep l1 l2 :
  l1 <> [] ->
  join sep (l1 ++ l2) = join sep l1 ++ flat_map (fun x => sep ++ x) l2.
Proof.
  destruct l1 as [|a l1]; [contradiction|]. intros _.
  cbn [Datatypes.app]. repeat rewrite join_cons.
  now rewrite flat_map_app, List.app_assoc.
Qed.


(* ===================================================================== *)
(** ** The keyboard and the action menu *)
(* ===================================================================== *)

(** X13. One poll of the keyboard, for every byte [getch] can return.
    Without a pending key the poll answers [None]; a byte below 0x80
    answers what the documented mapping gives for it (Enter and the five
    letters in either case select an action, every other ASCII key
    answers [None]); a byte of 0x80 or above raises
    [UnicodeDecodeError].  In each case the poll consumes one keystroke
    reading and changes nothing else. *)
Theorem check_keyboard_input_by_byte (env : Env) (s : AutomationUI) :
  check_keyboard_input env s =
  match keyboard env (polls s) with
  | None => Done None (set_polls (S (polls s)) s)
  | Some b =>
      if N.ltb (Byte.to_N b) 128
      then Done (documented_action (Byte.to_N b)) (set_polls (S (polls s)) s)
      else Raised (UnicodeDecodeError b) (set_polls (S (polls s)) s)
  end.
Proof.
  destruct (keyboard env (polls s)) as [b|] eqn:Hk.
  - destruct (N.ltb (Byte.to_N b) 128) eqn:Hb.
    + apply (@check_keyboard_input_ascii env s b); [exact Hk|].
      unfold decode_utf8. now rewrite Hb.
    + unfold check_keyboard_input, decode_utf8. now rewrite Hk, Hb.
  - now apply check_keyboard_input_no_key.
Qed.

Lemma documented_action_ascii c a :
  documented_action c = Some a -> (c < 128)%N.
Proof.
  unfold documented_action.
  repeat match goal with
  | |- (if ?t then _ else _) = _ -> _ =>
      let E := fresh "E" in
      destruct t eqn:E;
      [intros _;
       repeat match goal with
       | H : (_ || _) = true |- _ => apply orb_true_iff in H as [H|H]
       end;
       match goal with H : N.eqb _ _ = true |- _ => apply N.eqb_eq in H; lia end|]
  end.
  discriminate.
Qed.

Lemma time_sleep_silent env s :
  signal_at env (sleeps s) = false ->
  time_sleep env s = Done tt (set_sleeps (S (sleeps s)) s).
Proof. intros H. unfold time_sleep, bind, get, modify. now rewrite H. Qed.

Lemma wait_for_action_first_key env b a k : forall fuel s,
  (forall i, i < k -> signal_at env (sleeps s + i) = false) ->
  (forall i, i < k -> idle_poll (keyboard env (polls s + i)) = true) ->
  keyboard env (polls s + k) = Some b ->
  documented_action (Byte.to_N b) = Some a ->
  k < fuel ->
  exists s',
    wait_for_action env fuel s = Done a s'
    /\ session_logs s' =
         session_logs s
         ++ [mkEntry (now env (ticks s)) (u "Action selected") (current_step s + 1)
                     [(u "action", DStr a)]]
    /\ console s' = console s
    /\ polls s' = polls s + S k
    /\ sleeps s' = sleeps s + k
    /\ current_step s' = current_step s
    /\ is_running s' = is_running s.
Proof.
  induction k as [|k IH]; intros fuel s Hsig Hidle Hkey Ha Hf;
    (destruct fuel as [|fuel]; [lia|]).
  - rewrite Nat.add_0_r in Hkey.
    rewrite (@wait_for_action_selected env fuel s b (Byte.to_N b) a Hkey);
      [|unfold decode_utf8;
        now rewrite (proj2 (N.ltb_lt _ _) (documented_action_ascii _ Ha))
       |exact Ha].
    eexists. split; [reflexivity|]. cbn. repeat split; try reflexivity; lia.
  - rewrite wait_for_action_idle
      by (rewrite <- (Nat.add_0_r (polls s)); apply Hidle; lia).
    unfold bind. rewrite time_sleep_silent
      by (cbn; rewrite <- (Nat.add_0_r (sleeps s)); apply Hsig; lia).
    destruct (IH fuel (set_sleeps (S (sleeps (set_polls (S (polls s)) s)))
                                  (set_polls (S (polls s)) s)))
      as (s' & E & L & O & P & Z & C & F); cbn [polls sleeps set_polls set_sleeps].
    + intros i Hi. replace (S (sleeps s) + i) with (sleeps s + S i) by lia.
      apply Hsig. lia.
    + intros i Hi. replace (S (polls s) + i) with (polls s + S i) by lia.
      apply Hidle. lia.
    + replace (S (polls s) + k) with (polls s + S k) by lia. exact Hkey.
    + exact Ha.
    + lia.
    + exists s'. split; [exact E|]. cbn in L, O, P, Z, C, F.
      repeat split; try assumption; lia.
Qed.

(** X14. The action menu returns the first recognized key.  When [k]
    polls find no key or a key outside the mapping, no signal arrives
    during the [k] pauses between them, and the next poll reads a key of
    the mapping, [show_action_menu] prints its table once, polls [k + 1]
    times, pauses [k] times and returns that key's action, logging one
    ["Action selected"] entry with it.  The ignored keys leave no trace
    in the log. *)
Theorem show_action_menu_returns_the_first_recognized_key
    (env : Env) (b : byte) (a : pystr) (k fuel : nat) (s : AutomationUI)
    (Hsilent : forall i, i < k -> signal_at env (sleeps s + i) = false)
    (Hidle : forall i, i < k -> idle_poll (keyboard env (polls s + i)) = true)
    (Hkey : keyboard env (polls s + k) = Some b)
    (Haction : documented_action (Byte.to_N b) = Some a)
    (Hfuel : k < fuel) :
  exists s',
    show_action_menu env fuel s = Done a s'
    /\ session_logs s' =
         session_logs s
         ++ [mkEntry (now env (ticks s)) (u "Action selected") (current_step s + 1)
                     [(u "action", DStr a)]]
    /\ console s' = console s ++ [ActionTable]
    /\ polls s' = polls s + S k
    /\ sleeps s' = sleeps s + k
    /\ current_step s' = current_step s
    /\ is_running s' = is_running s.
Proof.
  destruct (@wait_for_action_first_key env b a k fuel
              (set_console (console s ++ [ActionTable]) s))
    as (s' & E & L & O & P & Z & C & F); try assumption.
  exists s'. split; [|now repeat split].
  unfold show_action_menu, bind, console_print, modify. exact E.
Qed.

Lemma show_action_menu_returns_the_first_recognized_key_witness :
  exists s',
    show_action_menu export_env 3 (state_of (__init__ export_env)) = Done (u "logs") s'
    /\ polls s' = 3
    /\ sleeps s' = 2
    /\ map event (session_logs s') = [u "Session started"; u "Action selected"].
Proof.
  assert (Hsilent : forall i, i < 2 ->
            signal_at export_env (sleeps (state_of (__init__ export_env)) + i) = false)
    by (intros i _; reflexivity).
  assert (Hidle : forall i, i < 2 ->
            idle_poll (keyboard export_env
                         (polls (state_of (__init__ export_env)) + i)) = true).
  { intros [|[|i]] Hi; [reflexivity|reflexivity|lia]. }
  destruct (@show_action_menu_returns_the_first_recognized_key
              export_env x4c (u "logs") 2 3 (state_of (__init__ export_env))
              Hsilent Hidle eq_refl eq_refl (Nat.lt_succ_diag_r 2))
    as (s' & Hrun & Hlog & _ & Hpolls & Hsleeps & _).
  exists s'. split; [exact Hrun|]. split; [exact Hpolls|]. split; [exact Hsleeps|].
  rewrite Hlog. reflexivity.
Defined.

(** ** What the actions do to a step *)

Lemma count_keeps_open ev l :
  keeps_open ev [] = false ->
  Forall (fun e => step e = 0 + step e /\ permits keeps_open e) l ->
  count_event ev l = 0.
Proof.
  intros Hev F. unfold count_event.
  induction l as [|e l IH]; [reflexivity|].
  inversion F as [|? ? [_ Ha] F']; subst. simpl.
  destruct (pystr_eqb (event e) ev) eqn:E; [|now apply IH].
  apply pystr_eqb_eq in E. subst ev. unfold permits, keeps_open in *.
  congruence.
Qed.

(** X15. Only [proceed] and a confirmed [exit] end a step.  Any other
    action ([retry], [help], [logs], an [exit] that is not confirmed, and
    [summary] or any other string, for which there is no branch) sends
    [run_step] round its loop again, whatever happens meanwhile (a
    failed export, a signal during the pause of a retry): the step index
    is unchanged, and no ["Step started"], ["Step completed"] or
    ["Session terminated by user"] is logged. *)
Theorem other_actions_keep_the_step_open
    (env : Env) (stp : Step) (action : pystr) (s : AutomationUI)
    (Hproceed : action <> u "proceed")
    (Hexit : action <> u "exit" \/ confirm_ask env (confirms s) = false) :
  exists s' added,
    dispatch env stp action s = Done None s'
    /\ current_step s' = current_step s
    /\ session_logs s' = session_logs s ++ added
    /\ count_event (u "Step started") added = 0
    /\ count_event (u "Step completed") added = 0
    /\ count_event (u "Session terminated by user") added = 0.
Proof.
  assert (R : exists s', dispatch env stp action s = Done None s').
  { unfold dispatch.
    destruct (pystr_eqb action (u "proceed")) eqn:E1;
      [apply pystr_eqb_eq in E1; contradiction|].
    destruct (pystr_eqb action (u "retry")).
    { match goal with
      | |- exists s', ?m s = _ =>
          assert (T : returns m) by total; destruct (T s) as ([r|] & s' & E)
      end; [|now exists s'].
      exfalso. bind_inv E. discriminate E. }
    destruct (pystr_eqb action (u "help")).
    { eexists. reflexivity. }
    destruct (pystr_eqb action (u "logs")).
    { destruct (returns_show_export_options env s) as ([] & s' & E).
      exists s'. unfold bind. now rewrite E. }
    destruct (pystr_eqb action (u "exit")) eqn:E5; [|now exists s].
    apply pystr_eqb_eq in E5. destruct Hexit as [Hexit|Hexit]; [contradiction|].
    unfold bind, Confirm_ask. rewrite Hexit. eexists. reflexivity. }
  destruct R as (s' & E).
  assert (G : grows keeps_open s s').
  { assert (A : appends keeps_open
                  (if pystr_eqb action (u "proceed") then ret None
                   else if pystr_eqb action (u "exit") then
                          _ <- Confirm_ask env (u "[bold red]Are you sure you want to exit?") ;;
                          ret None
                        else dispatch env stp action)).
    { pose proof (@appends_time_sleep env keeps_open
                    eq_refl eq_refl eq_refl eq_refl eq_refl eq_refl) as Hs.
      pose proof (@appends_show_export_options env keeps_open
                    eq_refl eq_refl eq_refl eq_refl) as Hx.
      pose proof (fun d => @appends_display_progress env keeps_open Hs
                             eq_refl eq_refl d) as Hp.
      pose proof (@appends_display_help env keeps_open eq_refl stp) as Hh.
      destruct (pystr_eqb action (u "proceed")) eqn:E1; [apply appends_ret|].
      destruct (pystr_eqb action (u "exit")) eqn:E5; [frame|].
      unfold dispatch. rewrite E1, E5. frame. }
    specialize (A s).
    destruct (pystr_eqb action (u "proceed")) eqn:E1;
      [apply pystr_eqb_eq in E1; contradiction|].
    destruct (pystr_eqb action (u "exit")) eqn:E5.
    - apply pystr_eqb_eq in E5. destruct Hexit as [Hexit|Hexit]; [contradiction|].
      subst action. unfold dispatch in E. cbn [pystr_eqb] in E.
      change (pystr_eqb (u "exit") (u "proceed")) with false in E.
      change (pystr_eqb (u "exit") (u "retry")) with false in E.
      change (pystr_eqb (u "exit") (u "help")) with false in E.
      change (pystr_eqb (u "exit") (u "logs")) with false in E.
      change (pystr_eqb (u "exit") (u "exit")) with true in E.
      cbv iota in E. unfold bind, Confirm_ask in E, A. rewrite Hexit in E.
      injection E as <-. exact A.
    - now rewrite E in A. }
  destruct G as (C & added & L & F).
  exists s', added. split; [exact E|]. split; [exact C|]. split; [exact L|].
  assert (F' : Forall (fun e => step e = 0 + step e /\ permits keeps_open e) added).
  { eapply Forall_impl; [|exact F]. simpl. intros e [_ Ha]. now split. }
  repeat split; apply count_keeps_open; (reflexivity || exact F').
Qed.

Lemma other_actions_keep_the_step_open_witness :
  exists s' added,
    dispatch readonly_env configuration_step (u "logs")
             (state_of (__init__ readonly_env)) = Done None s'
    /\ current_step s' = 0
    /\ session_logs s' = session_logs (state_of (__init__ readonly_env)) ++ added
    /\ count_event (u "Step completed") added = 0.
Proof.
  assert (Hproceed : u "logs" <> u "proceed")
    by (intros H; vm_compute in H; discriminate H).
  assert (Hexit : u "logs" <> u "exit")
    by (intros H; vm_compute in H; discriminate H).
  destruct (@other_actions_keep_the_step_open
              readonly_env configuration_step (u "logs")
              (state_of (__init__ readonly_env)) Hproceed (or_introl Hexit))
    as (s' & added & Hrun & Hstep & Hlog & _ & Hdone & _).
  exists s', added. split; [exact Hrun|]. split; [exact Hstep|].
  split; [exact Hlog|exact Hdone].
Defined.

(** X16. The [s] key, listed as "Show summary" among the shortcuts,
    shows nothing.  Read at the action menu, it is logged as
    ["Action selected"] with the action [summary]; [run_step] has no
    branch for it, so the loop prints the menu again and waits for the
    next key, with nothing else changed. *)
Theorem summary_key_only_brings_the_menu_back
    (env : Env) (fuel : nat) (stp : Step) (s : AutomationUI) (b : byte)
    (Hkey : keyboard env (polls s) = Some b)
    (Hsummary : documented_action (Byte.to_N b) = Some (u "summary")) :
  exists s',
    action_loop env (S (S fuel)) stp s = action_loop env (S fuel) stp s'
    /\ session_logs s' =
         session_logs s
         ++ [mkEntry (now env (ticks s)) (u "Action selected") (current_step s + 1)
                     [(u "action", DStr (u "summary"))]]
    /\ console s' = console s ++ [ActionTable]
    /\ polls s' = S (polls s)
    /\ sleeps s' = sleeps s
    /\ current_step s' = current_step s
    /\ is_running s' = is_running s.
Proof.
  destruct (@wait_for_action_first_key env b (u "summary") 0 (S fuel)
              (set_console (console s ++ [ActionTable]) s))
    as (s' & E & L & O & P & Z & C & F);
    [intros i Hi; lia|intros i Hi; lia
    |cbn; now rewrite Nat.add_0_r|exact Hsummary|lia|].
  cbn in L, O, P, Z, C, F.
  exists s'. split.
  - change (action_loop env (S (S fuel)) stp s)
      with ((action <- show_action_menu env (S fuel) ;;
             r <- dispatch env stp action ;;
             match r with
             | Some b => ret b
             | None => action_loop env (S fuel) stp
             end) s).
    eapply bind_run.
    + unfold show_action_menu, bind, console_print, modify. exact E.
    + reflexivity.
  - repeat split; try assumption; lia.
Qed.

Lemma summary_key_only_brings_the_menu_back_witness :
  exists s',
    action_loop summary_env 2 configuration_step (state_of (__init__ summary_env))
    = action_loop summary_env 1 configuration_step s'
    /\ map event (session_logs s') = [u "Session started"; u "Action selected"]
    /\ current_step s' = 0.
Proof.
  destruct (@summary_key_only_brings_the_menu_back
              summary_env 0 configuration_step (state_of (__init__ summary_env))
              x73 eq_refl eq_refl)
    as (s' & Hrun & Hlog & _ & _ & _ & Hstep & _).
  exists s'. split; [exact Hrun|]. split; [|exact Hstep].
  rewrite Hlog. reflexivity.
Defined.

(** X17. [run_step] returns only right after logging its verdict.  When
    it returns [True] the last entry of the log is ["Step completed"],
    when it returns [False] it is ["Session terminated by user"]; the
    entry carries the number of the step, which [run_step] has not
    changed.  However many retries, help requests, exports and signals
    came in between, ["Step started"] was logged exactly once. *)
Theorem run_step_returns_right_after_its_verdict
    (env : Env) (fuel : nat) (stp : Step) (s s' : AutomationUI) (ok : bool)
    (Hrun : run_step env fuel stp s = Done ok s') :
  exists earlier verdict added,
    session_logs s' = earlier ++ [verdict]
    /\ event verdict =
         (if ok then u "Step completed" else u "Session terminated by user")
    /\ step verdict = current_step s + 1
    /\ current_step s' = current_step s
    /\ session_logs s' = session_logs s ++ added
    /\ count_event (u "Step started") added = 1.
Proof.
  pose proof (run_step_keeps_index env fuel stp s) as C. rewrite Hrun in C.
  simpl in C.
  destruct (run_step_starts_once _ _ _ _ Hrun) as (added & La & Na).
  destruct ok.
  - destruct (run_step_true _ _ _ _ Hrun) as (l & e & L & Ev & St).
    exists l, e, added. rewrite <- C. now repeat split.
  - destruct (run_step_false _ _ _ _ Hrun) as (l & t & L).
    eexists l, _, added. split; [exact L|]. rewrite <- C. now repeat split.
Qed.

Lemma run_step_returns_right_after_its_verdict_witness :
  exists earlier verdict added,
    session_logs (state_of (run_step quit_env 3 configuration_step
                                     (state_of (__init__ quit_env))))
    = earlier ++ [verdict]
    /\ event verdict = u "Session terminated by user"
    /\ step verdict = 1
    /\ session_logs (state_of (run_step quit_env 3 configuration_step
                                        (state_of (__init__ quit_env))))
       = session_logs (state_of (__init__ quit_env)) ++ added
    /\ count_event (u "Step started") added = 1.
Proof.
  assert (H : run_step quit_env 3 configuration_step (state_of (__init__ quit_env))
              = Done false (state_of (run_step quit_env 3 configuration_step
                                               (state_of (__init__ quit_env)))))
    by (vm_compute; reflexivity).
  destruct (@run_step_returns_right_after_its_verdict
              quit_env 3 configuration_step _ _ false H)
    as (earlier & verdict & added & Hlast & Hev & Hst & _ & Hlog & Hone).
  exists earlier, verdict, added.
  split; [exact Hlast|]. split; [exact Hev|]. split; [exact Hst|].
  split; [exact Hlog|exact Hone].
Defined.

(* ===================================================================== *)
(** ** Messages, cleanup and the signal handler *)
(* ===================================================================== *)



(** X19. [cleanup] without an export.  When the log is empty it asks
    nothing; when the operator declines the offer it asks once.  In both
    cases it writes no file, asks for no format, appends its closing
    message as the only new entry, and leaves the step index and the
    running flag as they were. *)
Theorem cleanup_without_export
    (env : Env) (s : AutomationUI)
    (Hnone : session_logs s = [] \/ confirm_ask env (confirms s) = false) :
  exists s' t,
    cleanup env s = Done tt s'
    /\ session_logs s' =
         session_logs s
         ++ [message_entry t (current_step s + 1) (u "Cleanup completed") (u "info")]
    /\ files s' = files s
    /\ prompts s' = prompts s
    /\ (session_logs s = [] -> confirms s' = confirms s)
    /\ current_step s' = current_step s
    /\ is_running s' = is_running s.
Proof.
  destruct (cleanup_logs env s)
    as (s' & saved & t & E & L & _ & C & F & Hempty & Hdeclined).
  assert (H : saved = [] /\ files s' = files s /\ prompts s' = prompts s).
  { destruct Hnone as [H|H]; [destruct (Hempty H) as (? & ? & _ & ?)|
                              destruct (Hdeclined H) as (? & ? & ?)]; now repeat split. }
  destruct H as (-> & W & P).
  exists s', t. split; [exact E|]. split; [exact L|].
  split; [exact W|]. split; [exact P|]. split; [|now split].
  intros H. now destruct (Hempty H) as (_ & _ & ? & _).
Qed.

Lemma cleanup_without_export_witness :
  exists s' t,
    cleanup enter_env (state_of (__init__ enter_env)) = Done tt s'
    /\ session_logs s' =
         session_logs (state_of (__init__ enter_env))
         ++ [message_entry t 1 (u "Cleanup completed") (u "info")]
    /\ files s' = [].
Proof.
  destruct (@cleanup_without_export enter_env (state_of (__init__ enter_env))
              (or_intror eq_refl))
    as (s' & t & Hrun & Hlog & Hfiles & _).
  exists s', t. split; [exact Hrun|]. split; [exact Hlog|exact Hfiles].
Defined.

(** X20. The signal handler returns to the code it interrupted.  It
    clears the running flag, logs the warning
    ["Gracefully shutting down..."], runs [cleanup] (which may export and
    then logs its closing message) and returns; the step index is
    unchanged.  Nothing in it ends the process or the step that was
    running. *)
Theorem handle_interrupt_clears_the_flag_and_returns
    (env : Env) (s : AutomationUI) :
  exists s' saved t1 t2,
    handle_interrupt env s = Done tt s'
    /\ is_running s' = false
    /\ current_step s' = current_step s
    /\ session_logs s' =
         session_logs s
         ++ [message_entry t1 (current_step s + 1)
                           ([10%N] ++ u "Gracefully shutting down...") (u "warning")]
         ++ saved
         ++ [message_entry t2 (current_step s + 1) (u "Cleanup completed") (u "info")]
    /\ Forall (permits export_or_message) saved.
Proof.
  destruct (returns_print_message env ([10%N] ++ u "Gracefully shutting down...")
              (u "warning") (set_is_running false s)) as ([] & sm & Em).
  apply print_message_logs in Em as Hm. destruct Hm as (Lm & Cm & Rm & _).
  destruct (cleanup_logs env sm) as (sc & saved & t & Ec & Lc & Fc & Cc & Rc & _).
  cbn in Lm, Cm, Rm.
  exists sc, saved, (now env (ticks s)), t. split; [|split; [|split; [|split]]].
  - unfold handle_interrupt. eapply bind_run; [reflexivity|].
    eapply bind_run; [exact Em|exact Ec].
  - congruence.
  - congruence.
  - rewrite Lc, Lm, Cm. now rewrite <- List.app_assoc.
  - eapply Forall_impl; [|exact Fc]. now intros e [_ Ha].
Qed.

(** ** How often [cleanup] runs *)

Lemma signals_between_same env a : signals_between env a a = 0.
Proof. unfold signals_between. now rewrite Nat.sub_diag. Qed.

Lemma signals_between_split env a b c :
  a <= b -> b <= c ->
  signals_between env a c = signals_between env a b + signals_between env b c.
Proof.
  intros Hab Hbc. unfold signals_between.
  replace (c - a) with ((b - a) + (c - b)) by lia.
  rewrite seq_app, filter_app, length_app.
  now replace (a + (b - a)) with b by lia.
Qed.

Lemma signals_between_next env a :
  signals_between env a (S a) = if signal_at env a then 1 else 0.
Proof.
  unfold signals_between. replace (S a - a) with 1 by lia. simpl.
  now destruct (signal_at env a).
Qed.

Lemma signals_between_quiet env a b : no_signals env -> signals_between env a b = 0.
Proof.
  intros Hq. unfold signals_between.
  induction (seq a (b - a)) as [|i l IH]; [reflexivity|].
  simpl. now rewrite Hq.
Qed.

#[export] Instance tally_composes env : Composes (tally env).
Proof.
  split.
  - intros s. split; [apply Nat.le_refl|].
    now rewrite signals_between_same, Nat.add_0_r.
  - intros s1 s2 s3 [L1 C1] [L2 C2]. split; [lia|].
    rewrite (signals_between_split env L1 L2). lia.
Qed.

(** A call that takes no pause and does not write [cleanup]'s closing
    message leaves the count where it was. *)
Lemma tally_quiet {A} env (m : M A) :
  always same_sleeps m -> stretches not_cleanup m -> always (tally env) m.
Proof.
  intros Hs Hc s. specialize (Hs s). specialize (Hc s).
  unfold same_sleeps in Hs. split; [lia|].
  rewrite (extends_cleanup_runs Hc), Hs, signals_between_same. lia.
Qed.

Ltac count_quiet :=
  apply tally_quiet; [walk|apply appends_stretches; frame].

Section Tally.

Variable env : Env.

Lemma tally_console_print r : always (tally env) (console_print r).
Proof. count_quiet. Qed.

Lemma tally_Confirm_ask p : always (tally env) (Confirm_ask env p).
Proof. count_quiet. Qed.

Lemma tally_log_event ev d :
  not_cleanup ev (details_level (or_empty d)) = true ->
  always (tally env) (log_event env ev d).
Proof. intros H. count_quiet. Qed.

Lemma tally_print_message message level :
  not_cleanup (u "Message displayed") level = true ->
  always (tally env) (print_message env message level).
Proof.
  intros H. apply tally_quiet; [apply always_print_message; exact _|].
  apply appends_stretches. frame.
Qed.

Lemma tally_show_export_options : always (tally env) (show_export_options env).
Proof.
  apply tally_quiet; [apply always_show_export_options; exact _|].
  apply appends_stretches, appends_show_export_options; reflexivity.
Qed.

Lemma tally_check_keyboard_input : always (tally env) (check_keyboard_input env).
Proof.
  apply tally_quiet; [apply always_check_keyboard_input; exact _|].
  intros s. unfold check_keyboard_input.
  destruct (keyboard env (polls s)) as [b|]; [destruct (decode_utf8 b)|];
    (exists []; simpl; split; [now rewrite List.app_nil_r|constructor]).
Qed.

(** [cleanup] takes no pause and logs its closing message once. *)
Lemma cleanup_counts s s' :
  cleanup env s = Done tt s' ->
  sleeps s' = sleeps s /\ cleanup_runs s' = S (cleanup_runs s).
Proof.
  intros E. split; [|now apply (cleanup_runs_cleanup env s)].
  pose proof (@always_cleanup env same_sleeps _ s) as H. now rewrite E in H.
Qed.

Lemma handle_interrupt_counts s :
  sleeps (state_of (handle_interrupt env s)) = sleeps s
  /\ cleanup_runs (state_of (handle_interrupt env s)) = S (cleanup_runs s).
Proof.
  destruct (returns_print_message env ([10%N] ++ u "Gracefully shutting down...")
              (u "warning") (set_is_running false s)) as ([] & sm & Em).
  destruct (returns_cleanup env sm) as ([] & sc & Ec).
  assert (E : handle_interrupt env s = Done tt sc).
  { unfold handle_interrupt. eapply bind_run; [reflexivity|].
    eapply bind_run; [exact Em|exact Ec]. }
  rewrite E. simpl.
  pose proof (@tally_print_message ([10%N] ++ u "Gracefully shutting down...")
                (u "warning") eq_refl (set_is_running false s)) as [Lm Cm].
  rewrite Em in Lm, Cm. simpl in Lm, Cm.
  pose proof (@always_print_message env same_sleeps _
                ([10%N] ++ u "Gracefully shutting down...") (u "warning")
                (set_is_running false s)) as Sm.
  rewrite Em in Sm. unfold same_sleeps in Sm. simpl in Sm.
  destruct (@cleanup_counts _ _ Ec) as [Sc Cc].
  rewrite Sm, signals_between_same in Cm.
  split; [congruence|]. rewrite Cc, Cm.
  unfold cleanup_runs. simpl. lia.
Qed.

(** A pause is counted, and so is the [cleanup] of the handler when a
    signal interrupts it. *)
Lemma tally_time_sleep : always (tally env) (time_sleep env).
Proof.
  intros s.
  change (time_sleep env s)
    with ((if signal_at env (sleeps s) then handle_interrupt env else ret tt)
            (set_sleeps (S (sleeps s)) s)).
  pose proof (signals_between_next env (sleeps s)) as N.
  destruct (signal_at env (sleeps s)).
  - destruct (handle_interrupt_counts (set_sleeps (S (sleeps s)) s)) as [Sh Ch].
    simpl in Sh. split; [lia|]. rewrite Ch, Sh, N.
    unfold cleanup_runs. simpl. lia.
  - unfold ret, tally, cleanup_runs. simpl. rewrite N. lia.
Qed.

Hint Resolve tally_console_print tally_Confirm_ask tally_log_event
  tally_print_message tally_show_export_options tally_check_keyboard_input
  tally_time_sleep : walk.

Hint Extern 1 (_ = true) => reflexivity : walk.

Lemma tally_display_progress d : always (tally env) (display_progress env d).
Proof. unfold display_progress. walk. Qed.

Hint Resolve tally_display_progress : walk.

Lemma tally_wait_for_action fuel : always (tally env) (wait_for_action env fuel).
Proof.
  induction fuel as [|fuel IH]; simpl; [apply always_out_of_fuel; exact _|]. walk.
Qed.

Hint Resolve tally_wait_for_action : walk.

Lemma tally_dispatch stp action : always (tally env) (dispatch env stp action).
Proof. unfold dispatch, display_help. walk. Qed.

Hint Resolve tally_dispatch : walk.

Lemma tally_action_loop fuel stp : always (tally env) (action_loop env fuel stp).
Proof.
  induction fuel as [|fuel IH]; simpl; [apply always_out_of_fuel; exact _|].
  unfold show_action_menu. walk.
Qed.

Hint Resolve tally_action_loop : walk.

Lemma tally_run_step fuel stp : always (tally env) (run_step env fuel stp).
Proof. unfold run_step, display_header, create_step_panel. walk. Qed.

Lemma tally_step_loop fuel steps : always (tally env) (step_loop env fuel steps).
Proof.
  induction fuel as [|fuel IH]; simpl; [apply always_out_of_fuel; exact _|].
  apply always_bind; [exact _|apply always_get; exact _|]. intros s0.
  destruct (Nat.ltb (current_step s0) (List.length steps) && is_running s0);
    [|apply always_ret; exact _].
  destruct (nth_error steps (current_step s0)) as [stp|];
    [|apply always_raise; exact _].
  apply always_bind; [exact _|apply tally_run_step|].
  intros [|]; [|apply always_ret; exact _].
  apply always_bind; [exact _| |intros _; exact IH].
  intros s. unfold tally, cleanup_runs. simpl.
  rewrite signals_between_same. lia.
Qed.

Hint Resolve tally_step_loop : walk.

Lemma tally_run_automation_body fuel steps :
  always (tally env)
    (try_except (step_loop env fuel steps ;; completion env steps) (failure env)).
Proof. unfold completion, failure. walk. Qed.

End Tally.

(** X21. How often [cleanup] runs.  A run that returns has run [cleanup]
    once in its [finally] clause and once more for every signal that was
    delivered during one of its pauses: counted by the closing message,
    the only message of level ["info"] the class prints, the log holds
    one more than before plus the number of interrupted pauses.  Without
    a signal that is exactly once. *)
Theorem cleanup_runs_once_and_once_per_signal
    (env : Env) (fuel : nat) (steps : list Step) (s s' : AutomationUI)
    (Hrun : run_automation env fuel steps s = Done tt s') :
  cleanup_runs s' =
    cleanup_runs s + 1 + signals_between env (sleeps s) (sleeps s')
  /\ (no_signals env -> cleanup_runs s' = S (cleanup_runs s)).
Proof.
  assert (H : cleanup_runs s' =
              cleanup_runs s + 1 + signals_between env (sleeps s) (sleeps s')).
  { rewrite run_automation_loop_entry in Hrun. unfold try_finally in Hrun.
    pose proof (@tally_run_automation_body env fuel steps (loop_entry env s)) as [L1 C1].
    assert (T0 : tally env s (loop_entry env s)).
    { unfold loop_entry.
      assert (A : always (tally env) (show_keyboard_shortcuts ;; time_sleep env)).
      { unfold show_keyboard_shortcuts.
        apply always_bind; [exact _|apply tally_console_print|].
        intros _. apply tally_time_sleep. }
      apply A. }
    destruct T0 as [L0 C0].
    destruct (try_except (step_loop env fuel steps ;; completion env steps)
                         (failure env) (loop_entry env s)) as [[] s1|e s1|s1];
      simpl in L1, C1.
    - bind_inv Hrun. injection Hrun as <-. destruct a.
      destruct (@cleanup_counts _ _ _ H) as [Sc Cc].
      rewrite Cc, Sc, C1, C0.
      rewrite (signals_between_split env L0 L1). lia.
    - bind_inv Hrun. discriminate Hrun.
    - discriminate Hrun. }
  split; [exact H|]. intros Hq. rewrite H, (signals_between_quiet _ _ Hq). lia.
Qed.

Lemma cleanup_runs_once_and_once_per_signal_witness :
  cleanup_runs (state_of (run_automation interrupt_env 5 example_steps
                                          (state_of (__init__ interrupt_env))))
  = 0 + 1 + signals_between interrupt_env 0
              (sleeps (state_of (run_automation interrupt_env 5 example_steps
                                                (state_of (__init__ interrupt_env))))).
Proof.
  assert (Hrun : run_automation interrupt_env 5 example_steps
                                (state_of (__init__ interrupt_env))
                 = Done tt (state_of (run_automation interrupt_env 5 example_steps
                                                     (state_of (__init__ interrupt_env)))))
    by (vm_compute; reflexivity).
  exact (proj1 (@cleanup_runs_once_and_once_per_signal
                  interrupt_env 5 example_steps _ _ Hrun)).
Defined.

(* ===================================================================== *)
(** ** The vocabulary of the log *)
(* ===================================================================== *)

#[export] Instance extends_composes allowed : Composes (extends allowed).
Proof. split; [apply extends_refl|apply extends_trans]. Qed.

Lemma always_extends {A} allowed (m : M A) :
  appends allowed m -> always (extends allowed) m.
Proof. intros H s. apply grows_extends, H. Qed.

Section Vocabulary.

Variable env : Env.

Lemma run_events_time_sleep : appends run_events (time_sleep env).
Proof. apply appends_time_sleep; reflexivity. Qed.

Lemma run_events_run_step fuel stp : appends run_events (run_step env fuel stp).
Proof. apply appends_run_step; try reflexivity. apply run_events_time_sleep. Qed.

Lemma run_events_step_loop fuel steps :
  always (extends run_events) (step_loop env fuel steps).
Proof.
  induction fuel as [|fuel IH]; simpl; [apply always_out_of_fuel; exact _|].
  apply always_bind; [exact _|apply always_get; exact _|]. intros s0.
  destruct (Nat.ltb (current_step s0) (List.length steps) && is_running s0);
    [|apply always_ret; exact _].
  destruct (nth_error steps (current_step s0)) as [stp|];
    [|apply always_raise; exact _].
  apply always_bind; [exact _|apply always_extends, run_events_run_step|].
  intros [|]; [|apply always_ret; exact _].
  apply always_bind; [exact _| |intros _; exact IH].
  intros s. exists []. simpl. split; [now rewrite List.app_nil_r|constructor].
Qed.

Lemma run_events_run_automation fuel steps :
  always (extends run_events) (run_automation env fuel steps).
Proof.
  pose proof (@appends_show_export_options env run_events
                eq_refl eq_refl eq_refl eq_refl) as Hx.
  pose proof run_events_time_sleep as Hs.
  unfold run_automation, show_keyboard_shortcuts.
  apply always_try_finally;
    [exact _| |apply always_extends, appends_cleanup; reflexivity].
  apply always_try_except; [exact _| |intros e; apply always_extends; frame].
  apply always_bind; [exact _|apply always_extends; frame|]. intros _.
  apply always_bind; [exact _|apply always_extends, Hs|]. intros _.
  apply always_bind; [exact _|apply run_events_step_loop|]. intros _.
  apply always_extends. frame.
Qed.

End Vocabulary.

(** X22. The vocabulary of a run is closed.  Whatever happens, every
    entry [run_automation] appends carries one of fourteen event tags:
    the tags of the class except ["Session started"], which only the
    constructor writes and which therefore never appears a second
    time. *)
Theorem run_automation_logs_only_its_own_events
    (env : Env) (fuel : nat) (steps : list Step) (s : AutomationUI) :
  exists added,
    session_logs (state_of (run_automation env fuel steps s)) = session_logs s ++ added
    /\ Forall (fun e => In (event e) run_event_tags) added
    /\ count_event (u "Session started") added = 0.
Proof.
  destruct (run_events_run_automation env fuel steps s) as (added & L & F).
  assert (F' : Forall (fun e => In (event e) run_event_tags) added).
  { eapply Forall_impl; [|exact F]. intros e H.
    unfold permits, run_events in H. apply existsb_exists in H as (t & Hin & Ht).
    apply pystr_eqb_eq in Ht. now rewrite Ht. }
  exists added. split; [exact L|]. split; [exact F'|].
  unfold count_event. clear L F.
  induction F' as [|e l He Hl IH]; [reflexivity|]. simpl.
  destruct (pystr_eqb (event e) (u "Session started")) eqn:E; [|exact IH].
  apply pystr_eqb_eq in E. rewrite E in He. exfalso.
  vm_compute in He.
  repeat (destruct He as [He|He]; [discriminate He|]). exact He.
Qed.
